(** * Pazaryeri: the persisted client-side stores

    A shallow embedding of the two zustand stores of the storefront
    ([src/stores/useFavoritesStore.ts], [src/stores/useThemeStore.ts]),
    of the storage codec the favorites store installs and of the loading
    half of [src/services/storage/local-storage.service.ts], together
    with the properties the specification states about them.

    The stores are written against the JavaScript platform: [Map],
    plain objects, [JSON], [localStorage], [window.matchMedia].  Module
    [Js] models the part of the platform the stores touch; the modules
    after it follow the source files function by function. *)

From Stdlib Require Import ZArith NArith Ascii String DecimalN Sorted.
From stdpp Require Import gmap strings list.

Local Open Scope string_scope.
Set Warnings "-register-all,-clear-no-such-hyp".

(** ** The platform *)

Module Js.

(** Heap addresses of the mutable containers ([Map], arrays). *)
Definition loc := positive.

(** A [number], held by the decimal digits of its text: the value is
    [0.d1 d2 ... dk * 10 ^ point] for the digits [d1 ... dk] of
    [significand], negated where [negative] is set, and zero where there
    is no digit.  A double has such digits, at most 17 of them, the ones
    [Number::toString] writes for it and [JSON.parse] reads back as the
    same double: a number of the program is held by these.  Where a
    text has digits no double is written with (more than a double
    distinguishes, or a magnitude outside the range of doubles) the
    program reads the nearest double; here the number with all the
    digits of the text is kept, the rounding is not taken. *)
Record Number : Type := mkNumber {
  negative : bool;
  significand : list ascii;
  point : Z
}.

(** Run-time values.  The constructors up to [JsObject] are the
    [JsonValue] type of [services/storage/local-storage.service.ts];
    [JsMap] is a reference to a [Map] living in the heap.  Plain objects
    carry their properties in enumeration order.  A string is held by
    the bytes of its UTF-8 text. *)
Inductive JsValue : Type :=
| JsNull
| JsBool (b : bool)
| JsNumber (n : Number)
| JsString (s : string)
| JsArray (items : list JsValue)
| JsObject (props : list (string * JsValue))
| JsMap (l : loc).

(** The entries of a [Map<string, V>], in insertion order. *)
Definition Entries := list (string * JsValue).

Inductive HeapObj : Type :=
| HMap (entries : Entries)
| HArray (items : list JsValue).

(** The exceptions the modelled calls can raise: [JSON.parse] on text
    that is not JSON, a property read on [null] or a method call on a
    value that lacks it, a global that is not declared, and an access to
    a storage that is blocked or missing. *)
Inductive Exn : Type := SyntaxError | TypeError | ReferenceError | SecurityError.

Inductive Result (A : Type) : Type :=
| Ok (a : A)
| Throw (e : Exn).
Arguments Ok {A} a.
Arguments Throw {A} e.

(** Computations over a state [S] that may throw.  A throw keeps the
    state reached so far, as an exception leaves earlier writes in
    place. *)
Definition M (S A : Type) : Type := S -> Result A * S.

Definition ret {S A} (a : A) : M S A := fun s => (Ok a, s).

Definition bind {S A B} (m : M S A) (k : A -> M S B) : M S B :=
  fun s =>
    match m s with
    | (Ok a, s') => k a s'
    | (Throw e, s') => (Throw e, s')
    end.

Definition throw {S A} (e : Exn) : M S A := fun s => (Throw e, s).

(** [try { m } catch { h }] *)
Definition try_catch {S A} (m : M S A) (h : Exn -> M S A) : M S A :=
  fun s =>
    match m s with
    | (Ok a, s') => (Ok a, s')
    | (Throw e, s') => h e s'
    end.

Declare Scope js_scope.
Delimit Scope js_scope with js.
Notation "x <- m ;; k" := (bind m (fun x => k))
  (at level 100, m at next level, right associativity) : js_scope.
Notation "m ;;; k" := (bind m (fun _ => k))
  (at level 100, right associativity) : js_scope.

(** *** [Map.prototype] on the entry list *)

(** [has(key)] *)
Fixpoint entries_has (key : string) (es : Entries) : bool :=
  match es with
  | [] => false
  | (k, _) :: rest => if String.eqb k key then true else entries_has key rest
  end.

(** [get(key)] *)
Fixpoint entries_get (key : string) (es : Entries) : option JsValue :=
  match es with
  | [] => None
  | (k, v) :: rest => if String.eqb k key then Some v else entries_get key rest
  end.

(** [set(key, value)]: an existing key keeps its place and takes the new
    value, a new key goes to the end. *)
Fixpoint entries_set (key : string) (value : JsValue) (es : Entries) : Entries :=
  match es with
  | [] => [(key, value)]
  | (k, v) :: rest =>
      if String.eqb k key then (k, value) :: rest
      else (k, v) :: entries_set key value rest
  end.

(** [delete(key)]: drops the entry of [key] when there is one. *)
Fixpoint entries_delete (key : string) (es : Entries) : Entries :=
  match es with
  | [] => []
  | (k, v) :: rest =>
      if String.eqb k key then rest else (k, v) :: entries_delete key rest
  end.

(** [new Map(iterable)] adds the pairs of the iterable one by one. *)
Definition entries_of_iterable (pairs : list (string * JsValue)) : Entries :=
  fold_left (fun es kv => entries_set kv.1 kv.2 es) pairs [].

End Js.

(** ** [JSON] and plain objects *)

Module Json.

Import Js.
Local Open Scope char_scope.
Local Open Scope list_scope.

(** *** Property order of a plain object

    A plain object enumerates its array-index keys first, in ascending
    numeric order, and its other keys after them in the order of their
    creation.  An array index is the canonical decimal text of an integer
    below [2^32 - 1]. *)

Definition digit (c : ascii) : option (Decimal.uint -> Decimal.uint) :=
  match c with
  | "0" => Some Decimal.D0 | "1" => Some Decimal.D1 | "2" => Some Decimal.D2
  | "3" => Some Decimal.D3 | "4" => Some Decimal.D4 | "5" => Some Decimal.D5
  | "6" => Some Decimal.D6 | "7" => Some Decimal.D7 | "8" => Some Decimal.D8
  | "9" => Some Decimal.D9
  | _ => None
  end.

(** The longest run of decimal digits at the head of the text. *)
Fixpoint read_digits (s : list ascii) : Decimal.uint * list ascii :=
  match s with
  | [] => (Decimal.Nil, [])
  | c :: r =>
      match digit c with
      | Some d => let (u, r') := read_digits r in (d u, r')
      | None => (Decimal.Nil, s)
      end
  end.

Fixpoint digits (u : Decimal.uint) : list ascii :=
  match u with
  | Decimal.Nil => []
  | Decimal.D0 u => "0" :: digits u | Decimal.D1 u => "1" :: digits u
  | Decimal.D2 u => "2" :: digits u | Decimal.D3 u => "3" :: digits u
  | Decimal.D4 u => "4" :: digits u | Decimal.D5 u => "5" :: digits u
  | Decimal.D6 u => "6" :: digits u | Decimal.D7 u => "7" :: digits u
  | Decimal.D8 u => "8" :: digits u | Decimal.D9 u => "9" :: digits u
  end.

(** Digits with no leading zero, and at least one of them. *)
Definition canonical (u : Decimal.uint) : bool :=
  Decimal.uint_beq (Decimal.unorm u) u.

Definition array_index (key : string) : option N :=
  match read_digits (list_ascii_of_string key) with
  | (u, []) =>
      if canonical u && (N.of_uint u <? 2 ^ 32 - 1)%N then Some (N.of_uint u)
      else None
  | _ => None
  end.

(** *** Numbers *)

Definition is_digit (c : ascii) : bool :=
  match digit c with
  | Some _ => true
  | None => false
  end.

(** The longest run of digits at the head of the text, as characters. *)
Fixpoint span_digits (s : list ascii) : list ascii * list ascii :=
  match s with
  | c :: r =>
      if is_digit c then let (ds, r') := span_digits r in (c :: ds, r')
      else ([], s)
  | [] => ([], [])
  end.

Fixpoint strip_zeros (s : list ascii) : list ascii :=
  match s with
  | "0" :: r => strip_zeros r
  | _ => s
  end.

(** The number written with the digits [int] before the decimal point,
    the digits [frac] after it and the exponent [exp].  Zeros at either
    end of the digits carry no value; the sign of a zero is kept. *)
Definition number_of_digits (neg : bool) (int frac : list ascii) (exp : Z) : Number :=
  let all := int ++ frac in
  let body := strip_zeros all in
  match rev (strip_zeros (rev body)) with
  | [] => mkNumber neg [] 0
  | sig =>
      mkNumber neg sig (Z.of_nat (length int) + exp - Z.of_nat (length all - length body))
  end.

(** The number of an integer. *)
Definition number_of_Z (z : Z) : Number :=
  number_of_digits (z <? 0)%Z (digits (N.to_uint (Z.abs_N z))) [] 0.

Definition is_zero (x : Number) : bool :=
  match significand x with
  | [] => true
  | _ => false
  end.

(** [x === y] on numbers: the two zeros are equal. *)
Definition number_eqb (x y : Number) : bool :=
  (is_zero x && is_zero y)
  || (Bool.eqb (negative x) (negative y)
      && bool_decide (significand x = significand y)
      && (point x =? point y)%Z).

(** [comes_before a b]: a new key [a] is enumerated ahead of an existing
    key [b]. *)
Definition comes_before (a b : string) : bool :=
  match array_index a, array_index b with
  | Some i, Some j => (i <? j)%N
  | Some _, None => true
  | None, _ => false
  end.

(** [CreateDataProperty] on a plain object, also [obj[key] = value]: an
    own key takes the new value where it stands, a new key takes its
    place in the enumeration order. *)
Fixpoint define_property (key : string) (value : JsValue)
    (props : list (string * JsValue)) : list (string * JsValue) :=
  match props with
  | [] => [(key, value)]
  | (k, v) :: rest =>
      if String.eqb k key then (k, value) :: rest
      else if comes_before key k then (key, value) :: (k, v) :: rest
      else (k, v) :: define_property key value rest
  end.

(** [Object.fromEntries(iterable)] *)
Definition Object_fromEntries (pairs : list (string * JsValue)) : JsValue :=
  JsObject (fold_left (fun props kv => define_property kv.1 kv.2 props) pairs []).

(** *** Strings

    A string is held by the bytes of its UTF-8 text: a character below
    128 is one byte, any other is two to four, and the half of a
    surrogate pair on its own is the three bytes its code unit would
    have. *)
Definition utf8 (n : N) : list ascii :=
  (if n <? 128 then [ascii_of_N n]
   else if n <? 2048 then [ascii_of_N (192 + n / 64); ascii_of_N (128 + n mod 64)]
   else if n <? 65536
        then [ascii_of_N (224 + n / 4096); ascii_of_N (128 + (n / 64) mod 64);
              ascii_of_N (128 + n mod 64)]
   else [ascii_of_N (240 + n / 262144); ascii_of_N (128 + (n / 4096) mod 64);
         ascii_of_N (128 + (n / 64) mod 64); ascii_of_N (128 + n mod 64)])%N.

(** The two halves of a surrogate pair, and the character of a pair. *)
Definition is_lead (n : N) : bool := ((55296 <=? n) && (n <? 56320))%N.
Definition is_trail (n : N) : bool := ((56320 <=? n) && (n <? 57344))%N.
Definition surrogate_pair (lead trail : N) : N :=
  (65536 + (lead - 55296) * 1024 + (trail - 56320))%N.

(** The code units of a string, each as the string it makes: a
    character of one to three bytes is one unit, a character of four
    bytes is the two halves of its surrogate pair. *)
Fixpoint code_units (s : list ascii) : list (list ascii) :=
  match s with
  | [] => []
  | c1 :: r1 =>
      if (N_of_ascii c1 <? 192)%N then [c1] :: code_units r1
      else
        match r1 with
        | [] => [[c1]]
        | c2 :: r2 =>
            if (N_of_ascii c1 <? 224)%N then [c1; c2] :: code_units r2
            else
              match r2 with
              | [] => [[c1; c2]]
              | c3 :: r3 =>
                  if (N_of_ascii c1 <? 240)%N then [c1; c2; c3] :: code_units r3
                  else
                    match r3 with
                    | [] => [[c1; c2; c3]]
                    | c4 :: r4 =>
                        let n :=
                          ((N_of_ascii c1 mod 8) * 262144
                           + (N_of_ascii c2 mod 64) * 4096
                           + (N_of_ascii c3 mod 64) * 64
                           + N_of_ascii c4 mod 64 - 65536)%N in
                        utf8 (55296 + n / 1024) :: utf8 (56320 + n mod 1024)
                          :: code_units r4
                    end
              end
        end
  end.

Definition index_key (i : nat) : string :=
  string_of_list_ascii (digits (N.to_uint (N.of_nat i))).

(** [Object.entries(value)] for a value other than [null]: the own
    enumerable string-keyed properties.  An array and a string list
    their elements under the indices; a number, a boolean and a [Map]
    have none. *)
Definition Object_entries (v : JsValue) : list (string * JsValue) :=
  match v with
  | JsObject props => props
  | JsArray items => imap (fun i x => (index_key i, x)) items
  | JsString s =>
      imap (fun i unit => (index_key i, JsString (string_of_list_ascii unit)))
           (code_units (list_ascii_of_string s))
  | _ => []
  end.

(** [ToBoolean] *)
Definition truthy (v : JsValue) : bool :=
  match v with
  | JsNull => false
  | JsBool b => b
  | JsNumber n => negb (is_zero n)
  | JsString s => negb (String.eqb s "")
  | _ => true
  end.

(** *** [JSON.stringify] *)

Definition hex_digit (n : N) : ascii :=
  match n with
  | 0 => "0" | 1 => "1" | 2 => "2" | 3 => "3" | 4 => "4" | 5 => "5" | 6 => "6"
  | 7 => "7" | 8 => "8" | 9 => "9" | 10 => "a" | 11 => "b" | 12 => "c"
  | 13 => "d" | 14 => "e" | _ => "f"
  end%N.

(** [QuoteJSONString], one character: the quote, the backslash and the
    control characters are escaped.  (The half of a surrogate pair on
    its own, which [JSON.stringify] writes as an escape as well, is
    written in its bytes.) *)
Definition escape (c : ascii) : list ascii :=
  match c with
  | "034" => ["\"; "034"]
  | "\" => ["\"; "\"]
  | "008" => ["\"; "b"]
  | "009" => ["\"; "t"]
  | "010" => ["\"; "n"]
  | "012" => ["\"; "f"]
  | "013" => ["\"; "r"]
  | _ =>
      let n := N_of_ascii c in
      if (n <? 32)%N
      then ["\"; "u"; "0"; "0"; hex_digit (n / 16); hex_digit (n mod 16)]
      else [c]
  end.

Definition quote (s : string) : list ascii :=
  "034" :: flat_map escape (list_ascii_of_string s) ++ ["034"].

(** The exponent of the scientific form: [e], the sign, the digits. *)
Definition exponent_part (e : Z) : list ascii :=
  "e" :: (if (0 <=? e)%Z then "+" else "-") :: digits (N.to_uint (Z.abs_N e)).

(** [Number::toString]: with [k] digits and the decimal point at [n],
    the digits and [n - k] zeros where [k <= n <= 21]; the digits with
    the point among them where [0 < n <= 21]; [0.] and [-n] zeros before
    the digits where [-6 < n <= 0]; the scientific form otherwise.  Both
    zeros print as [0]. *)
Definition print_number (x : Number) : list ascii :=
  match significand x with
  | [] => ["0"]
  | d :: ds =>
      let s := d :: ds in
      let k := Z.of_nat (length s) in
      let n := point x in
      (if negative x then ["-"] else []) ++
      (if (k <=? n)%Z && (n <=? 21)%Z then s ++ replicate (Z.to_nat (n - k)) "0"
       else if (0 <? n)%Z && (n <=? 21)%Z
            then take (Z.to_nat n) s ++ "." :: drop (Z.to_nat n) s
       else if (-6 <? n)%Z && (n <=? 0)%Z
            then "0" :: "." :: replicate (Z.to_nat (- n)) "0" ++ s
       else d :: match ds with [] => [] | _ => "." :: ds end ++ exponent_part (n - 1))
  end.

Definition literal (s : string) : list ascii := list_ascii_of_string s.

(** The parts of a list or of an object, a comma between them. *)
Fixpoint join (parts : list (list ascii)) : list ascii :=
  match parts with
  | [] => []
  | [part] => part
  | part :: rest => part ++ "," :: join rest
  end.

(** The text of a value, without indentation.  A [Map] has no enumerable
    property of its own and prints as an empty object. *)
Fixpoint print (v : JsValue) : list ascii :=
  match v with
  | JsNull => literal "null"
  | JsBool true => literal "true"
  | JsBool false => literal "false"
  | JsNumber n => print_number n
  | JsString s => quote s
  | JsArray items => "[" :: join (map print items) ++ ["]"]
  | JsObject props =>
      "{" :: join (map (fun kv => quote kv.1 ++ ":" :: print kv.2) props) ++ ["}"]
  | JsMap _ => literal "{}"
  end.

Definition JSON_stringify (v : JsValue) : string :=
  string_of_list_ascii (print v).

(** *** [JSON.parse] *)

(** The outcome of reading a prefix of the text.  [NoFuel] is the
    recursion budget running out; [JSON_parse] below starts with a
    budget that never does. *)
Inductive Parse (A : Type) : Type :=
| Parsed (a : A) (rest : list ascii)
| Malformed
| NoFuel.
Arguments Parsed {A} a rest.
Arguments Malformed {A}.
Arguments NoFuel {A}.

Definition is_ws (c : ascii) : bool :=
  match c with
  | " " | "009" | "010" | "013" => true
  | _ => false
  end.

Fixpoint skip_ws (s : list ascii) : list ascii :=
  match s with
  | c :: r => if is_ws c then skip_ws r else s
  | [] => []
  end.

Local Open Scope N_scope.
Definition hex_value (c : ascii) : option N :=
  let n := N_of_ascii c in
  if (48 <=? n) && (n <=? 57) then Some (n - 48)
  else if (97 <=? n) && (n <=? 102) then Some (n - 87)
  else if (65 <=? n) && (n <=? 70) then Some (n - 55)
  else None.
Local Close Scope N_scope.

(** The code unit of a [\uXXXX] escape. *)
Definition code_unit (a b c d : ascii) : option N :=
  match hex_value a, hex_value b, hex_value c, hex_value d with
  | Some x3, Some x2, Some x1, Some x0 => Some (((x3 * 16 + x2) * 16 + x1) * 16 + x0)%N
  | _, _, _, _ => None
  end.

(** The characters of a string literal after its opening quote, up to
    the closing one. *)
Fixpoint read_string (s : list ascii) : option (list ascii * list ascii) :=
  match s with
  | [] => None
  | "034" :: r => Some ([], r)
  | "\" :: e :: r =>
      let app_to (cs0 : list ascii) (r' : list ascii) :=
        match read_string r' with
        | Some (cs, r'') => Some (cs0 ++ cs, r'')
        | None => None
        end in
      match e, r with
      | "034", _ => app_to ["034"] r
      | "\", _ => app_to ["\"] r
      | "/", _ => app_to ["/"] r
      | "b", _ => app_to ["008"] r
      | "t", _ => app_to ["009"] r
      | "n", _ => app_to ["010"] r
      | "f", _ => app_to ["012"] r
      | "r", _ => app_to ["013"] r
      | "u", a :: b :: c :: d :: r' =>
          match code_unit a b c d with
          | Some n =>
              if is_lead n then
                match r' with
                | e1 :: e2 :: a' :: b' :: c' :: d' :: r'' =>
                    match code_unit a' b' c' d' with
                    | Some n' =>
                        if Ascii.eqb e1 "\" && Ascii.eqb e2 "u" && is_trail n'
                        then app_to (utf8 (surrogate_pair n n')) r''
                        else app_to (utf8 n) r'
                    | None => app_to (utf8 n) r'
                    end
                | _ => app_to (utf8 n) r'
                end
              else app_to (utf8 n) r'
          | None => None
          end
      | _, _ => None
      end
  | "\" :: [] => None
  | c :: r =>
      if (N_of_ascii c <? 32)%N then None
      else
        match read_string r with
        | Some (cs, r') => Some (c :: cs, r')
        | None => None
        end
  end.

(** A number, by the grammar of JSON: an optional minus sign; the
    integer part, [0] or digits that do not start with [0]; an optional
    fraction, a point and at least one digit; an optional exponent, [e]
    or [E], an optional sign and at least one digit. *)
Definition read_int (s : list ascii) : option (list ascii * list ascii) :=
  match s with
  | "0" :: r => Some (["0"], r)
  | c :: r =>
      if is_digit c then let (ds, r') := span_digits r in Some (c :: ds, r')
      else None
  | [] => None
  end.

Definition read_frac (s : list ascii) : option (list ascii * list ascii) :=
  match s with
  | "." :: r =>
      match span_digits r with
      | ([], _) => None
      | (ds, r') => Some (ds, r')
      end
  | _ => Some ([], s)
  end.

Definition read_exp (s : list ascii) : option (Z * list ascii) :=
  match s with
  | "e" :: r | "E" :: r =>
      let (minus, r1) :=
        match r with
        | "+" :: r1 => (false, r1)
        | "-" :: r1 => (true, r1)
        | _ => (false, r)
        end in
      match read_digits r1 with
      | (Decimal.Nil, _) => None
      | (u, r2) =>
          let e := Z.of_N (N.of_uint u) in
          Some (if minus then (- e)%Z else e, r2)
      end
  | _ => Some (0%Z, s)
  end.

Definition read_unsigned (neg : bool) (s : list ascii) : Parse JsValue :=
  match read_int s with
  | Some (int, s2) =>
      match read_frac s2 with
      | Some (frac, s3) =>
          match read_exp s3 with
          | Some (exp, rest) =>
              Parsed (JsNumber (number_of_digits neg int frac exp)) rest
          | None => Malformed
          end
      | None => Malformed
      end
  | None => Malformed
  end.

Definition read_number (s : list ascii) : Parse JsValue :=
  match s with
  | "-" :: r => read_unsigned true r
  | _ => read_unsigned false s
  end.

Definition expect (word : string) (s : list ascii) (v : JsValue) : Parse JsValue :=
  let w := list_ascii_of_string word in
  if decide (take (length w) s = w) then Parsed v (drop (length w) s)
  else Malformed.

(** One value, after optional white space.  The members of an object are
    defined in the order of the text. *)
Fixpoint parse_value (fuel : nat) (s : list ascii) {struct fuel} : Parse JsValue :=
  match fuel with
  | O => NoFuel
  | S fuel =>
      match skip_ws s with
      | "n" :: _ => expect "null" (skip_ws s) JsNull
      | "t" :: _ => expect "true" (skip_ws s) (JsBool true)
      | "f" :: _ => expect "false" (skip_ws s) (JsBool false)
      | "034" :: r =>
          match read_string r with
          | Some (cs, r') => Parsed (JsString (string_of_list_ascii cs)) r'
          | None => Malformed
          end
      | "[" :: r =>
          match skip_ws r with
          | "]" :: r' => Parsed (JsArray []) r'
          | _ =>
              match parse_elements fuel r with
              | Parsed items r' => Parsed (JsArray items) r'
              | Malformed => Malformed
              | NoFuel => NoFuel
              end
          end
      | "{" :: r =>
          match skip_ws r with
          | "}" :: r' => Parsed (JsObject []) r'
          | _ =>
              match parse_members fuel r with
              | Parsed members r' => Parsed (Object_fromEntries members) r'
              | Malformed => Malformed
              | NoFuel => NoFuel
              end
          end
      | _ => read_number (skip_ws s)
      end
  end
with parse_elements (fuel : nat) (s : list ascii) {struct fuel}
    : Parse (list JsValue) :=
  match fuel with
  | O => NoFuel
  | S fuel =>
      match parse_value fuel s with
      | Parsed v r =>
          match skip_ws r with
          | "," :: r' =>
              match parse_elements fuel r' with
              | Parsed vs r'' => Parsed (v :: vs) r''
              | Malformed => Malformed
              | NoFuel => NoFuel
              end
          | "]" :: r' => Parsed [v] r'
          | _ => Malformed
          end
      | Malformed => Malformed
      | NoFuel => NoFuel
      end
  end
with parse_members (fuel : nat) (s : list ascii) {struct fuel}
    : Parse (list (string * JsValue)) :=
  match fuel with
  | O => NoFuel
  | S fuel =>
      match skip_ws s with
      | "034" :: r =>
          match read_string r with
          | Some (k, r1) =>
              match skip_ws r1 with
              | ":" :: r2 =>
                  match parse_value fuel r2 with
                  | Parsed v r3 =>
                      match skip_ws r3 with
                      | "," :: r4 =>
                          match parse_members fuel r4 with
                          | Parsed ms r5 =>
                              Parsed ((string_of_list_ascii k, v) :: ms) r5
                          | Malformed => Malformed
                          | NoFuel => NoFuel
                          end
                      | "}" :: r4 => Parsed [(string_of_list_ascii k, v)] r4
                      | _ => Malformed
                      end
                  | Malformed => Malformed
                  | NoFuel => NoFuel
                  end
              | _ => Malformed
              end
          | None => Malformed
          end
      | _ => Malformed
      end
  end.

(** [JSON.parse(text)]: one value with nothing but white space after it;
    anything else throws a [SyntaxError].  Two units of the budget for
    each character of the text are more than the reading uses. *)
Definition JSON_parse (text : string) : Result JsValue :=
  let s := list_ascii_of_string text in
  match parse_value (S (2 * length s)) s with
  | Parsed v rest =>
      match skip_ws rest with
      | [] => Ok v
      | _ => Throw SyntaxError
      end
  | _ => Throw SyntaxError
  end.

End Json.

Import Js.

(** An integer where a number is due stands for the number of that
    integer. *)
Coercion Json.number_of_Z : Z >-> Number.
Arguments JsNumber n%_Z.

(** ** Products ([src/types/product.ts], [src/types/category.ts]) *)

Record ProductImage : Type := mkProductImage {
  image_id : string;
  url : string;
  alt : string;
  width : Number;
  height : Number
}.

Record ProductAttribute : Type := mkProductAttribute {
  attr_name : string;
  attr_value : string
}.

Record Category : Type := mkCategory {
  category_id : string;
  category_slug : string;
  category_name : string;
  category_description : option string;
  parentId : option string;
  category_image : option string;
  productCount : Number
}.

Record Product : Type := mkProduct {
  id : string;
  slug : string;
  name : string;
  description : string;
  price : Number;
  originalPrice : option Number;
  currency : string;
  images : list ProductImage;
  category : Category;
  brand : string;
  rating : Number;
  reviewCount : Number;
  inStock : bool;
  attributes : list ProductAttribute;
  createdAt : string;
  updatedAt : string
}.

(** A property declared with [?] is left out of the object when it has
    no value. *)
Definition optional (key : string) (v : option JsValue) : list (string * JsValue) :=
  match v with
  | Some x => [(key, x)]
  | None => []
  end.

(** The plain object that carries a value of each interface at run time,
    its properties in the order of the declaration. *)
Definition ProductImage_value (i : ProductImage) : JsValue :=
  JsObject [("id", JsString (image_id i)); ("url", JsString (url i));
            ("alt", JsString (alt i)); ("width", JsNumber (width i));
            ("height", JsNumber (height i))].

Definition ProductAttribute_value (a : ProductAttribute) : JsValue :=
  JsObject [("name", JsString (attr_name a)); ("value", JsString (attr_value a))].

Definition Category_value (c : Category) : JsValue :=
  JsObject ([("id", JsString (category_id c)); ("slug", JsString (category_slug c));
             ("name", JsString (category_name c))]
            ++ optional "description" (JsString <$> category_description c)
            ++ optional "parentId" (JsString <$> parentId c)
            ++ optional "image" (JsString <$> category_image c)
            ++ [("productCount", JsNumber (productCount c))]).

Definition Product_value (p : Product) : JsValue :=
  JsObject ([("id", JsString (id p)); ("slug", JsString (slug p));
             ("name", JsString (name p)); ("description", JsString (description p));
             ("price", JsNumber (price p))]
            ++ optional "originalPrice" (JsNumber <$> originalPrice p)
            ++ [("currency", JsString (currency p));
                ("images", JsArray (ProductImage_value <$> images p));
                ("category", Category_value (category p));
                ("brand", JsString (brand p));
                ("rating", JsNumber (rating p));
                ("reviewCount", JsNumber (reviewCount p));
                ("inStock", JsBool (inStock p));
                ("attributes", JsArray (ProductAttribute_value <$> attributes p));
                ("createdAt", JsString (createdAt p));
                ("updatedAt", JsString (updatedAt p))]).

(** [value.key]: the named own property of a plain object; [None] is
    [undefined]. *)
Definition property (key : string) (v : JsValue) : option JsValue :=
  match v with
  | JsObject props => entries_get key props
  | _ => None
  end.

(** ** The page: both stores and what they reach *)

(** [export type Theme = 'light' | 'dark' | 'system'] *)
Inductive Theme : Type := light | dark | system.

Record MediaQueryList : Type := mkMediaQueryList { matches : bool }.

Record Window : Type := mkWindow { matchMedia : string -> MediaQueryList }.

(** [document.documentElement.classList] *)
Record Document : Type := mkDocument { classList : gset string }.

(** The data field of each store's state.  [favorites] is declared a
    [Map<string, Product>], and a [Map] is what the store's own actions
    put there.  The hydration lays [state.favorites] of the slot over
    the field: [getItem] has made a [Map] of every truthy value by then,
    so what else can come to stand in the field is one of the falsy
    values of JSON. *)
Inductive Falsy : Type := FalsyNull | FalsyFalse | FalsyZero | FalsyEmpty.

Inductive Favorites : Type :=
| FavoritesMap (l : loc)
| FavoritesLeft (v : Falsy).

Record FavoritesState : Type := mkFavoritesState { favorites : Favorites }.
Record ThemeState : Type := mkThemeState { theme : Theme }.

(** [window] and [document] are [None] where [typeof] of the global is
    ['undefined'].  [localStorage] is [None] where the storage is
    unavailable: every access to it throws there, as a blocked storage
    does with a [SecurityError]; otherwise it maps slot names to the
    stored text.  A storage that is there takes every write: a storage
    that is full and refuses one ([QuotaExceededError]) is not
    modelled. *)
Record World : Type := mkWorld {
  heap : gmap loc HeapObj;
  localStorage : option (gmap string string);
  window : option Window;
  document : option Document;
  favoritesStore : FavoritesState;
  themeStore : ThemeState
}.

Definition with_heap (h : gmap loc HeapObj) (w : World) : World :=
  mkWorld h (localStorage w) (window w) (document w) (favoritesStore w) (themeStore w).
Definition with_localStorage (ls : option (gmap string string)) (w : World) : World :=
  mkWorld (heap w) ls (window w) (document w) (favoritesStore w) (themeStore w).
Definition with_document (d : option Document) (w : World) : World :=
  mkWorld (heap w) (localStorage w) (window w) d (favoritesStore w) (themeStore w).
Definition with_favoritesStore (s : FavoritesState) (w : World) : World :=
  mkWorld (heap w) (localStorage w) (window w) (document w) s (themeStore w).
Definition with_themeStore (s : ThemeState) (w : World) : World :=
  mkWorld (heap w) (localStorage w) (window w) (document w) (favoritesStore w) s.

Definition JS (A : Type) : Type := M World A.

Local Open Scope js_scope.

Definition lift {A} (r : Result A) : JS A := fun w => (r, w).

(** *** Containers in the heap *)

Definition alloc (o : HeapObj) : JS loc :=
  fun w =>
    let l := fresh (dom (heap w)) in
    (Ok l, with_heap (<[l := o]> (heap w)) w).

(** The methods of a [Map], on the address of the [Map]; an address
    that holds none is a [TypeError]. *)
Definition Map_entries (l : loc) : JS Entries :=
  fun w =>
    match heap w !! l with
    | Some (HMap es) => (Ok es, w)
    | _ => (Throw TypeError, w)
    end.

Definition Map_write (l : loc) (es : Entries) : JS unit :=
  Map_entries l ;;;
  fun w => (Ok tt, with_heap (<[l := HMap es]> (heap w)) w).

(** [new Map(iterable)] *)
Definition new_Map (pairs : list (string * JsValue)) : JS loc :=
  alloc (HMap (entries_of_iterable pairs)).

(** [m.set(key, value)] *)
Definition Map_set (l : loc) (key : string) (value : JsValue) : JS unit :=
  es <- Map_entries l ;; Map_write l (entries_set key value es).

(** [m.delete(key)] *)
Definition Map_delete (l : loc) (key : string) : JS bool :=
  es <- Map_entries l ;;
  Map_write l (entries_delete key es) ;;;
  ret (entries_has key es).

(** [m.has(key)] *)
Definition Map_has (l : loc) (key : string) : JS bool :=
  es <- Map_entries l ;; ret (entries_has key es).

(** [m.size] *)
Definition Map_size (l : loc) : JS nat :=
  es <- Map_entries l ;; ret (length es).

(** [m.values()] *)
Definition Map_values (l : loc) : JS (list JsValue) :=
  es <- Map_entries l ;; ret (es.*2).

(** [Array.from(iterable)] *)
Definition Array_from (items : list JsValue) : JS loc :=
  alloc (HArray items).

(** The elements of the array at [l]. *)
Definition Array_items (l : loc) : JS (list JsValue) :=
  fun w =>
    match heap w !! l with
    | Some (HArray items) => (Ok items, w)
    | _ => (Throw TypeError, w)
    end.

(** *** Property access and [localStorage] *)

(** [value.key] for the property names read below: reading a property of
    [null] is a [TypeError]; a plain object yields its own property;
    every other value has no property under these names and yields
    [undefined] ([None]). *)
Definition member (v : JsValue) (key : string) : JS (option JsValue) :=
  match v with
  | JsNull => throw TypeError
  | _ => ret (property key v)
  end.

(** [obj.key = value] *)
Definition assign (obj : JsValue) (key : string) (value : JsValue) : JS JsValue :=
  match obj with
  | JsObject props => ret (JsObject (Json.define_property key value props))
  | _ => throw TypeError
  end.

Definition localStorage_getItem (name : string) : JS (option string) :=
  fun w =>
    match localStorage w with
    | Some slots => (Ok (slots !! name), w)
    | None => (Throw SecurityError, w)
    end.

Definition localStorage_setItem (name text : string) : JS unit :=
  fun w =>
    match localStorage w with
    | Some slots => (Ok tt, with_localStorage (Some (<[name := text]> slots)) w)
    | None => (Throw SecurityError, w)
    end.

Definition localStorage_removeItem (name : string) : JS unit :=
  fun w =>
    match localStorage w with
    | Some slots => (Ok tt, with_localStorage (Some (delete name slots)) w)
    | None => (Throw SecurityError, w)
    end.

(** [localStorage.clear()] *)
Definition localStorage_clear : JS unit :=
  fun w =>
    match localStorage w with
    | Some _ => (Ok tt, with_localStorage (Some ∅) w)
    | None => (Throw SecurityError, w)
    end.

(** The names of the slots in the order [localStorage.key] numbers
    them.  The order is the user agent's; it is the order of the map's
    listing here. *)
Definition slot_names (slots : gmap string string) : list string :=
  (map_to_list slots).*1.

(** [localStorage.length] *)
Definition localStorage_length : JS nat :=
  fun w =>
    match localStorage w with
    | Some slots => (Ok (length (slot_names slots)), w)
    | None => (Throw SecurityError, w)
    end.

(** [localStorage.key(i)]; [None] is [null], past the last slot. *)
Definition localStorage_key (i : nat) : JS (option string) :=
  fun w =>
    match localStorage w with
    | Some slots => (Ok (slot_names slots !! i), w)
    | None => (Throw SecurityError, w)
    end.

(** [for (const x of xs) body(x)] *)
Fixpoint for_of {A} (xs : list A) (body : A -> JS unit) : JS unit :=
  match xs with
  | [] => ret tt
  | x :: rest => body x ;;; for_of rest body
  end.

(** [for (let i = from; i < from + count; i += 1) acc = body(i, acc)],
    with the value the loop builds up. *)
Fixpoint for_range {A} (from count : nat) (body : nat -> A -> JS A) (acc : A) : JS A :=
  match count with
  | O => ret acc
  | S count' => acc' <- body from acc ;; for_range (S from) count' body acc'
  end.

(** ** The storage service ([src/services/storage/local-storage.service.ts]) *)

Module LocalStorageService.

Record StorageNamespaceOptions : Type := mkOptions { prefix : option string }.

Definition isBrowser : JS bool :=
  fun w => (Ok (match window w with Some _ => true | None => false end), w).

(** [String.prototype.trim]: the white space and the line terminators
    of ECMAScript, each in the bytes of its UTF-8 text.  One byte: tab,
    line feed, vertical tab, form feed, carriage return, space.  Two
    bytes: the no-break space.  Three bytes: U+1680, U+2000 to U+200A,
    U+2028, U+2029, U+202F, U+205F, U+3000 and U+FEFF. *)
Definition is_space (c : ascii) : bool :=
  match c with
  | " "%char | "009"%char | "010"%char | "011"%char | "012"%char | "013"%char => true
  | _ => false
  end.

Definition is_space2 (c1 c2 : ascii) : bool :=
  Ascii.eqb c1 "194" && Ascii.eqb c2 "160".

Definition is_space3 (c1 c2 c3 : ascii) : bool :=
  let n := N_of_ascii c3 in
  (Ascii.eqb c1 "225" && Ascii.eqb c2 "154" && Ascii.eqb c3 "128")
  || (Ascii.eqb c1 "226" && Ascii.eqb c2 "128"
      && (((128 <=? n) && (n <=? 138)) || (n =? 168) || (n =? 169) || (n =? 175))%N)
  || (Ascii.eqb c1 "226" && Ascii.eqb c2 "129" && Ascii.eqb c3 "159")
  || (Ascii.eqb c1 "227" && Ascii.eqb c2 "128" && Ascii.eqb c3 "128")
  || (Ascii.eqb c1 "239" && Ascii.eqb c2 "187" && Ascii.eqb c3 "191").

(** The text without the white space at its head; with [back], the
    text is read from its end, and so are the bytes of a character. *)
Fixpoint strip (back : bool) (s : list ascii) : list ascii :=
  match s with
  | c1 :: r1 =>
      if is_space c1 then strip back r1
      else
        match r1 with
        | c2 :: r2 =>
            if (if back then is_space2 c2 c1 else is_space2 c1 c2) then strip back r2
            else
              match r2 with
              | c3 :: r3 =>
                  if (if back then is_space3 c3 c2 c1 else is_space3 c1 c2 c3)
                  then strip back r3
                  else s
              | [] => s
              end
        | [] => s
        end
  | [] => []
  end.

Definition trim (s : string) : string :=
  string_of_list_ascii
    (rev (strip true (rev (strip false (list_ascii_of_string s))))).

Definition buildKey (key : string) (options : option StorageNamespaceOptions) : string :=
  match options ≫= prefix with
  | Some p =>
      let p' := trim p in
      if String.eqb p' "" then key else p' +:+ ":" +:+ key
  | None => key
  end.

(** The [Storage] itself is the [localStorage] of the world; the result
    says whether a handle was obtained. *)
Definition getLocalStorage : JS bool :=
  browser <- isBrowser ;;
  if negb browser then ret false
  else
    try_catch
      (fun w => match localStorage w with
                | Some _ => (Ok true, w)
                | None => (Throw SecurityError, w)
                end)
      (fun _ => ret false).

Definition safeJsonParse (raw : string) : JS (option JsValue) :=
  try_catch (v <- lift (Json.JSON_parse raw) ;; ret (Some v)) (fun _ => ret None).

Definition get (key : string) (options : option StorageNamespaceOptions)
    : JS (option string) :=
  storage <- getLocalStorage ;;
  if negb storage then ret None
  else try_catch (localStorage_getItem (buildKey key options)) (fun _ => ret None).

Definition getJson (key : string) (options : option StorageNamespaceOptions)
    : JS (option JsValue) :=
  raw <- get key options ;;
  match raw with
  | None => ret None
  | Some raw => safeJsonParse raw
  end.

(** [isAvailable()] *)
Definition isAvailable : JS bool := getLocalStorage.

Definition set (key value : string) (options : option StorageNamespaceOptions)
    : JS bool :=
  storage <- getLocalStorage ;;
  if negb storage then ret false
  else
    try_catch
      (localStorage_setItem (buildKey key options) value ;;; ret true)
      (fun _ => ret false).

Definition remove (key : string) (options : option StorageNamespaceOptions) : JS bool :=
  storage <- getLocalStorage ;;
  if negb storage then ret false
  else
    try_catch
      (localStorage_removeItem (buildKey key options) ;;; ret true)
      (fun _ => ret false).

(** [k && k.startsWith(`${prefix}:`)] *)
Definition in_namespace (p : string) (k : option string) : bool :=
  match k with
  | Some k => negb (String.eqb k "") && String.prefix (p +:+ ":") k
  | None => false
  end.

(** The first loop reads [storage.length] at every turn; nothing is
    written while it runs, so the bound is the length read first. *)
Definition clear (options : option StorageNamespaceOptions) : JS bool :=
  storage <- getLocalStorage ;;
  if negb storage then ret false
  else
    let p := trim <$> (options ≫= prefix) in
    try_catch
      (match p with
       | None | Some "" => localStorage_clear ;;; ret true
       | Some p =>
           len <- localStorage_length ;;
           keysToRemove <-
             for_range 0 len
               (fun i acc =>
                  k <- localStorage_key i ;;
                  ret (if in_namespace p k then (acc ++ option_list k)%list else acc))
               [] ;;
           for_of keysToRemove localStorage_removeItem ;;;
           ret true
       end)
      (fun _ => ret false).

Definition setJson (key : string) (value : JsValue)
    (options : option StorageNamespaceOptions) : JS bool :=
  set key (Json.JSON_stringify value) options.

Definition has (key : string) (options : option StorageNamespaceOptions) : JS bool :=
  raw <- get key options ;;
  ret (match raw with Some _ => true | None => false end).

End LocalStorageService.

(** ** The favorites store ([src/stores/useFavoritesStore.ts]) *)

Module FavoritesStore.

(** *** The operations of a [Map] on what the favorites field holds *)

(** [new Map(favorites)]: a new [Map] filled from the entries of a
    [Map]; [null] and the empty string give an empty [Map]; [false] and
    [0] are not iterable. *)
Definition new_Map_from (m : Favorites) : JS loc :=
  match m with
  | FavoritesMap l => es <- Map_entries l ;; new_Map es
  | FavoritesLeft FalsyNull | FavoritesLeft FalsyEmpty => new_Map []
  | FavoritesLeft _ => throw TypeError
  end.

(** [favorites.has(id)]: nothing but a [Map] has the method. *)
Definition favorites_has (m : Favorites) (productId : string) : JS bool :=
  match m with
  | FavoritesMap l => Map_has l productId
  | FavoritesLeft _ => throw TypeError
  end.

(** [favorites.size]: reading a property of [null] throws; [false], [0]
    and the empty string have no such property and give [undefined],
    which is [None]. *)
Definition favorites_size (m : Favorites) : JS (option nat) :=
  match m with
  | FavoritesMap l => n <- Map_size l ;; ret (Some n)
  | FavoritesLeft FalsyNull => throw TypeError
  | FavoritesLeft _ => ret None
  end.

(** [favorites.values()] *)
Definition favorites_values (m : Favorites) : JS (list JsValue) :=
  match m with
  | FavoritesMap l => Map_values l
  | FavoritesLeft _ => throw TypeError
  end.

(** [Object.fromEntries(favorites)]: the record of the entries of a
    [Map]; the empty string is iterable and has nothing to give; [null],
    [false] and [0] are not iterable. *)
Definition favorites_fromEntries (m : Favorites) : JS JsValue :=
  match m with
  | FavoritesMap l => es <- Map_entries l ;; ret (Json.Object_fromEntries es)
  | FavoritesLeft FalsyEmpty => ret (JsObject [])
  | FavoritesLeft _ => throw TypeError
  end.

(** *** The storage handed to [persist] *)

(** The options of [persist]. *)
Definition name : string := "pazaryeri-favorites".

(** What [persist] hands to [storage.setItem]: [{ state, version }].
    The functions of the state are fields of it as well; [JSON.stringify]
    leaves a function-valued property out, so they never reach the
    text. *)
Record StorageValue : Type := mkStorageValue {
  sv_state : FavoritesState;
  sv_version : option Z
}.

(** [storage.getItem]; the result [JsNull] is [null]. *)
Definition getItem (name : string) : JS JsValue :=
  str <- localStorage_getItem name ;;
  match str with
  | None | Some "" => ret JsNull
  | Some str =>
      parsed <- lift (Json.JSON_parse str) ;;
      state <- member parsed "state" ;;
      let stored :=
        match state with
        | None | Some JsNull => None
        | Some st => property "favorites" st
        end in
      match state, stored with
      | Some st, Some fav =>
          if Json.truthy fav then
            newFavorites <- new_Map (Json.Object_entries fav) ;;
            st' <- assign st "favorites" (JsMap newFavorites) ;;
            assign parsed "state" st'
          else ret parsed
      | _, _ => ret parsed
      end
  end.

(** [storage.setItem] *)
Definition setItem (name : string) (value : StorageValue) : JS unit :=
  record <- favorites_fromEntries (favorites (sv_state value)) ;;
  let toStore :=
    JsObject ([("state", JsObject [("favorites", record)])]
              ++ optional "version" ((fun n : Z => JsNumber n) <$> sv_version value)) in
  localStorage_setItem name (Json.JSON_stringify toStore).

(** [storage.removeItem] *)
Definition removeItem (name : string) : JS unit :=
  localStorage_removeItem name.

(** The version [persist] stamps on what it saves; the store sets
    none, which is 0. *)
Definition version : Z := 0.

(** *** The store *)

(** zustand's [get()] and its own [set]: the change of the state in
    memory. *)
Definition get : JS FavoritesState := fun w => (Ok (favoritesStore w), w).

Definition setState (next : FavoritesState) : JS unit :=
  fun w => (Ok tt, with_favoritesStore next w).

(** The write [persist] makes after every [set]:
    [storage.setItem(name, { state: get(), version })].  Nothing guards
    it: what [setItem] throws reaches the caller of the action, the
    change in memory made. *)
Definition persist_setItem : JS unit :=
  state <- get ;; setItem name (mkStorageValue state (Some version)).

(** The [set(updater)] the actions are given: the change in memory, and
    the write after it. *)
Definition set (updater : FavoritesState -> JS FavoritesState) : JS unit :=
  state <- get ;;
  next <- updater state ;;
  setState next ;;;
  persist_setItem.

Definition addFavorite (product : Product) : JS unit :=
  set (fun state =>
    newFavorites <- new_Map_from (favorites state) ;;
    Map_set newFavorites (id product) (Product_value product) ;;;
    ret (mkFavoritesState (FavoritesMap newFavorites))).

Definition removeFavorite (productId : string) : JS unit :=
  set (fun state =>
    newFavorites <- new_Map_from (favorites state) ;;
    Map_delete newFavorites productId ;;;
    ret (mkFavoritesState (FavoritesMap newFavorites))).

Definition isFavorite (productId : string) : JS bool :=
  state <- get ;; favorites_has (favorites state) productId.

Definition clearFavorites : JS unit :=
  newFavorites <- new_Map [] ;;
  set (fun _ => ret (mkFavoritesState (FavoritesMap newFavorites))).

Definition getFavoritesArray : JS loc :=
  state <- get ;;
  values <- favorites_values (favorites state) ;;
  Array_from values.

(** [None] is [undefined], what [.size] gives on a value that is not a
    [Map]. *)
Definition getFavoritesCount : JS (option nat) :=
  state <- get ;; favorites_size (favorites state).

(** *** The hydration *)

(** What [state.favorites] of the value [getItem] returns leaves in the
    field.  [getItem] has made a [Map] of every truthy value, so the
    last case is not met. *)
Definition held (fav : JsValue) : option Favorites :=
  match fav with
  | JsMap l => Some (FavoritesMap l)
  | JsNull => Some (FavoritesLeft FalsyNull)
  | JsBool false => Some (FavoritesLeft FalsyFalse)
  | JsNumber n => if Json.is_zero n then Some (FavoritesLeft FalsyZero) else None
  | JsString "" => Some (FavoritesLeft FalsyEmpty)
  | _ => None
  end.

(** The hydration step of the [persist] middleware for this store: it
    asks [storage.getItem] for the slot; a value it gets back gives its
    [state], unless it carries a [version] number other than the
    store's (and the store has no [migrate]); the fields of that state
    are laid over the store's.  Whatever is thrown on the way is caught
    and leaves the store as it was.  Whether the middleware writes the
    state back to the slot afterwards differs between its versions; the
    write changes nothing in memory and is left out. *)
Definition hydrate : JS unit :=
  try_catch
    (deserialized <- getItem name ;;
     persisted <-
       (if Json.truthy deserialized then
          v <- member deserialized "version" ;;
          match v with
          | Some (JsNumber n) =>
              if Json.number_eqb n version then member deserialized "state" else ret None
          | _ => member deserialized "state"
          end
        else ret None) ;;
     match (persisted ≫= property "favorites") ≫= held with
     | Some fav => setState (mkFavoritesState fav)
     | None => ret tt
     end)
    (fun _ => ret tt).

(** The selector hooks: what each yields for the state as it stands. *)
Definition useFavoritesCount : JS (option nat) :=
  state <- get ;; favorites_size (favorites state).

Definition useIsFavorite (productId : string) : JS bool :=
  state <- get ;; favorites_has (favorites state) productId.

End FavoritesStore.

(** The page as it starts: both stores in their initial state, the
    favorites an empty [Map]. *)
Definition initial_world (ls : option (gmap string string)) (win : option Window)
    (doc : option Document) : World :=
  mkWorld {[ 1%positive := HMap [] ]} ls win doc
          (mkFavoritesState (FavoritesMap 1%positive)) (mkThemeState system).

(** ** The theme store ([src/stores/useThemeStore.ts]) *)

(** What [persist] keeps in the theme slot for a preference:
    [{ state: { theme }, version: 0 }]. *)
Definition Theme_name (t : Theme) : string :=
  match t with
  | light => "light"
  | dark => "dark"
  | system => "system"
  end.

Definition theme_record (t : Theme) : JsValue :=
  JsObject [("state", JsObject [("theme", JsString (Theme_name t))]);
            ("version", JsNumber 0)].

Module ThemeStore.

Definition Theme_eqb (a b : Theme) : bool :=
  match a, b with
  | light, light | dark, dark | system, system => true
  | _, _ => false
  end.

(** The options of [persist]. *)
Definition name : string := "pazaryeri-theme".

(** zustand's [get()] and its own [set]: the change of the state in
    memory. *)
Definition get : JS ThemeState := fun w => (Ok (themeStore w), w).

Definition setState (next : ThemeState) : JS unit :=
  fun w => (Ok tt, with_themeStore next w).

(** The write [persist] makes after every [set].  The store names no
    storage of its own and gets [createJSONStorage(() => localStorage)]:
    the text of [{ state, version }] goes into the slot, and where
    [localStorage] cannot be reached there is no storage and nothing is
    written.  (The middleware asks for the storage once, when the store
    is made; a world does not change in whether it has one.) *)
Definition persist_setItem : JS unit :=
  state <- get ;;
  fun w =>
    match localStorage w with
    | Some _ =>
        localStorage_setItem name (Json.JSON_stringify (theme_record (theme state))) w
    | None => (Ok tt, w)
    end.

(** The [set(partial)] the actions are given: the change in memory, and
    the write after it. *)
Definition set (next : ThemeState) : JS unit :=
  setState next ;;; persist_setItem.

Definition typeof_window_undefined : JS bool :=
  fun w => (Ok (match window w with Some _ => false | None => true end), w).

Definition typeof_document_undefined : JS bool :=
  fun w => (Ok (match document w with Some _ => false | None => true end), w).

(** [window.matchMedia(query).matches]; where no [window] is declared
    the name is a [ReferenceError]. *)
Definition window_matchMedia_matches (query : string) : JS bool :=
  fun w =>
    match window w with
    | Some win => (Ok (matches (matchMedia win query)), w)
    | None => (Throw ReferenceError, w)
    end.

(** [document.documentElement.classList.add(token)] and [.remove(token)];
    where no [document] is declared the name is a [ReferenceError]. *)
Definition classList_add (token : string) : JS unit :=
  fun w =>
    match document w with
    | Some d => (Ok tt, with_document (Some (mkDocument ({[token]} ∪ classList d))) w)
    | None => (Throw ReferenceError, w)
    end.

Definition classList_remove (token : string) : JS unit :=
  fun w =>
    match document w with
    | Some d => (Ok tt, with_document (Some (mkDocument (classList d ∖ {[token]}))) w)
    | None => (Throw ReferenceError, w)
    end.

Definition getSystemTheme : JS Theme :=
  no_window <- typeof_window_undefined ;;
  if no_window then ret light
  else
    is_dark <- window_matchMedia_matches "(prefers-color-scheme: dark)" ;;
    ret (if is_dark then dark else light).

Definition applyThemeToDocument (theme : Theme) : JS unit :=
  no_document <- typeof_document_undefined ;;
  if no_document then ret tt
  else
    effectiveTheme <- (if Theme_eqb theme system then getSystemTheme else ret theme) ;;
    if Theme_eqb effectiveTheme dark then classList_add "dark"
    else classList_remove "dark".

Definition setTheme (theme : Theme) : JS unit :=
  set (mkThemeState theme) ;;;
  applyThemeToDocument theme.

Definition getEffectiveTheme : JS Theme :=
  state <- get ;;
  if Theme_eqb (theme state) system then getSystemTheme else ret (theme state).

Definition toggleTheme : JS unit :=
  effectiveTheme <- getEffectiveTheme ;;
  let newTheme := if Theme_eqb effectiveTheme dark then light else dark in
  set (mkThemeState newTheme) ;;;
  applyThemeToDocument newTheme.

Definition initializeTheme : JS unit :=
  state <- get ;; applyThemeToDocument (theme state).

(** The callback [onRehydrateStorage] returns; [None] is a rehydration
    that handed over no state. *)
Definition onRehydrateStorage (state : option ThemeState) : JS unit :=
  match state with
  | Some state => applyThemeToDocument (theme state)
  | None => ret tt
  end.

End ThemeStore.

(** ** The favorite button ([src/components/molecules/ProductCard/ProductCard.tsx],
    and the same handler in the product detail page) *)

Module ProductCard.

(** [isFavorite] is what [useIsFavorite(product.id)] gave at the last
    render, the store's answer as it stands. *)
Definition handleFavoriteClick (product : Product) : JS unit :=
  isFavorite <- FavoritesStore.useIsFavorite (id product) ;;
  if isFavorite then FavoritesStore.removeFavorite (id product)
  else FavoritesStore.addFavorite product.

End ProductCard.

(** ** The theme provider ([src/components/providers/ThemeProvider.tsx]) *)

Module ThemeProvider.

(** The effect that applies the theme when the preference changes;
    [mounted] is what [useIsMounted()] gave at the render, and the
    effect does nothing before the component is mounted. *)
Definition applyEffect (mounted : bool) : JS unit :=
  if negb mounted then ret tt
  else
    effectiveTheme <- ThemeStore.getEffectiveTheme ;;
    if ThemeStore.Theme_eqb effectiveTheme dark then ThemeStore.classList_add "dark"
    else ThemeStore.classList_remove "dark".

(** The effect of the first application, which does not ask whether
    the component is mounted. *)
Definition initialEffect : JS unit :=
  effectiveTheme <- ThemeStore.getEffectiveTheme ;;
  if ThemeStore.Theme_eqb effectiveTheme dark then ThemeStore.classList_add "dark"
  else ThemeStore.classList_remove "dark".

(** The listener for a change of the platform's color scheme,
    [e.matches] its argument.  The effect registers it while the
    component is mounted and the preference is [system]. *)
Definition handleChange (e_matches : bool) : JS unit :=
  if e_matches then ThemeStore.classList_add "dark"
  else ThemeStore.classList_remove "dark".

End ThemeProvider.

(** ** The script of the root layout ([src/app/[locale]/layout.tsx]) *)

Module Layout.

(** [v === s] for a string [s] *)
Definition is_string (s : string) (v : option JsValue) : bool :=
  match v with
  | Some (JsString t) => String.eqb t s
  | _ => false
  end.

(** The inline script that sets the class before the first paint. *)
Definition themeScript : JS unit :=
  try_catch
    (stored <- localStorage_getItem "pazaryeri-theme" ;;
     theme <-
       match stored with
       | None | Some "" => ret (Some (JsString "system"))
       | Some text =>
           parsed <- lift (Json.JSON_parse text) ;;
           state <- member parsed "state" ;;
           match state with
           | Some st => member st "theme"
           | None => throw TypeError
           end
       end ;;
     isDark <-
       (if is_string "dark" theme then ret true
        else if is_string "system" theme
             then ThemeStore.window_matchMedia_matches "(prefers-color-scheme: dark)"
             else ret false) ;;
     if isDark then ThemeStore.classList_add "dark" else ret tt)
    (fun _ => ret tt).

End Layout.


(** ** Vocabulary of the statements *)

(** The result and the final world of a run. *)
Definition eval {A} (m : JS A) (w : World) : Result A := (m w).1.
Definition exec {A} (m : JS A) (w : World) : World := (m w).2.

(** The favorites field refers to a [Map] of the heap with the entries
    [es], each key once. *)
Definition favorites_at (w : World) (l : loc) (es : Entries) : Prop :=
  favorites (favoritesStore w) = FavoritesMap l /\
  heap w !! l = Some (HMap es) /\
  NoDup es.*1.

Definition store_ok (w : World) : Prop := exists l es, favorites_at w l es.

(** The world after a mutation that leaves the store with the entries
    [es']: a new [Map] holds them at a fresh address and the favorites
    field refers to it. *)
Definition replaced (w : World) (es' : Entries) : World :=
  let l' := fresh (dom (heap w)) in
  with_favoritesStore (mkFavoritesState (FavoritesMap l'))
    (with_heap (<[l' := HMap es']> (heap w)) w).

(** The entries of the [Map] the favorites field refers to. *)
Definition favorites_entries (w : World) : Result Entries :=
  match favorites (favoritesStore w) with
  | FavoritesMap l => eval (Map_entries l) w
  | FavoritesLeft _ => Throw TypeError
  end.

(** [toArray()]: the elements of the array [getFavoritesArray] returns. *)
Definition toArray : JS (list JsValue) :=
  (arr <- FavoritesStore.getFavoritesArray ;; Array_items arr)%js.

(** The mutating operations of the favorites store. *)
Inductive Mutation : Type :=
| Add (product : Product)
| Remove (productId : string)
| Clear.

Definition mutate (m : Mutation) : JS unit :=
  match m with
  | Add product => FavoritesStore.addFavorite product
  | Remove productId => FavoritesStore.removeFavorite productId
  | Clear => FavoritesStore.clearFavorites
  end.

Fixpoint mutate_all (ms : list Mutation) : JS unit :=
  match ms with
  | [] => ret tt
  | m :: rest => (mutate m ;;; mutate_all rest)%js
  end.

(** Every entry is filed under the id of the product it holds. *)
Definition keyed_by_id (es : Entries) : Prop :=
  Forall (fun kv => property "id" kv.2 = Some (JsString kv.1)) es.

(** A product to run the statements on. *)
Definition sample_product (pid : string) (cost : Z) : Product :=
  mkProduct pid "phone" "Phone" "A phone" cost None "TRY"
    [mkProductImage "i1" "/phone.png" "front" 300%Z 300%Z]
    (mkCategory "c1" "phones" "Phones" None None None 12%Z)
    "Acme" 4%Z 17%Z true [mkProductAttribute "color" "black"]
    "2024-01-01T00:00:00.000Z" "2024-01-02T00:00:00.000Z".

Definition empty_page : World := initial_world (Some ∅) None None.


(** The other concrete theme. *)
Definition opposite (t : Theme) : Theme :=
  match t with
  | dark => light
  | _ => dark
  end.

(** What the platform says of the color scheme, where there is a
    [window] to ask. *)
Definition prefers (win : Window) : Theme :=
  if matches (matchMedia win "(prefers-color-scheme: dark)") then dark else light.

(** The favorites store after [add] of the sample product. *)
Definition phone : Product := sample_product "p1" 100.
Definition page_with_phone : World := exec (FavoritesStore.addFavorite phone) empty_page.


(** The values [JSON.stringify] writes in full and [JSON.parse] gives
    back: no [Map] inside, and the keys of every object each once and in
    the order the object enumerates them. *)
Definition may_follow (k k' : string) : bool :=
  negb (String.eqb k k') && negb (Json.comes_before k' k).

Fixpoint keys_ordered (ks : list string) : bool :=
  match ks with
  | [] => true
  | k :: rest => forallb (may_follow k) rest && keys_ordered rest
  end.

(** The numbers whose text is read back as the same number: the
    digits as [Number::toString] has them, the first and the last not
    [0]; zero without a sign; none so small that a double holds zero
    for it. *)
Definition canonical_number (x : Number) : bool :=
  match significand x with
  | [] => negb (negative x) && (point x =? 0)%Z
  | d :: ds =>
      forallb Json.is_digit (d :: ds)
      && negb (Ascii.eqb d "0") && negb (Ascii.eqb (List.last ds d) "0")
      && (-306 <=? point x)%Z
  end.

Fixpoint is_json (v : JsValue) : bool :=
  match v with
  | JsNumber n => canonical_number n
  | JsArray items => forallb is_json items
  | JsObject props => keys_ordered props.*1 && forallb (fun kv => is_json kv.2) props
  | JsMap _ => false
  | _ => true
  end.

(** The characters a value's text can start with. *)
Definition value_start (c : ascii) : bool :=
  match c with
  | "n" | "t" | "f" | "034" | "[" | "{" | "-" => true
  | _ => match Json.digit c with Some _ => true | None => false end
  end%char.

(** What may stand right after a value inside a text: nothing, or a
    comma, or a closing bracket. *)
Definition follows (rest : list ascii) : Prop :=
  match rest with
  | [] => True
  | c :: _ => c = ","%char \/ c = "]"%char \/ c = "}"%char
  end.


(** The text of [v] is read back as [v], whatever follows it. *)
Definition reads_back (v : JsValue) : Prop :=
  forall fuel rest,
    2 * length (Json.print v ++ rest) <= fuel -> follows rest ->
    Json.parse_value fuel (Json.print v ++ rest) = Json.Parsed v rest.

(** The properties of the plain record [Object.fromEntries] makes of
    the pairs. *)
Definition enumerated (pairs : list (string * JsValue)) : list (string * JsValue) :=
  fold_left (fun props kv => Json.define_property kv.1 kv.2 props) pairs [].

(** The record [setItem] writes for the entries [es] of the favorites,
    and its text. *)
Definition stored_record (es : Entries) (ver : option Z) : JsValue :=
  JsObject ([("state", JsObject [("favorites", JsObject (enumerated es))])]
            ++ optional "version" ((fun n : Z => JsNumber n) <$> ver)).

Definition stored_text (es : Entries) (ver : option Z) : string :=
  Json.JSON_stringify (stored_record es ver).

(** What [persist] hands to [setItem] for the store as it stands. *)
Definition current_value (w : World) : FavoritesStore.StorageValue :=
  FavoritesStore.mkStorageValue (favoritesStore w) (Some FavoritesStore.version).

(** Saving the store as it stands. *)
Definition save : JS unit :=
  fun w => FavoritesStore.setItem FavoritesStore.name (current_value w) w.

(** The page loaded again: the heap and both stores start afresh, the
    storage keeps its slots. *)
Definition reload (w : World) : World :=
  initial_world (localStorage w) (window w) (document w).

(** Two products whose ids are array indices, added in the order "2",
    "1", and the store saved. *)
Definition page_with_indices : World :=
  exec save (exec (FavoritesStore.addFavorite (sample_product "1" 20))
              (exec (FavoritesStore.addFavorite (sample_product "2" 10)) empty_page)).

(** The keys of the favorites, in the order of the [Map]. *)
Definition favorites_keys (w : World) : Result (list string) :=
  match favorites_entries w with
  | Ok es => Ok es.*1
  | Throw e => Throw e
  end.


(** The favorites store after [add] of two products, "p1" and "p2". *)
Definition page_with_two : World :=
  exec (FavoritesStore.addFavorite (sample_product "p2" 200))
    (exec (FavoritesStore.addFavorite (sample_product "p1" 100)) empty_page).

Definition two_entries : Entries :=
  [("p1", Product_value (sample_product "p1" 100));
   ("p2", Product_value (sample_product "p2" 200))].


(** Every entry holds a plain value. *)
Definition plain_entries (es : Entries) : Prop :=
  Forall (fun kv => is_json kv.2 = true) es.


(** A saved favorites slot cut short after its first 40 characters, a
    page whose favorites slot holds that text, and a page whose storage
    is unavailable. *)
Definition truncated_text : string :=
  substring 0 40 (stored_text two_entries (Some FavoritesStore.version)).

Definition corrupt_page : World :=
  initial_world (Some {[ FavoritesStore.name := truncated_text ]}) None None.

Definition blocked_page : World := initial_world None None None.


(** The key a mutation works on; [Clear] has none. *)
Definition mutation_key (m : Mutation) : option string :=
  match m with
  | Add product => Some (id product)
  | Remove productId => Some productId
  | Clear => None
  end.

(** The entry the store holds under an id. *)
Definition favorite_snapshot (productId : string) (w : World) : Result (option JsValue) :=
  match favorites_entries w with
  | Ok es => Ok (entries_get productId es)
  | Throw e => Throw e
  end.

(** What a preference resolves to in a world. *)
Definition resolved (w : World) (t : Theme) : Theme :=
  match t with
  | system => match window w with Some win => prefers win | None => light end
  | t => t
  end.

(** The document, where there is one, carries the class [dark] exactly
    when the effective theme is [dark]. *)
Definition document_follows_theme (w : World) : Prop :=
  forall doc, document w = Some doc ->
    ("dark" ∈ classList doc <-> resolved w (theme (themeStore w)) = dark).

(** A page in a browser: a window whose color scheme is dark or not, a
    document with the given classes, an empty storage. *)
Definition scheme (prefers_dark : bool) : Window :=
  mkWindow (fun _ => mkMediaQueryList prefers_dark).

Definition browser_page (prefers_dark : bool) (classes : gset string) : World :=
  initial_world (Some ∅) (Some (scheme prefers_dark)) (Some (mkDocument classes)).

Definition with_window (win : option Window) (w : World) : World :=
  mkWorld (heap w) (localStorage w) win (document w) (favoritesStore w) (themeStore w).

(** The record of a favorites slot around a value held as
    [state.favorites]. *)
Definition envelope (fav : JsValue) (ver : option Z) : JsValue :=
  JsObject ([("state", JsObject [("favorites", fav)])]
            ++ optional "version" ((fun n : Z => JsNumber n) <$> ver)).


(** A page whose favorites slot holds a list where the record of the
    favorites belongs. *)
Definition array_slot : gmap string string :=
  {[ FavoritesStore.name :=
       Json.JSON_stringify (envelope (JsArray [JsNumber 7; JsNumber 8]) None) ]}.

Definition page_with_array_slot : World := initial_world (Some array_slot) None None.


(** A page whose favorites slot holds the JSON text [null]. *)
Definition page_with_null_slot : World :=
  initial_world (Some {[ FavoritesStore.name := "null" ]}) None None.


(** A page in a browser whose theme slot holds the given text. *)
Definition page_with_theme_slot (text : string) (prefers_dark : bool)
    (classes : gset string) : World :=
  initial_world (Some {[ "pazaryeri-theme" := text ]})
    (Some (scheme prefers_dark)) (Some (mkDocument classes)).


(** The write [persist] makes after a change, for a store that holds
    the entries [es]: where there is a storage the favorites slot takes
    the text of the state; where there is none the write throws and
    nothing changes. *)
Definition written (es : Entries) (w : World) : World :=
  with_localStorage
    (<[FavoritesStore.name := stored_text es (Some FavoritesStore.version)]>
       <$> localStorage w) w.

Definition write_outcome (w : World) : Result unit :=
  match localStorage w with
  | Some _ => Ok tt
  | None => Throw SecurityError
  end.


(** The entries a mutation leaves of the entries [es]. *)
Definition after (m : Mutation) (es : Entries) : Entries :=
  match m with
  | Add product => entries_set (id product) (Product_value product) es
  | Remove productId => entries_delete productId es
  | Clear => []
  end.


(** The write [persist] makes after a change of the preference to [t]:
    where there is a storage the theme slot takes the text of the
    state. *)
Definition theme_written (t : Theme) (w : World) : World :=
  with_localStorage
    (<[ThemeStore.name := Json.JSON_stringify (theme_record t)]> <$> localStorage w) w.


(** What may stand right after a number: no digit, no point, no
    exponent. *)
Definition ends_number (rest : list ascii) : Prop :=
  match rest with
  | c :: _ =>
      Json.is_digit c = false /\ c <> "."%char /\ c <> "e"%char /\ c <> "E"%char
  | [] => True
  end.


(** Whether an id is an array index, and the index it is. *)
Definition is_index (k : string) : bool :=
  match Json.array_index k with
  | Some _ => true
  | None => false
  end.

Definition index_of (k : string) : N := default 0%N (Json.array_index k).

(** The number a text denotes, for writing one down. *)
Definition number (text : string) : Number :=
  match Json.read_number (list_ascii_of_string text) with
  | Json.Parsed (JsNumber x) _ => x
  | _ => 0%Z
  end.

(** A product as the catalogue has them, its price and its rating with
    a fraction; a page whose store holds it and a product filed under
    an array index, each change saved by [persist]. *)
Definition headphones : Product :=
  mkProduct "p7" "kulaklik" "Headphones" "Wireless headphones" (number "299.99")
    (Some (number "349.5")) "TRY"
    [mkProductImage "i7" "/headphones.png" "side" 640%Z 480%Z]
    (mkCategory "c2" "audio" "Audio" (Some "Sound") None None 8%Z)
    "Acme" (number "4.8") 1250%Z true [mkProductAttribute "color" "white"]
    "2024-03-01T00:00:00.000Z" "2024-03-02T00:00:00.000Z".

Definition page_with_headphones : World :=
  exec (FavoritesStore.addFavorite (sample_product "10" 25))
    (exec (FavoritesStore.addFavorite headphones) empty_page).

Definition headphones_entries : Entries :=
  [("p7", Product_value headphones);
   ("10", Product_value (sample_product "10" 25))].

(** The world after the calls [ms], made one after another: a call
    whose write throws has made its change, and the next call is made
    all the same, as by a handler of its own. *)
Definition call_all (ms : list Mutation) (w : World) : World :=
  foldl (fun w m => exec (mutate m) w) w ms.

(** The numbers a product carries, and the products all of whose
    numbers are read back as they are written. *)
Definition product_numbers (p : Product) : list Number :=
  price p :: option_list (originalPrice p)
  ++ [rating p; reviewCount p; productCount (category p)]
  ++ flat_map (fun i => [width i; height i]) (images p).

Definition plain_product (p : Product) : bool :=
  forallb canonical_number (product_numbers p).

Definition plain_mutation (m : Mutation) : bool :=
  match m with
  | Add product => plain_product product
  | _ => true
  end.

(** The falsy values of JSON, and a page whose favorites slot holds the
    record [persist] writes with one of them under [state.favorites]. *)
Definition falsy_value (v : Falsy) : JsValue :=
  match v with
  | FalsyNull => JsNull
  | FalsyFalse => JsBool false
  | FalsyZero => JsNumber 0
  | FalsyEmpty => JsString ""
  end.

Definition page_with_falsy_slot (v : Falsy) : World :=
  initial_world
    (Some {[ FavoritesStore.name :=
               Json.JSON_stringify (envelope (falsy_value v) (Some FavoritesStore.version)) ]})
    None None.

(** * Properties *)

Local Open Scope list_scope.

(** ** [Map] on the entry list *)

Section Entries.

Implicit Types (k key : string) (v : JsValue) (es : Entries).

Lemma entries_has_elem_of key es : entries_has key es = true <-> key ∈ es.*1.
Proof.
  induction es as [|[k v] es IH]; simpl.
  - split; [discriminate | intros H; inversion H].
  - destruct (String.eqb_spec k key) as [->|Hne].
    + split; [intros _; left | done].
    + rewrite IH. split; [by right | ].
      intros H. apply elem_of_cons in H as [H|H]; [congruence | done].
Qed.

Lemma entries_has_false key es : entries_has key es = false <-> key ∉ es.*1.
Proof.
  rewrite <- entries_has_elem_of. destruct (entries_has key es); naive_solver.
Qed.

Lemma entries_has_set key v es : entries_has key (entries_set key v es) = true.
Proof.
  induction es as [|[k x] es IH]; simpl.
  - by rewrite String.eqb_refl.
  - destruct (String.eqb_spec k key) as [->|Hne]; simpl.
    + by rewrite String.eqb_refl.
    + by destruct (String.eqb_spec k key).
Qed.

Lemma entries_get_set key v es : entries_get key (entries_set key v es) = Some v.
Proof.
  induction es as [|[k x] es IH]; simpl.
  - by rewrite String.eqb_refl.
  - destruct (String.eqb_spec k key) as [->|Hne]; simpl.
    + by rewrite String.eqb_refl.
    + by destruct (String.eqb_spec k key).
Qed.

Lemma entries_set_keys key v es :
  (entries_set key v es).*1 = if entries_has key es then es.*1 else es.*1 ++ [key].
Proof.
  induction es as [|[k x] es IH]; csimpl; [done|].
  destruct (String.eqb_spec k key) as [->|Hne]; csimpl; [done|].
  rewrite IH. by destruct (entries_has key es).
Qed.

Lemma entries_set_length key v es :
  length (entries_set key v es) =
  if entries_has key es then length es else S (length es).
Proof.
  induction es as [|[k x] es IH]; simpl; [done|].
  destruct (String.eqb_spec k key) as [->|Hne]; simpl; [done|].
  rewrite IH. by destruct (entries_has key es).
Qed.

Lemma entries_set_absent key v es :
  entries_has key es = false -> entries_set key v es = es ++ [(key, v)].
Proof.
  induction es as [|[k x] es IH]; simpl; [done|].
  destruct (String.eqb_spec k key) as [->|Hne]; [done|].
  intros H. by rewrite IH.
Qed.

Lemma entries_set_NoDup key v es : NoDup es.*1 -> NoDup (entries_set key v es).*1.
Proof.
  intros Hnd. rewrite entries_set_keys.
  destruct (entries_has key es) eqn:Hhas; [done|].
  apply entries_has_false in Hhas.
  apply NoDup_app. split_and!; [done| |apply NoDup_singleton].
  intros x Hx Hx'. apply list_elem_of_singleton in Hx'. by subst.
Qed.

Lemma entries_delete_absent key es :
  entries_has key es = false -> entries_delete key es = es.
Proof.
  induction es as [|[k x] es IH]; simpl; [done|].
  destruct (String.eqb_spec k key) as [->|Hne]; [done|].
  intros H. by rewrite IH.
Qed.

Lemma entries_delete_length key es :
  entries_has key es = true -> S (length (entries_delete key es)) = length es.
Proof.
  induction es as [|[k x] es IH]; simpl; [done|].
  destruct (String.eqb_spec k key) as [->|Hne]; [done|].
  intros H. simpl. by rewrite IH.
Qed.

Lemma entries_delete_keys_subseteq key es :
  (entries_delete key es).*1 ⊆ es.*1.
Proof.
  induction es as [|[k x] es IH]; csimpl; [done|].
  destruct (String.eqb_spec k key) as [->|Hne]; csimpl.
  - by apply list_subseteq_cons.
  - intros y Hy. apply elem_of_cons in Hy as [->|Hy]; [left | right; by apply IH].
Qed.

Lemma entries_delete_NoDup key es : NoDup es.*1 -> NoDup (entries_delete key es).*1.
Proof.
  induction es as [|[k x] es IH]; csimpl; [done|].
  intros [Hk Hnd]%NoDup_cons.
  destruct (String.eqb_spec k key) as [->|Hne]; csimpl; [done|].
  apply NoDup_cons. split; [|by apply IH].
  intros H. by apply Hk, (entries_delete_keys_subseteq key).
Qed.

Lemma entries_has_delete key es :
  NoDup es.*1 -> entries_has key (entries_delete key es) = false.
Proof.
  induction es as [|[k x] es IH]; csimpl; [done|].
  intros [Hk Hnd]%NoDup_cons.
  destruct (String.eqb_spec k key) as [->|Hne]; csimpl.
  - by apply entries_has_false.
  - destruct (String.eqb_spec k key); [done|]. by apply IH.
Qed.

Lemma entries_delete_set key v es :
  entries_has key es = false -> entries_delete key (entries_set key v es) = es.
Proof.
  induction es as [|[k x] es IH]; simpl.
  - by rewrite String.eqb_refl.
  - destruct (String.eqb_spec k key) as [->|Hne]; [done|].
    intros H. simpl. destruct (String.eqb_spec k key); [done|]. by rewrite IH.
Qed.

Lemma entries_of_iterable_snoc pairs k v :
  entries_of_iterable (pairs ++ [(k, v)]) = entries_set k v (entries_of_iterable pairs).
Proof. unfold entries_of_iterable. by rewrite fold_left_app. Qed.

(** Copying a [Map] yields its entries again. *)
Lemma entries_of_iterable_NoDup es : NoDup es.*1 -> entries_of_iterable es = es.
Proof.
  induction es as [|[k v] es IH] using rev_ind; [done|].
  rewrite fmap_app. intros Hnd. apply NoDup_app in Hnd as (Hes & Hk & _).
  rewrite entries_of_iterable_snoc, IH by done.
  apply entries_set_absent, entries_has_false.
  intros H. apply (Hk k H). simpl. left.
Qed.

End Entries.

(** ** The favorites store in memory *)

Section Favorites.

Import FavoritesStore.

Implicit Types (w : World) (l : loc) (es : Entries) (p : Product).

Lemma fresh_heap_lookup w : heap w !! fresh (dom (heap w)) = None.
Proof. apply not_elem_of_dom, is_fresh. Qed.

Lemma Map_entries_run w l es :
  heap w !! l = Some (HMap es) -> Map_entries l w = (Ok es, w).
Proof. intros H. unfold Map_entries. by rewrite H. Qed.

Lemma Map_write_run w l es es' :
  heap w !! l = Some (HMap es) ->
  Map_write l es' w = (Ok tt, with_heap (<[l := HMap es']> (heap w)) w).
Proof. intros H. unfold Map_write, bind. by rewrite (Map_entries_run _ _ _ H). Qed.

(** The write after a change, for a store that holds a [Map]. *)
Lemma persist_setItem_run w l es :
  favorites_at w l es -> persist_setItem w = (write_outcome w, written es w).
Proof.
  intros (Hf & Hl & _).
  unfold persist_setItem, setItem, favorites_fromEntries, get, bind, ret. simpl.
  rewrite Hf, (Map_entries_run _ _ _ Hl).
  unfold localStorage_setItem, write_outcome, written.
  destruct (localStorage w) eqn:Hls; [done|].
  simpl. f_equal. destruct w; simpl in *. by subst.
Qed.

Lemma favorites_at_replaced w es' :
  NoDup es'.*1 -> favorites_at (replaced w es') (fresh (dom (heap w))) es'.
Proof.
  intros Hnd. split_and!; [done| |done]. simpl. apply lookup_insert_eq.
Qed.

Lemma favorites_at_written w l es es0 :
  favorites_at w l es -> favorites_at (written es0 w) l es.
Proof. done. Qed.

Lemma heap_written es w : heap (written es w) = heap w.
Proof. done. Qed.

(** A mutation of a store that holds a [Map]: the change in memory,
    then the write. *)
Lemma addFavorite_run w l es p :
  favorites_at w l es ->
  addFavorite p w =
  (write_outcome w,
   written (entries_set (id p) (Product_value p) es)
     (replaced w (entries_set (id p) (Product_value p) es))).
Proof.
  intros (Hf & Hl & Hnd).
  unfold addFavorite, set, new_Map_from, Map_set, new_Map, alloc, get, setState, bind, ret.
  rewrite Hf, (Map_entries_run _ _ _ Hl), entries_of_iterable_NoDup by done.
  erewrite Map_entries_run by (simpl; apply lookup_insert_eq).
  erewrite Map_write_run by (simpl; apply lookup_insert_eq).
  match goal with
  | |- persist_setItem ?w1 = _ =>
      replace w1 with (replaced w (entries_set (id p) (Product_value p) es))
  end.
  - rewrite (persist_setItem_run _ (fresh (dom (heap w)))
               (entries_set (id p) (Product_value p) es)); [done|].
    by apply favorites_at_replaced, entries_set_NoDup.
  - unfold replaced, with_favoritesStore, with_heap; simpl.
    by rewrite insert_insert_eq.
Qed.

Lemma removeFavorite_run w l es productId :
  favorites_at w l es ->
  removeFavorite productId w =
  (write_outcome w,
   written (entries_delete productId es) (replaced w (entries_delete productId es))).
Proof.
  intros (Hf & Hl & Hnd).
  unfold removeFavorite, set, new_Map_from, Map_delete, new_Map, alloc, get, setState,
    bind, ret.
  rewrite Hf, (Map_entries_run _ _ _ Hl), entries_of_iterable_NoDup by done.
  erewrite Map_entries_run by (simpl; apply lookup_insert_eq).
  erewrite Map_write_run by (simpl; apply lookup_insert_eq).
  match goal with
  | |- persist_setItem ?w1 = _ =>
      replace w1 with (replaced w (entries_delete productId es))
  end.
  - rewrite (persist_setItem_run _ (fresh (dom (heap w)))
               (entries_delete productId es)); [done|].
    by apply favorites_at_replaced, entries_delete_NoDup.
  - unfold replaced, with_favoritesStore, with_heap; simpl.
    by rewrite insert_insert_eq.
Qed.

(** [clear()] reads nothing of the state. *)
Lemma clearFavorites_run w :
  clearFavorites w = (write_outcome w, written [] (replaced w [])).
Proof.
  unfold clearFavorites, set, new_Map, alloc, get, setState, bind, ret.
  change (persist_setItem (replaced w []) = (write_outcome w, written [] (replaced w []))).
  rewrite (persist_setItem_run (replaced w []) (fresh (dom (heap w))) []); [done|].
  apply favorites_at_replaced. constructor.
Qed.

Lemma isFavorite_run w l es productId :
  favorites_at w l es -> isFavorite productId w = (Ok (entries_has productId es), w).
Proof.
  intros (Hf & Hl & _). unfold isFavorite, favorites_has, get, Map_has, bind, ret.
  by rewrite Hf, (Map_entries_run _ _ _ Hl).
Qed.

Lemma getFavoritesCount_run w l es :
  favorites_at w l es -> getFavoritesCount w = (Ok (Some (length es)), w).
Proof.
  intros (Hf & Hl & _).
  unfold getFavoritesCount, favorites_size, get, Map_size, bind, ret.
  by rewrite Hf, (Map_entries_run _ _ _ Hl).
Qed.

Lemma getFavoritesArray_run w l es :
  favorites_at w l es ->
  getFavoritesArray w =
  (Ok (fresh (dom (heap w))),
   with_heap (<[fresh (dom (heap w)) := HArray es.*2]> (heap w)) w).
Proof.
  intros (Hf & Hl & _).
  unfold getFavoritesArray, favorites_values, get, Map_values, Array_from, bind, ret.
  by rewrite Hf, (Map_entries_run _ _ _ Hl).
Qed.

(** The store after a change and its write. *)
Lemma favorites_at_changed w es' :
  NoDup es'.*1 ->
  favorites_at (written es' (replaced w es')) (fresh (dom (heap w))) es'.
Proof. intros Hnd. by apply favorites_at_written, favorites_at_replaced. Qed.

(** A mutation leaves every object of the heap where it was. *)
Lemma replaced_frame w es' l o :
  heap w !! l = Some o -> heap (written es' (replaced w es')) !! l = Some o.
Proof.
  intros H. rewrite heap_written. simpl. rewrite lookup_insert_ne; [done|].
  intros <-. by rewrite fresh_heap_lookup in H.
Qed.

Lemma initial_world_favorites ls win doc :
  favorites_at (initial_world ls win doc) 1%positive [].
Proof. split_and!; [done|done|constructor]. Qed.

End Favorites.

Section FavoritesClaims.

Import FavoritesStore.

Implicit Types (w : World) (l : loc) (es : Entries) (p : Product).

Lemma favorites_entries_at w l es : favorites_at w l es -> favorites_entries w = Ok es.
Proof.
  intros (Hf & Hl & _). unfold favorites_entries, eval.
  by rewrite Hf, (Map_entries_run _ _ _ Hl).
Qed.

Lemma mutate_run w l es m :
  favorites_at w l es ->
  mutate m w =
  (write_outcome w,
   written (after m es) (replaced w (after m es))).
Proof.
  intros H. destruct m; simpl.
  - by apply (addFavorite_run w l).
  - by apply (removeFavorite_run w l).
  - apply clearFavorites_run.
Qed.

Lemma after_NoDup m es : NoDup es.*1 -> NoDup (after m es).*1.
Proof.
  intros H. destruct m; simpl;
    [by apply entries_set_NoDup | by apply entries_delete_NoDup | constructor].
Qed.

Lemma mutate_store_ok w m : store_ok w -> store_ok (exec (mutate m) w).
Proof.
  intros (l & es & H). unfold exec. rewrite (mutate_run _ _ _ _ H). simpl.
  eexists _, _. apply favorites_at_changed, after_NoDup, H.
Qed.

(** Where there is no storage to write to, the write after the change
    throws. *)
Lemma write_outcome_blocked w : localStorage w = None -> write_outcome w = Throw SecurityError.
Proof. unfold write_outcome. by intros ->. Qed.

(** C2. After [add(P)], [isFavorite(P.id)] is true and the store holds
    the snapshot [P] under that id; [count()] is the prior count plus
    one when [P.id] was absent and the prior count when it was present.
    The state in memory is this whether or not the write that [persist]
    makes after the change returns; where [localStorage] is unavailable
    that write throws, and [add(P)] with it, the change made. *)
Theorem addFavorite_isFavorite_count w p n present :
  store_ok w ->
  eval getFavoritesCount w = Ok (Some n) ->
  eval (isFavorite (id p)) w = Ok present ->
  eval (isFavorite (id p)) (exec (addFavorite p) w) = Ok true /\
  (exists es', favorites_entries (exec (addFavorite p) w) = Ok es' /\
               entries_get (id p) es' = Some (Product_value p)) /\
  eval getFavoritesCount (exec (addFavorite p) w)
    = Ok (Some (if present then n else S n)) /\
  (localStorage w = None -> eval (addFavorite p) w = Throw SecurityError).
Proof.
  intros (l & es & H) Hn Hp.
  unfold eval in Hn, Hp. rewrite (getFavoritesCount_run _ _ _ H) in Hn.
  rewrite (isFavorite_run _ _ _ _ H) in Hp. simpl in Hn, Hp.
  injection Hn as <-. injection Hp as <-.
  unfold eval, exec. rewrite (addFavorite_run _ _ _ _ H). simpl.
  pose proof (favorites_at_changed w _ (entries_set_NoDup (id p) (Product_value p) es
    (proj2 (proj2 H)))) as H'.
  split_and!.
  - rewrite (isFavorite_run _ _ _ _ H'). simpl. by rewrite entries_has_set.
  - eexists. split; [by apply (favorites_entries_at _ _ _ H')|].
    apply entries_get_set.
  - rewrite (getFavoritesCount_run _ _ _ H'). simpl. by rewrite entries_set_length.
  - apply write_outcome_blocked.
Qed.

Lemma addFavorite_isFavorite_count_witness :
  store_ok blocked_page /\
  eval getFavoritesCount blocked_page = Ok (Some 0) /\
  eval (isFavorite "p1") blocked_page = Ok false /\
  eval getFavoritesCount (exec (addFavorite (sample_product "p1" 100)) blocked_page)
    = Ok (Some 1) /\
  eval (addFavorite (sample_product "p1" 100)) blocked_page = Throw SecurityError.
Proof.
  assert (Hok : store_ok blocked_page).
  { exists 1%positive, []. apply initial_world_favorites. }
  split; [exact Hok|]. split; [reflexivity|]. split; [reflexivity|].
  pose proof (addFavorite_isFavorite_count blocked_page
    (sample_product "p1" 100) 0 false Hok eq_refl eq_refl) as H.
  split; [exact (proj1 (proj2 (proj2 H))) | exact (proj2 (proj2 (proj2 H)) eq_refl)].
Defined.

(** *** Sequences of mutations *)

Lemma property_id_Product_value p : property "id" (Product_value p) = Some (JsString (id p)).
Proof. reflexivity. Qed.

Lemma keyed_by_id_set p es :
  keyed_by_id es -> keyed_by_id (entries_set (id p) (Product_value p) es).
Proof.
  unfold keyed_by_id. induction 1 as [|[k v] es Hk Hes IH]; simpl.
  - constructor; [apply property_id_Product_value | constructor].
  - destruct (String.eqb_spec k (id p)) as [->|Hne].
    + constructor; [apply property_id_Product_value | done].
    + by constructor.
Qed.

Lemma keyed_by_id_delete key es : keyed_by_id es -> keyed_by_id (entries_delete key es).
Proof.
  unfold keyed_by_id. induction 1 as [|[k v] es Hk Hes IH]; simpl; [constructor|].
  destruct (String.eqb k key); [done | by constructor].
Qed.

Lemma keyed_by_id_after m es : keyed_by_id es -> keyed_by_id (after m es).
Proof.
  intros H. destruct m; simpl;
    [by apply keyed_by_id_set | by apply keyed_by_id_delete | constructor].
Qed.

(** What every sequence of mutations keeps true of the store, however
    far the sequence runs: a mutation whose write throws ends it, the
    change made. *)
Lemma mutate_all_invariant ms w l es :
  favorites_at w l es -> keyed_by_id es ->
  exists l' es',
    favorites_at (exec (mutate_all ms) w) l' es' /\ keyed_by_id es'.
Proof.
  revert w l es. induction ms as [|m ms IH]; intros w l es H Hk.
  - by exists l, es.
  - pose proof (mutate_run w l es m H) as Hrun.
    pose proof (favorites_at_changed w _ (after_NoDup m es (proj2 (proj2 H)))) as H1.
    pose proof (keyed_by_id_after m es Hk) as Hk1.
    unfold exec. simpl. unfold bind. rewrite Hrun.
    destruct (write_outcome w) as [[]|e].
    + by apply (IH _ _ _ H1).
    + by eexists _, _.
Qed.

Lemma toArray_run w l es :
  favorites_at w l es -> eval toArray w = Ok es.*2.
Proof.
  intros H. unfold toArray, eval, bind. rewrite (getFavoritesArray_run _ _ _ H).
  unfold Array_items. simpl. by rewrite lookup_insert_eq.
Qed.

(** C3. In every state the store reaches from its initial state by a
    sequence of add, remove (and clear) operations, [toArray()] yields a
    sequence whose length is [count()], and the id of every product in
    it satisfies [isFavorite]. *)
Theorem count_is_toArray_length ms ls win doc :
  let w := exec (mutate_all ms) (initial_world ls win doc) in
  exists items,
    eval toArray w = Ok items /\
    eval getFavoritesCount w = Ok (Some (length items)) /\
    Forall (fun product =>
              exists productId,
                property "id" product = Some (JsString productId) /\
                eval (isFavorite productId) w = Ok true) items.
Proof.
  intros w.
  destruct (mutate_all_invariant ms _ _ _ (initial_world_favorites ls win doc))
    as (l & es & H & Hk); [constructor|].
  fold w in H. exists es.*2. split_and!.
  - by apply (toArray_run w l).
  - unfold eval. rewrite (getFavoritesCount_run _ _ _ H). simpl.
    by rewrite length_fmap.
  - apply Forall_fmap. unfold keyed_by_id in Hk.
    apply Forall_forall. intros [k v] Hin. simpl.
    exists k. split; [by apply (proj1 (Forall_forall _ _) Hk (k, v))|].
    unfold eval. rewrite (isFavorite_run _ _ _ _ H). simpl. f_equal.
    apply entries_has_elem_of, list_elem_of_fmap. by exists (k, v).
Qed.

(** *** Removal *)

(** C5. For an id that is not in the collection [remove(id)] changes
    nothing of the collection: [count()] and the entries are what they
    were.  For an id that is in the collection [count()] goes down by
    exactly one.  The call can throw all the same: nothing guards the
    write that [persist] makes after the change, and where
    [localStorage] is unavailable [remove(id)] throws, for an id that is
    not in the collection as for any other. *)
Theorem removeFavorite_absent_present w productId n :
  store_ok w ->
  eval getFavoritesCount w = Ok (Some n) ->
  let w' := exec (removeFavorite productId) w in
  (eval (isFavorite productId) w = Ok false ->
     eval getFavoritesCount w' = Ok (Some n) /\
     favorites_entries w' = favorites_entries w) /\
  (eval (isFavorite productId) w = Ok true ->
     exists n', n = S n' /\ eval getFavoritesCount w' = Ok (Some n')) /\
  (localStorage w = None ->
     eval (removeFavorite productId) w = Throw SecurityError).
Proof.
  intros (l & es & H) Hn w'.
  unfold eval in Hn. rewrite (getFavoritesCount_run _ _ _ H) in Hn. injection Hn as <-.
  pose proof (favorites_at_changed w _ (entries_delete_NoDup productId es
    (proj2 (proj2 H)))) as H'.
  assert (Hw' : w' = written (entries_delete productId es)
                       (replaced w (entries_delete productId es))).
  { unfold w', exec. by rewrite (removeFavorite_run _ _ _ _ H). }
  rewrite Hw'. unfold eval. rewrite (removeFavorite_run _ _ _ _ H).
  rewrite (isFavorite_run _ _ _ _ H), (getFavoritesCount_run _ _ _ H').
  rewrite (favorites_entries_at _ _ _ H'), (favorites_entries_at _ _ _ H). simpl.
  split_and!.
  - intros [= Hhas]. by rewrite entries_delete_absent.
  - intros [= Hhas]. exists (length (entries_delete productId es)).
    by rewrite entries_delete_length.
  - apply write_outcome_blocked.
Qed.

Lemma removeFavorite_absent_present_witness :
  store_ok blocked_page /\
  eval getFavoritesCount blocked_page = Ok (Some 0) /\
  eval (isFavorite "ghost") blocked_page = Ok false /\
  eval getFavoritesCount (exec (removeFavorite "ghost") blocked_page) = Ok (Some 0) /\
  eval (removeFavorite "ghost") blocked_page = Throw SecurityError.
Proof.
  assert (Hok : store_ok blocked_page).
  { exists 1%positive, []. apply initial_world_favorites. }
  split; [exact Hok|]. split; [reflexivity|]. split; [reflexivity|].
  pose proof (removeFavorite_absent_present blocked_page "ghost" 0 Hok eq_refl) as H.
  split; [exact (proj1 (proj1 H eq_refl)) | exact (proj2 (proj2 H) eq_refl)].
Defined.

(** *** Adding, then removing *)

(** The round trip of C6 at a state that already holds the product:
    one product in the store before, none after [add(P); remove(P.id)]. *)
Lemma add_remove_of_present_product :
  eval getFavoritesCount page_with_phone = Ok (Some 1) /\
  eval getFavoritesCount
    (exec (removeFavorite (id phone)) (exec (addFavorite phone) page_with_phone))
  = Ok (Some 0).
Proof. vm_compute. done. Qed.

(** C6, amended.  For every product [P] and every state of the
    collection, [add(P)] then [remove(P.id)] leaves [isFavorite(P.id)]
    false.  [count()], and the entries themselves, are as they were
    before when [P.id] was not in the collection; when it was, [count()]
    is one less than before.  (Each of the two calls is made, and has
    made its change, whether or not the write after it returned.) *)
Theorem add_remove_restores w p :
  store_ok w ->
  let w' := exec (removeFavorite (id p)) (exec (addFavorite p) w) in
  eval (isFavorite (id p)) w' = Ok false /\
  (eval (isFavorite (id p)) w = Ok false ->
     eval getFavoritesCount w' = eval getFavoritesCount w /\
     favorites_entries w' = favorites_entries w) /\
  (eval (isFavorite (id p)) w = Ok true ->
     exists n', eval getFavoritesCount w = Ok (Some (S n')) /\
                eval getFavoritesCount w' = Ok (Some n')).
Proof.
  intros (l & es & H) w'.
  pose proof (entries_set_NoDup (id p) (Product_value p) es (proj2 (proj2 H))) as Hnd1.
  pose proof (favorites_at_changed w _ Hnd1) as H1.
  set (es1 := entries_set (id p) (Product_value p) es) in *.
  pose proof (favorites_at_changed (written es1 (replaced w es1)) _
    (entries_delete_NoDup (id p) es1 Hnd1)) as H2.
  assert (Hw' : w' = written (entries_delete (id p) es1)
                       (replaced (written es1 (replaced w es1))
                          (entries_delete (id p) es1))).
  { unfold w', exec. rewrite (addFavorite_run _ _ _ _ H). simpl.
    by rewrite (removeFavorite_run _ _ _ _ H1). }
  rewrite <- Hw' in H2. unfold eval.
  rewrite (isFavorite_run _ _ _ _ H2), (getFavoritesCount_run _ _ _ H2).
  rewrite (isFavorite_run _ _ _ _ H), (getFavoritesCount_run _ _ _ H).
  rewrite (favorites_entries_at _ _ _ H2), (favorites_entries_at _ _ _ H). simpl.
  assert (Hgone : entries_has (id p) (entries_delete (id p) es1) = false).
  { by apply entries_has_delete. }
  split_and!.
  - by rewrite Hgone.
  - intros [= Habs]. unfold es1. by rewrite entries_delete_set.
  - intros [= Hhas]. exists (length (entries_delete (id p) es1)).
    split; [|done].
    rewrite (entries_delete_length (id p) es1) by apply entries_has_set.
    unfold es1. by rewrite entries_set_length, Hhas.
Qed.

Lemma add_remove_restores_witness :
  store_ok page_with_phone /\
  eval (isFavorite "p1")
    (exec (removeFavorite "p1") (exec (addFavorite phone) page_with_phone)) = Ok false.
Proof.
  assert (Hok : store_ok page_with_phone).
  { apply (mutate_store_ok empty_page (Add phone)).
    exists 1%positive, []. apply initial_world_favorites. }
  split; [exact Hok|].
  exact (proj1 (add_remove_restores page_with_phone phone Hok)).
Defined.

(** *** Clearing *)

(** [clear()] leaves [count()] at 0, whatever the store held. *)
Lemma clearFavorites_count w :
  eval getFavoritesCount (exec clearFavorites w) = Ok (Some 0).
Proof.
  unfold eval, exec. rewrite clearFavorites_run. simpl.
  by rewrite (getFavoritesCount_run _ _ _ (favorites_at_changed w [] (NoDup_nil_2))).
Qed.

(** *** What a mutation leaves alone *)

(** C9. Each mutating operation puts a newly made [Map] in the favorites
    field, at an address that held nothing before, and writes nowhere
    else in the heap: every [Map] and every array obtained before the
    operation is after it what it was. *)
Theorem mutation_leaves_snapshots w m :
  store_ok w ->
  let w' := exec (mutate m) w in
  (exists l', favorites (favoritesStore w') = FavoritesMap l' /\
              heap w !! l' = None /\
              exists es', heap w' !! l' = Some (HMap es')) /\
  (forall l o, heap w !! l = Some o -> heap w' !! l = Some o) /\
  (forall l es, eval (Map_entries l) w = Ok es ->
                eval (Map_entries l) w' = Ok es) /\
  (forall l items, eval (Array_items l) w = Ok items ->
                   eval (Array_items l) w' = Ok items).
Proof.
  intros (l & es & H) w'.
  pose proof (mutate_run w l es m H) as Hrun.
  assert (Hw' : w' = written (after m es) (replaced w (after m es)))
    by (unfold w', exec; by rewrite Hrun).
  assert (Hframe : forall l o, heap w !! l = Some o -> heap w' !! l = Some o).
  { intros l0 o Hl0. rewrite Hw'. by apply replaced_frame. }
  split_and!.
  - exists (fresh (dom (heap w))). rewrite Hw'.
    destruct (favorites_at_changed w (after m es) (after_NoDup m es (proj2 (proj2 H))))
      as (Hf' & Hl' & _).
    split_and!; [done|apply fresh_heap_lookup|by exists (after m es)].
  - done.
  - intros l0 es0. unfold eval, Map_entries.
    destruct (heap w !! l0) as [[es2|items]|] eqn:Hl0; try discriminate.
    simpl. intros [= <-]. by rewrite (Hframe _ _ Hl0).
  - intros l0 items. unfold eval, Array_items.
    destruct (heap w !! l0) as [[es2|items2]|] eqn:Hl0; try discriminate.
    simpl. intros [= <-]. by rewrite (Hframe _ _ Hl0).
Qed.

Lemma mutation_leaves_snapshots_witness :
  store_ok page_with_phone /\
  eval (Map_entries 2%positive) page_with_phone = Ok [("p1", Product_value phone)] /\
  eval (Map_entries 2%positive) (exec (mutate (Remove "p1")) page_with_phone)
    = Ok [("p1", Product_value phone)] /\
  eval getFavoritesCount (exec (mutate (Remove "p1")) page_with_phone) = Ok (Some 0).
Proof.
  assert (Hok : store_ok page_with_phone).
  { apply (mutate_store_ok empty_page (Add phone)).
    exists 1%positive, []. apply initial_world_favorites. }
  split; [exact Hok|]. split; [reflexivity|]. split; [|reflexivity].
  exact (proj1 (proj2 (proj2 (mutation_leaves_snapshots page_with_phone (Remove "p1") Hok)))
           2%positive _ eq_refl).
Defined.

End FavoritesClaims.

(** ** The theme store *)

Section ThemeClaims.

Import ThemeStore.

Implicit Types (w : World) (t : Theme).

Lemma getSystemTheme_run w :
  getSystemTheme w =
  (Ok match window w with Some win => prefers win | None => light end, w).
Proof.
  unfold getSystemTheme, typeof_window_undefined, window_matchMedia_matches, bind, ret, prefers.
  destruct (window w) eqn:Hw; simpl; rewrite ?Hw; done.
Qed.

Lemma getEffectiveTheme_run w :
  getEffectiveTheme w =
  (Ok match theme (themeStore w) with
      | system => match window w with Some win => prefers win | None => light end
      | t => t
      end, w).
Proof.
  unfold getEffectiveTheme, get, bind, ret.
  destruct (theme (themeStore w)); simpl; [done|done|apply getSystemTheme_run].
Qed.

Lemma prefers_concrete win : prefers win = light \/ prefers win = dark.
Proof. unfold prefers. destruct (matches _); auto. Qed.

(** Applying a concrete theme touches the document only. *)
Lemma applyThemeToDocument_concrete w t :
  t <> system ->
  exists d, applyThemeToDocument t w = (Ok tt, with_document d w).
Proof.
  intros Ht. unfold applyThemeToDocument, typeof_document_undefined, bind, ret.
  destruct (document w) as [doc|] eqn:Hdoc.
  - destruct t; [| |done]; simpl;
      unfold classList_remove, classList_add; rewrite Hdoc; eauto.
  - exists None. destruct w; simpl in *. by subst.
Qed.

(** The change of the preference and the write after it. *)
Lemma theme_set_run w t :
  set (mkThemeState t) w = (Ok tt, theme_written t (with_themeStore (mkThemeState t) w)).
Proof.
  unfold set, setState, persist_setItem, get, bind, localStorage_setItem, theme_written.
  simpl. destruct (localStorage w) eqn:Hls; simpl; rewrite ?Hls; [done|].
  f_equal. destruct w; simpl in *. by subst.
Qed.


(** Applying a theme never throws and touches the document only. *)
Lemma applyThemeToDocument_run w t :
  exists d, applyThemeToDocument t w = (Ok tt, with_document d w).
Proof.
  destruct t; try (apply applyThemeToDocument_concrete; discriminate).
  unfold applyThemeToDocument, typeof_document_undefined, bind, ret.
  destruct (document w) as [doc|] eqn:Hdoc.
  - simpl. rewrite getSystemTheme_run.
    destruct (match window w with Some win => prefers win | None => light end);
      simpl; unfold classList_remove, classList_add; rewrite Hdoc; eauto.
  - exists None. destruct w; simpl in *. by subst.
Qed.

(** [setTheme(T)] stores [T], for each of the three variants. *)
Lemma setTheme_stores w t :
  eval (setTheme t) w = Ok tt /\ theme (themeStore (exec (setTheme t) w)) = t.
Proof.
  unfold eval, exec, setTheme, bind. rewrite theme_set_run.
  destruct (applyThemeToDocument_run
              (theme_written t (with_themeStore (mkThemeState t) w)) t) as [d Hd].
  by rewrite Hd.
Qed.

(** C7. [getEffectiveTheme()] returns [light] or [dark] for every
    preference, and never throws: a concrete preference as it is, the
    [system] preference as the platform's color scheme says, and
    [light] where there is no [window] to ask. *)
Theorem getEffectiveTheme_light_or_dark w :
  exists t,
    getEffectiveTheme w = (Ok t, w) /\
    (t = light \/ t = dark) /\
    t <> system /\
    (theme (themeStore w) <> system -> t = theme (themeStore w)) /\
    (theme (themeStore w) = system ->
       match window w with
       | Some win => t = prefers win
       | None => t = light
       end).
Proof.
  eexists. split; [apply getEffectiveTheme_run|].
  destruct (theme (themeStore w)) eqn:Ht; simpl.
  - split_and!; auto; done.
  - split_and!; auto; done.
  - destruct (window w) as [win|].
    + destruct (prefers_concrete win) as [Hp|Hp]; rewrite Hp; split_and!; auto; done.
    + split_and!; auto; done.
Qed.




End ThemeClaims.

(** ** [JSON.parse] after [JSON.stringify] *)

Section JsonText.

Import Json.
Local Open Scope char_scope.

Implicit Types (c : ascii) (s rest : list ascii) (u : Decimal.uint) (v : JsValue).

(** *** Numbers *)

Lemma follows_not_digit rest :
  follows rest -> match rest with c :: _ => digit c = None | [] => True end.
Proof. destruct rest as [|c r]; [done|]. by intros [->|[->| ->]]. Qed.

Lemma read_digits_digits u rest :
  match rest with c :: _ => digit c = None | [] => True end ->
  read_digits (digits u ++ rest) = (u, rest).
Proof.
  intros Hrest. induction u; simpl; rewrite ?IHu; try done.
  destruct rest as [|c r]; [done|]. simpl. by rewrite Hrest.
Qed.

Lemma canonical_to_uint (n : N) : canonical (N.to_uint n) = true.
Proof.
  unfold canonical.
  rewrite <- (DecimalN.Unsigned.to_of (N.to_uint n)), DecimalN.Unsigned.of_to.
  apply Decimal.internal_uint_dec_lb. reflexivity.
Qed.

Lemma follows_ends_number rest : follows rest -> ends_number rest.
Proof. destruct rest as [|c r]; [done|]. by intros [->|[->| ->]]. Qed.

Lemma span_digits_app ds rest :
  forallb is_digit ds = true ->
  match rest with c :: _ => is_digit c = false | [] => True end ->
  span_digits (ds ++ rest) = (ds, rest).
Proof.
  intros Hds Hrest. induction ds as [|d ds IH]; simpl.
  - destruct rest as [|c r]; [done|]. simpl. by rewrite Hrest.
  - simpl in Hds. apply andb_prop in Hds as [Hd Hds]. by rewrite Hd, IH.
Qed.

Lemma read_int_cons d r :
  is_digit d = true -> d <> "0" ->
  read_int (d :: r) = let (ds, r') := span_digits r in Some (d :: ds, r').
Proof.
  intros Hd Hz. destruct d as [[] [] [] [] [] [] [] []]; try done.
Qed.

Lemma read_number_digit d r :
  is_digit d = true -> read_number (d :: r) = read_unsigned false (d :: r).
Proof. intros Hd. by destruct d as [[] [] [] [] [] [] [] []]. Qed.

Lemma read_frac_none rest : ends_number rest -> read_frac rest = Some ([], rest).
Proof.
  destruct rest as [|c r]; [done|]. intros (_ & Hp & _).
  destruct c as [[] [] [] [] [] [] [] []]; done.
Qed.

Lemma read_frac_some ds rest :
  ds <> [] -> forallb is_digit ds = true ->
  match rest with c :: _ => is_digit c = false | [] => True end ->
  read_frac ("." :: ds ++ rest) = Some (ds, rest).
Proof.
  intros Hne Hds Hrest. simpl. rewrite span_digits_app by done. by destruct ds.
Qed.

Lemma read_exp_none rest : ends_number rest -> read_exp rest = Some (0%Z, rest).
Proof.
  destruct rest as [|c r]; [done|]. intros (_ & _ & He & HE).
  destruct c as [[] [] [] [] [] [] [] []]; done.
Qed.

Lemma read_exp_part (e : Z) rest :
  e <> 0%Z -> ends_number rest ->
  read_exp (exponent_part e ++ rest) = Some (e, rest).
Proof.
  intros He Hrest. unfold exponent_part.
  assert (Hnd : match rest with c :: _ => digit c = None | [] => True end).
  { destruct rest as [|c r]; [done|]. destruct Hrest as [Hc _].
    unfold is_digit in Hc. by destruct (digit c). }
  pose proof (read_digits_digits (N.to_uint (Z.abs_N e)) rest Hnd) as Hrd.
  pose proof (canonical_to_uint (Z.abs_N e)) as Hc.
  destruct (0 <=? e)%Z eqn:Hs; simpl; rewrite Hrd;
    (destruct (N.to_uint (Z.abs_N e)) eqn:Hu; [done|..]);
    rewrite <- Hu, DecimalN.Unsigned.of_to; do 2 f_equal; lia.
Qed.

Lemma strip_zeros_head d r : d <> "0" -> strip_zeros (d :: r) = d :: r.
Proof. intros Hd. destruct d as [[] [] [] [] [] [] [] []]; done. Qed.

Lemma strip_zeros_replicate n s : strip_zeros (replicate n "0" ++ s) = strip_zeros s.
Proof. induction n as [|n IH]; [done|]. exact IH. Qed.

Lemma rev_replicate {A} n (x : A) : rev (replicate n x) = replicate n x.
Proof.
  induction n as [|n IH]; [done|]. simpl. rewrite IH.
  clear IH. induction n as [|n IH]; [done|]. simpl. by rewrite IH.
Qed.

(** The digits of a number in canonical form. *)
Lemma canonical_digits x d ds :
  canonical_number x = true -> significand x = d :: ds ->
  forallb is_digit (d :: ds) = true /\ d <> "0" /\ List.last ds d <> "0" /\
  (-306 <= point x)%Z.
Proof.
  unfold canonical_number. intros H Hs. rewrite Hs in H.
  apply andb_prop in H as [H Hp]. apply andb_prop in H as [H Hl].
  apply andb_prop in H as [Hd Hz].
  split_and!; [done| | |lia].
  - intros ->. by rewrite Ascii.eqb_refl in Hz.
  - intros E. by rewrite E, Ascii.eqb_refl in Hl.
Qed.

Lemma last_cons (ds : list ascii) c d : List.last (c :: ds) d = List.last ds c.
Proof.
  revert c d. induction ds as [|c' ds IH]; intros c d; [done|].
  change (List.last (c :: c' :: ds) d) with (List.last (c' :: ds) d).
  rewrite IH. symmetry. apply IH.
Qed.

Lemma strip_trailing s d ds n :
  s = d :: ds -> List.last ds d <> "0" ->
  rev (strip_zeros (rev (s ++ replicate n "0"))) = s.
Proof.
  intros -> Hl. rewrite rev_app_distr, rev_replicate, strip_zeros_replicate.
  assert (Hrev : exists r, rev (d :: ds) = List.last ds d :: r).
  { clear Hl. revert d. induction ds as [|c ds IH]; intros d; [by exists []|].
    destruct (IH c) as [r Hr]. exists (r ++ [d]).
    change (rev (d :: c :: ds)) with (rev (c :: ds) ++ [d]). rewrite Hr.
    by rewrite last_cons. }
  destruct Hrev as [r Hr]. rewrite Hr, strip_zeros_head by done.
  by rewrite <- Hr, rev_involutive.
Qed.

Lemma number_of_digits_eq neg int frac exp d ds n :
  int ++ frac = replicate n "0" ++ d :: ds ->
  d <> "0" -> List.last ds d <> "0" ->
  number_of_digits neg int frac exp =
  mkNumber neg (d :: ds) (Z.of_nat (length int) + exp - Z.of_nat n).
Proof.
  intros Hall Hd Hl. unfold number_of_digits. rewrite Hall.
  rewrite strip_zeros_replicate, strip_zeros_head by done.
  pose proof (strip_trailing (d :: ds) d ds 0 eq_refl Hl) as Ht.
  rewrite app_nil_r in Ht. rewrite Ht.
  rewrite length_app, length_replicate. do 2 f_equal. lia.
Qed.

Lemma number_of_digits_zeros neg int frac exp d ds n m :
  int ++ frac = replicate n "0" ++ (d :: ds) ++ replicate m "0" ->
  d <> "0" -> List.last ds d <> "0" ->
  number_of_digits neg int frac exp =
  mkNumber neg (d :: ds) (Z.of_nat (length int) + exp - Z.of_nat n).
Proof.
  intros Hall Hd Hl. unfold number_of_digits. rewrite Hall.
  rewrite strip_zeros_replicate.
  change ((d :: ds) ++ replicate m "0") with (d :: (ds ++ replicate m "0")).
  rewrite strip_zeros_head by done.
  change (d :: (ds ++ replicate m "0")) with ((d :: ds) ++ replicate m "0").
  rewrite (strip_trailing (d :: ds) d ds m eq_refl Hl).
  rewrite !length_app, !length_replicate. do 2 f_equal. simpl. lia.
Qed.

Lemma forallb_replicate_zero n : forallb is_digit (replicate n "0") = true.
Proof. induction n as [|n IH]; [done|]. simpl. exact IH. Qed.

Lemma forallb_take {A} (f : A -> bool) n (l : list A) :
  forallb f l = true -> forallb f (take n l) = true.
Proof.
  revert n. induction l as [|x l IH]; intros [|n]; simpl; try done.
  intros [Hx Hl]%andb_prop. by rewrite Hx, IH.
Qed.

Lemma forallb_drop {A} (f : A -> bool) n (l : list A) :
  forallb f l = true -> forallb f (drop n l) = true.
Proof.
  revert n. induction l as [|x l IH]; intros [|n]; simpl; try done.
  intros [Hx Hl]%andb_prop. by apply IH.
Qed.

Ltac same_point n :=
  lazymatch goal with
  | |- Parsed (JsNumber (mkNumber _ _ ?e)) _ = _ => replace e with n; [done|]
  end.

Lemma read_unsigned_print neg d ds n rest :
  forallb is_digit (d :: ds) = true -> d <> "0" -> List.last ds d <> "0" ->
  ends_number rest ->
  let s := d :: ds in
  let k := Z.of_nat (length s) in
  read_unsigned neg
    ((if (k <=? n)%Z && (n <=? 21)%Z then s ++ replicate (Z.to_nat (n - k)) "0"
      else if (0 <? n)%Z && (n <=? 21)%Z
           then take (Z.to_nat n) s ++ "." :: drop (Z.to_nat n) s
      else if (-6 <? n)%Z && (n <=? 0)%Z
           then "0" :: "." :: replicate (Z.to_nat (- n)) "0" ++ s
      else d :: match ds with [] => [] | _ => "." :: ds end ++ exponent_part (n - 1))
     ++ rest)
  = Parsed (JsNumber (mkNumber neg (d :: ds) n)) rest.
Proof.
  intros Hds Hd Hl Hrest s k.
  assert (Hrd : match rest with c :: _ => is_digit c = false | [] => True end).
  { destruct rest as [|c r]; [done|]. apply Hrest. }
  pose proof Hds as Hds'. simpl in Hds'. apply andb_prop in Hds' as [Hdd Hdss].
  unfold read_unsigned.
  destruct ((k <=? n)%Z && (n <=? 21)%Z) eqn:HA.
  { (* the digits and zeros after them *)
    apply andb_prop in HA as [Hkn _]. apply Z.leb_le in Hkn.
    unfold s. rewrite <- !app_comm_cons, <- app_assoc.
    rewrite read_int_cons by done.
    rewrite app_assoc, span_digits_app; [|by rewrite forallb_app, Hdss, forallb_replicate_zero|done].
    rewrite read_frac_none, read_exp_none by done.
    rewrite (number_of_digits_zeros neg _ [] 0 d ds 0 (Z.to_nat (n - k))); [| |done|done].
    - same_point n. cbn [length]. rewrite length_app, length_replicate.
      unfold k, s in *. cbn [length] in *. lia.
    - by rewrite app_nil_r. }
  destruct ((0 <? n)%Z && (n <=? 21)%Z) eqn:HB.
  { (* the point among the digits *)
    apply andb_prop in HB as [Hn0 Hn21]. apply Z.ltb_lt in Hn0. apply Z.leb_le in Hn21.
    assert (Hnk : (n < k)%Z).
    { apply andb_false_iff in HA as [HA|HA]; [apply Z.leb_gt in HA; lia|apply Z.leb_gt in HA; lia]. }
    destruct (Z.to_nat n) as [|n'] eqn:Hn'; [lia|].
    assert (Hlen : n' < length ds) by (unfold k, s in Hnk; simpl in Hnk; lia).
    unfold s. cbn [take drop]. rewrite <- !app_comm_cons, <- app_assoc.
    rewrite read_int_cons by done. rewrite <- app_comm_cons.
    rewrite span_digits_app; [|by apply forallb_take|done].
    rewrite read_frac_some; [| |by apply forallb_drop|done].
    2:{ intros E. apply (f_equal length) in E. rewrite length_drop in E. simpl in E. lia. }
    rewrite read_exp_none by done.
    rewrite (number_of_digits_eq neg _ _ 0 d ds 0); [| |done|done].
    - same_point n. cbn [length]. rewrite length_take. lia.
    - simpl. by rewrite take_drop. }
  destruct ((-6 <? n)%Z && (n <=? 0)%Z) eqn:HC.
  { (* zeros before the digits *)
    apply andb_prop in HC as [_ Hn0]. apply Z.leb_le in Hn0.
    rewrite <- !app_comm_cons. cbn [read_int].
    rewrite read_frac_some; [| |by rewrite forallb_app, forallb_replicate_zero|done].
    2:{ unfold s. by destruct (replicate _ _). }
    rewrite read_exp_none by done.
    rewrite (number_of_digits_eq neg _ _ 0 d ds (S (Z.to_nat (- n)))); [| |done|done].
    - same_point n. cbn [length]. lia.
    - done. }
  (* the scientific form *)
  assert (He : (n - 1 <> 0)%Z).
  { intros E. assert (n = 1%Z) as -> by lia.
    apply andb_false_iff in HB as [HB|HB]; [apply Z.ltb_ge in HB|apply Z.leb_gt in HB]; lia. }
  rewrite <- !app_comm_cons. rewrite read_int_cons by done.
  destruct ds as [|d' ds'].
  - cbn [app]. unfold exponent_part at 1. cbn [app span_digits is_digit digit].
    change ("e" :: ?a :: ?b ++ rest) with (exponent_part (n - 1) ++ rest).
    fold (exponent_part (n - 1)).
    replace ("e" :: (if (0 <=? n - 1)%Z then "+" else "-")
                 :: digits (N.to_uint (Z.abs_N (n - 1))) ++ rest)
      with (exponent_part (n - 1) ++ rest) by done.
    assert (Hfrac : read_frac (exponent_part (n - 1) ++ rest)
                    = Some ([], exponent_part (n - 1) ++ rest)) by done.
    rewrite Hfrac, read_exp_part by done.
    rewrite (number_of_digits_eq neg _ _ _ d [] 0); [| |done|done].
    + same_point n. cbn [length]. lia.
    + done.
  - rewrite <- !app_comm_cons, <- app_assoc. cbn [span_digits is_digit digit].
    change ("." :: d' :: ds' ++ exponent_part (n - 1) ++ rest)
      with ("." :: (d' :: ds') ++ exponent_part (n - 1) ++ rest).
    rewrite read_frac_some; [|done|done|done].
    rewrite read_exp_part by done.
    rewrite (number_of_digits_eq neg _ _ _ d (d' :: ds') 0); [| |done|done].
    + same_point n. cbn [length]. lia.
    + done.
Qed.

Lemma read_number_print_number (x : Number) rest :
  canonical_number x = true -> follows rest ->
  read_number (print_number x ++ rest) = Parsed (JsNumber x) rest.
Proof.
  intros Hx Hrest%follows_ends_number. unfold print_number.
  destruct x as [neg sig n]. cbn [significand negative point] in *.
  destruct sig as [|d ds].
  - unfold canonical_number in Hx. cbn in Hx. apply andb_prop in Hx as [Hneg Hn].
    destruct neg; [done|]. apply Z.eqb_eq in Hn as ->.
    cbn [app read_number read_unsigned read_int].
    by rewrite read_frac_none, read_exp_none.
  - destruct (canonical_digits (mkNumber neg (d :: ds) n) d ds Hx eq_refl)
      as (Hds & Hd & Hl & _).
    pose proof (read_unsigned_print neg d ds n rest Hds Hd Hl Hrest) as Hread.
    cbv zeta in Hread.
    match type of Hread with
    | read_unsigned _ (?body ++ rest) = _ => set (b := body) in Hread
    end.
    destruct neg.
    + change (read_number ("-" :: b ++ rest)
              = Parsed (JsNumber (mkNumber true (d :: ds) n)) rest).
      exact Hread.
    + change (read_number (b ++ rest)
              = Parsed (JsNumber (mkNumber false (d :: ds) n)) rest).
      assert (Hhead : exists c r, b = c :: r /\ is_digit c = true).
      { simpl in Hds. apply andb_prop in Hds as [Hdd _]. unfold b.
        destruct ((_ <=? n)%Z && (n <=? 21)%Z); [by eexists _, _|].
        destruct ((0 <? n)%Z && (n <=? 21)%Z) eqn:HB.
        - apply andb_prop in HB as [HB _]. apply Z.ltb_lt in HB.
          destruct (Z.to_nat n) eqn:Hn; [lia|]. by eexists _, _.
        - destruct ((-6 <? n)%Z && _); by eexists _, _. }
      destruct Hhead as (c & r & Hbody & Hc). clearbody b. subst b.
      rewrite <- app_comm_cons in Hread |- *.
      rewrite read_number_digit by exact Hc. exact Hread.
Qed.

(** *** Strings *)

Lemma read_string_escape c s :
  read_string (escape c ++ s) =
  match read_string s with
  | Some (cs, rest) => Some (c :: cs, rest)
  | None => None
  end.
Proof. destruct c as [[] [] [] [] [] [] [] []]; reflexivity. Qed.

Lemma read_string_closing s : read_string ("034" :: s) = Some ([], s).
Proof. reflexivity. Qed.

Lemma read_string_escaped cs rest :
  read_string (flat_map escape cs ++ "034" :: rest) = Some (cs, rest).
Proof.
  induction cs as [|c cs IH]; [done|].
  simpl flat_map. by rewrite <- app_assoc, read_string_escape, IH.
Qed.

Lemma read_string_quote (k : string) rest :
  exists body,
    quote k ++ rest = "034" :: body /\
    read_string body = Some (list_ascii_of_string k, rest).
Proof.
  exists (flat_map escape (list_ascii_of_string k) ++ "034" :: rest). split.
  - unfold quote. simpl. by rewrite <- app_assoc.
  - apply read_string_escaped.
Qed.

(** *** White space and the first character of a value *)

Lemma skip_ws_value_start c s : value_start c = true -> skip_ws (c :: s) = c :: s.
Proof. destruct c as [[] [] [] [] [] [] [] []]; done. Qed.

Lemma digits_head u :
  canonical u = true ->
  exists c s, digits u = c :: s /\ value_start c = true.
Proof. destruct u; simpl; eauto; discriminate. Qed.

Lemma print_number_head (x : Number) :
  canonical_number x = true ->
  exists c s, print_number x = c :: s /\ (c = "-" \/ digit c <> None).
Proof.
  intros Hx. unfold print_number. destruct (significand x) as [|d ds] eqn:Hsig.
  { eexists _, _. split; [reflexivity|right; discriminate]. }
  destruct (canonical_digits x d ds Hx Hsig) as (Hds & _).
  simpl in Hds. apply andb_prop in Hds as [Hdd _].
  assert (Hdigit : digit d <> None) by (unfold is_digit in Hdd; by destruct (digit d)).
  destruct (negative x); [by eexists _, _; split; [reflexivity|left]|].
  cbn [app].
  destruct ((_ <=? point x)%Z && (point x <=? 21)%Z);
    [by eexists _, _; split; [reflexivity|right]|].
  destruct ((0 <? point x)%Z && (point x <=? 21)%Z) eqn:HB.
  - apply andb_prop in HB as [HB _]. apply Z.ltb_lt in HB.
    destruct (Z.to_nat (point x)) eqn:Hn; [lia|].
    by eexists _, _; split; [reflexivity|right].
  - destruct ((-6 <? point x)%Z && _); eexists _, _; (split; [reflexivity|right]);
      [discriminate|done].
Qed.

Lemma print_head v :
  is_json v = true -> exists c s, print v = c :: s /\ value_start c = true.
Proof.
  destruct v as [|[]|n|k|items|props|l]; simpl; eauto; try done.
  intros Hn. destruct (print_number_head n Hn) as (c & s & -> & Hc).
  exists c, s. split; [done|]. destruct Hc as [->|Hc]; [done|].
  unfold value_start. destruct c as [[] [] [] [] [] [] [] []]; try done.
Qed.

(** *** One step of the reader *)

Lemma parse_elements_S fuel s :
  parse_elements (S fuel) s =
  match parse_value fuel s with
  | Parsed v r =>
      match skip_ws r with
      | "," :: r' =>
          match parse_elements fuel r' with
          | Parsed vs r'' => Parsed (v :: vs) r''
          | Malformed => Malformed
          | NoFuel => NoFuel
          end
      | "]" :: r' => Parsed [v] r'
      | _ => Malformed
      end
  | Malformed => Malformed
  | NoFuel => NoFuel
  end.
Proof. reflexivity. Qed.

Lemma parse_members_S fuel s :
  parse_members (S fuel) s =
  match skip_ws s with
  | "034" :: r =>
      match read_string r with
      | Some (k, r1) =>
          match skip_ws r1 with
          | ":" :: r2 =>
              match parse_value fuel r2 with
              | Parsed v r3 =>
                  match skip_ws r3 with
                  | "," :: r4 =>
                      match parse_members fuel r4 with
                      | Parsed ms r5 => Parsed ((string_of_list_ascii k, v) :: ms) r5
                      | Malformed => Malformed
                      | NoFuel => NoFuel
                      end
                  | "}" :: r4 => Parsed [(string_of_list_ascii k, v)] r4
                  | _ => Malformed
                  end
              | Malformed => Malformed
              | NoFuel => NoFuel
              end
          | _ => Malformed
          end
      | None => Malformed
      end
  | _ => Malformed
  end.
Proof. reflexivity. Qed.

Lemma parse_value_string fuel s :
  parse_value (S fuel) ("034" :: s) =
  match read_string s with
  | Some (cs, r) => Parsed (JsString (string_of_list_ascii cs)) r
  | None => Malformed
  end.
Proof. reflexivity. Qed.

Lemma parse_value_array fuel c s :
  value_start c = true ->
  parse_value (S fuel) ("[" :: c :: s) =
  match parse_elements fuel (c :: s) with
  | Parsed items r => Parsed (JsArray items) r
  | Malformed => Malformed
  | NoFuel => NoFuel
  end.
Proof. destruct c as [[] [] [] [] [] [] [] []]; done. Qed.

Lemma parse_value_object fuel c s :
  value_start c = true ->
  parse_value (S fuel) ("{" :: c :: s) =
  match parse_members fuel (c :: s) with
  | Parsed members r => Parsed (Object_fromEntries members) r
  | Malformed => Malformed
  | NoFuel => NoFuel
  end.
Proof. destruct c as [[] [] [] [] [] [] [] []]; done. Qed.

Lemma parse_value_number fuel c s :
  c = "-" \/ digit c <> None ->
  parse_value (S fuel) (c :: s) = read_number (c :: s).
Proof.
  intros H. destruct c as [[] [] [] [] [] [] [] []]; try reflexivity;
    exfalso; destruct H as [H|H]; try discriminate; by apply H.
Qed.

(** *** Objects in enumeration order *)

Lemma keys_ordered_app_inv ks k :
  keys_ordered (ks ++ [k]) = true ->
  keys_ordered ks = true /\ Forall (fun k0 => may_follow k0 k = true) ks.
Proof.
  induction ks as [|k0 ks IH]; simpl; [by split|].
  rewrite forallb_app. simpl. intros H.
  apply andb_prop in H as [H1 H2]. apply andb_prop in H1 as [H1 H3].
  apply andb_prop in H3 as [H3 _]. destruct (IH H2) as [IH1 IH2].
  split; [by rewrite H1, IH1 | by constructor].
Qed.

Lemma define_property_last (props : list (string * JsValue)) k v :
  Forall (fun k0 => may_follow k0 k = true) props.*1 ->
  define_property k v props = props ++ [(k, v)].
Proof.
  induction props as [|[k0 v0] props IH]; csimpl; [done|].
  intros [Hk0 Hrest]%Forall_cons. unfold may_follow in Hk0.
  apply andb_prop in Hk0 as [Hne Hbefore].
  apply negb_true_iff in Hne, Hbefore. by rewrite Hne, Hbefore, IH.
Qed.

Lemma Object_fromEntries_ordered (props : list (string * JsValue)) :
  keys_ordered props.*1 = true -> Object_fromEntries props = JsObject props.
Proof.
  unfold Object_fromEntries. intros H. f_equal.
  induction props as [|[k v] props IH] using rev_ind; [done|].
  rewrite fmap_app in H. apply keys_ordered_app_inv in H as [H1 H2].
  rewrite fold_left_app. simpl. rewrite IH by done. by apply define_property_last.
Qed.

(** *** The round trip *)

Lemma JsValue_nested_ind (P : JsValue -> Prop) :
  P JsNull -> (forall b, P (JsBool b)) -> (forall n, P (JsNumber n)) ->
  (forall k, P (JsString k)) ->
  (forall items, Forall P items -> P (JsArray items)) ->
  (forall props, Forall (fun kv => P kv.2) props -> P (JsObject props)) ->
  (forall l, P (JsMap l)) ->
  forall v, P v.
Proof.
  intros Hnull Hbool Hnum Hstr Harr Hobj Hmap. fix IH 1.
  intros [|b|n|k|items|props|l];
    [apply Hnull | apply Hbool | apply Hnum | apply Hstr | | | apply Hmap].
  - apply Harr. revert items. fix IHitems 1.
    intros [|x items]; constructor; [apply IH | apply IHitems].
  - apply Hobj. revert props. fix IHprops 1.
    intros [|[k x] props]; constructor; [apply IH | apply IHprops].
Qed.

Lemma parse_elements_join items :
  items <> [] -> Forall reads_back items ->
  forall fuel rest,
    2 * length (join (map print items) ++ "]" :: rest) + 1 <= fuel ->
    parse_elements fuel (join (map print items) ++ "]" :: rest) = Parsed items rest.
Proof.
  intros Hne Hall. induction Hall as [|x items Hx Hitems IH]; [done|].
  intros [|fuel] rest Hfuel; [lia|]. rewrite parse_elements_S.
  destruct items as [|y items].
  - simpl in *. rewrite Hx; [done|lia|simpl; auto].
  - assert (Hj : join (map print (x :: y :: items))
                 = print x ++ "," :: join (map print (y :: items))) by reflexivity.
    rewrite Hj in *. clear Hj.
    set (tail := join (map print (y :: items))) in *. clearbody tail.
    rewrite <- app_assoc, <- app_comm_cons in *.
    rewrite length_app in Hfuel. cbn [length] in Hfuel.
    rewrite Hx; [|rewrite length_app; cbn [length]; lia|simpl; auto].
    cbn [skip_ws is_ws]. cbv iota beta.
    rewrite IH; [done|done|lia].
Qed.

Lemma app_member_tail {A} (a b c d : list A) (x y : A) :
  ((a ++ x :: b) ++ y :: c) ++ d = a ++ x :: b ++ y :: c ++ d.
Proof. by rewrite <- !app_assoc, <- !app_comm_cons, <- ?app_assoc. Qed.

Lemma parse_members_join (props : list (string * JsValue)) :
  props <> [] -> Forall (fun kv => reads_back kv.2) props ->
  forall fuel rest,
    2 * length (join (map (fun kv => quote kv.1 ++ ":" :: print kv.2) props)
                ++ "}" :: rest) + 1 <= fuel ->
    parse_members fuel
      (join (map (fun kv => quote kv.1 ++ ":" :: print kv.2) props) ++ "}" :: rest)
    = Parsed props rest.
Proof.
  intros Hne Hall. induction Hall as [|[k x] props Hx Hprops IH]; [done|].
  intros [|fuel] rest Hfuel; [lia|]. rewrite parse_members_S.
  simpl in Hx. destruct props as [|kv props].
  - cbn [map join fst snd] in *. rewrite <- app_assoc, <- app_comm_cons in *.
    destruct (read_string_quote k (":" :: print x ++ "}" :: rest)) as (body & Hq & Hbody).
    rewrite Hq in *. cbn [skip_ws is_ws]. cbv iota beta. rewrite Hbody.
    cbn [skip_ws is_ws]. cbv iota beta.
    assert (Hlen : S (length body)
                   = length (quote k) + S (length (print x ++ "}" :: rest))).
    { apply (f_equal length) in Hq. rewrite length_app in Hq. cbn [length] in Hq. lia. }
    cbn [length] in Hfuel.
    rewrite Hx; [|lia|simpl; auto]. cbn [skip_ws is_ws]. cbv iota beta.
    by rewrite string_of_list_ascii_of_string.
  - assert (Hj : join (map (fun kv => quote kv.1 ++ ":" :: print kv.2) ((k, x) :: kv :: props))
                 = (quote k ++ ":" :: print x) ++ "," ::
                   join (map (fun kv => quote kv.1 ++ ":" :: print kv.2) (kv :: props)))
      by reflexivity.
    rewrite Hj in *. clear Hj.
    set (tail := join (map (fun kv => quote kv.1 ++ ":" :: print kv.2) (kv :: props))) in *.
    clearbody tail.
    rewrite app_member_tail in *.
    destruct (read_string_quote k (":" :: print x ++ "," :: tail ++ "}" :: rest))
      as (body & Hq & Hbody).
    rewrite Hq in *. cbn [skip_ws is_ws]. cbv iota beta. rewrite Hbody.
    cbn [skip_ws is_ws]. cbv iota beta.
    assert (Hlen : S (length body)
                   = length (quote k) + S (length (print x ++ "," :: tail ++ "}" :: rest))).
    { apply (f_equal length) in Hq. rewrite length_app in Hq. cbn [length] in Hq. lia. }
    cbn [length] in Hfuel. rewrite length_app in Hlen. cbn [length] in Hlen.
    rewrite Hx; [|rewrite length_app; cbn [length]; lia|simpl; auto].
    cbn [skip_ws is_ws]. cbv iota beta.
    rewrite IH; [|done|lia]. by rewrite string_of_list_ascii_of_string.
Qed.

Lemma join_head (parts : list (list ascii)) :
  parts <> [] ->
  Forall (fun part => exists c s, part = c :: s /\ value_start c = true) parts ->
  exists c s, join parts = c :: s /\ value_start c = true.
Proof.
  intros Hne Hall. destruct Hall as [|part parts (c & s & -> & Hc) _]; [done|].
  destruct parts; simpl; eauto.
Qed.

Lemma quote_head (k : string) s : exists body, quote k ++ s = "034" :: body.
Proof. unfold quote. simpl. eauto. Qed.

(** *** The budget of the reader *)

Lemma skip_ws_no_growth s : length (skip_ws s) <= length s.
Proof. induction s as [|c s IH]; simpl; [done|]. destruct (is_ws c); simpl; lia. Qed.

Lemma read_digits_no_growth s u rest :
  read_digits s = (u, rest) -> length rest <= length s.
Proof.
  revert u rest. induction s as [|c s IH]; intros u rest; simpl.
  - by intros [= <- <-].
  - destruct (digit c); [|by intros [= <- <-]].
    destruct (read_digits s) as [u' r'] eqn:E. intros [= <- <-].
    specialize (IH _ _ eq_refl). lia.
Qed.

Lemma span_digits_no_growth s ds rest :
  span_digits s = (ds, rest) -> length rest <= length s.
Proof.
  revert ds rest. induction s as [|c s IH]; intros ds rest; simpl.
  - by intros [= <- <-].
  - destruct (is_digit c); [|by intros [= <- <-]].
    destruct (span_digits s) as [ds' r'] eqn:E. intros [= <- <-].
    specialize (IH _ _ eq_refl). lia.
Qed.

Lemma read_int_no_growth s int rest :
  read_int s = Some (int, rest) -> length rest < length s.
Proof.
  destruct s as [|c s]; [done|]. unfold read_int.
  destruct (span_digits s) as [ds r] eqn:E. apply span_digits_no_growth in E.
  destruct c as [[] [] [] [] [] [] [] []]; simpl; intros [= <- <-]; simpl; lia.
Qed.

Lemma read_frac_no_growth s frac rest :
  read_frac s = Some (frac, rest) -> length rest <= length s.
Proof.
  destruct s as [|c s]; [by intros [= <- <-]|]. unfold read_frac.
  destruct (span_digits s) as [ds r] eqn:E. apply span_digits_no_growth in E.
  destruct c as [[] [] [] [] [] [] [] []]; try (by intros [= <- <-]).
  destruct ds; [done|]. intros [= <- <-]. simpl. lia.
Qed.

Lemma exponent_sign (r : list ascii) :
  exists minus r1,
    match r with
    | "+" :: r1 => (false, r1)
    | "-" :: r1 => (true, r1)
    | _ => (false, r)
    end = (minus, r1) /\ length r1 <= length r.
Proof.
  destruct r as [|c r]; [by exists false, []|].
  destruct c as [[] [] [] [] [] [] [] []]; eexists _, _; (split; [reflexivity|simpl; lia]).
Qed.

Lemma read_exp_no_growth s exp rest :
  read_exp s = Some (exp, rest) -> length rest <= length s.
Proof.
  destruct s as [|c s]; [by intros [= <- <-]|]. unfold read_exp.
  destruct (exponent_sign s) as (minus & r1 & Hsign & Hr1).
  assert (Hexp : (let (minus, r1) :=
               match s with
               | "+" :: r1 => (false, r1)
               | "-" :: r1 => (true, r1)
               | _ => (false, s)
               end in
             match read_digits r1 with
             | (Decimal.Nil, _) => None
             | (u, r2) =>
                 let e := Z.of_N (N.of_uint u) in
                 Some (if minus then (- e)%Z else e, r2)
             end) = Some (exp, rest) -> length rest <= S (length s)).
  { rewrite Hsign. destruct (read_digits r1) as [u r2] eqn:E.
    apply read_digits_no_growth in E.
    destruct u; try done; intros [= _ <-]; lia. }
  destruct c as [[] [] [] [] [] [] [] []]; try (by intros [= <- <-]);
    simpl; exact Hexp.
Qed.

Lemma read_unsigned_no_growth neg s v rest :
  read_unsigned neg s = Parsed v rest -> length rest < length s.
Proof.
  unfold read_unsigned.
  destruct (read_int s) as [[int s2]|] eqn:Ei; [|done].
  destruct (read_frac s2) as [[frac s3]|] eqn:Ef; [|done].
  destruct (read_exp s3) as [[exp r]|] eqn:Ee; [|done].
  apply read_int_no_growth in Ei. apply read_frac_no_growth in Ef.
  apply read_exp_no_growth in Ee. intros [= _ <-]. lia.
Qed.

Lemma read_number_no_growth s v rest :
  read_number s = Parsed v rest -> length rest <= length s.
Proof.
  destruct s as [|c s]; [done|].
  assert (H1 : read_unsigned true s = Parsed v rest -> length rest <= length (c :: s)).
  { intros H%read_unsigned_no_growth. simpl. lia. }
  assert (H2 : read_unsigned false (c :: s) = Parsed v rest ->
               length rest <= length (c :: s)).
  { intros H%read_unsigned_no_growth. lia. }
  destruct c as [[] [] [] [] [] [] [] []]; first [exact H1 | exact H2].
Qed.

Lemma read_string_no_growth s cs rest :
  read_string s = Some (cs, rest) -> length rest <= length s.
Proof.
  remember (length s) as n eqn:Hn. revert s Hn cs rest.
  induction (lt_wf n) as [n _ IH]. intros s -> cs rest.
  destruct s as [|c s]; [done|].
  assert (Hplain : forall s' (x : list ascii) cs rest,
    length s' < length (c :: s) ->
    match read_string s' with
    | Some (cs0, r') => Some (x ++ cs0, r')
    | None => None
    end = Some (cs, rest) -> length rest <= length (c :: s)).
  { intros s' x cs0 rest0 Hlen. destruct (read_string s') as [[cs1 r1]|] eqn:E; [|done].
    intros [= _ <-]. apply (IH _ Hlen s' eq_refl) in E. lia. }
  destruct c as [[] [] [] [] [] [] [] []]; simpl;
    try (by apply (Hplain _ [_]); simpl; lia); try done.
  - intros [= _ <-]. simpl. lia.
  - destruct s as [|e s]; [done|].
    destruct e as [[] [] [] [] [] [] [] []]; try done;
      try (by apply (Hplain _ [_]); simpl; lia).
    destruct s as [|a [|b [|c [|d s]]]]; try done.
    destruct (code_unit a b c d) as [n|]; [|done].
    destruct (is_lead n); [|by apply Hplain; simpl; lia].
    destruct s as [|e1 [|e2 [|a' [|b' [|c' [|d' s]]]]]]; try (by apply Hplain; simpl; lia).
    destruct (code_unit a' b' c' d') as [n'|]; [|by apply Hplain; simpl; lia].
    destruct (_ && _); apply Hplain; simpl; lia.
Qed.

Lemma expect_no_growth word s v v' rest :
  expect word s v = Parsed v' rest -> length rest <= length s.
Proof.
  unfold expect. case_decide; [|done]. intros [= _ <-]. rewrite length_drop. lia.
Qed.

Lemma parse_value_S fuel s :
  parse_value (S fuel) s =
  match skip_ws s with
  | "n" :: _ => expect "null" (skip_ws s) JsNull
  | "t" :: _ => expect "true" (skip_ws s) (JsBool true)
  | "f" :: _ => expect "false" (skip_ws s) (JsBool false)
  | "034" :: r =>
      match read_string r with
      | Some (cs, r') => Parsed (JsString (string_of_list_ascii cs)) r'
      | None => Malformed
      end
  | "[" :: r =>
      match skip_ws r with
      | "]" :: r' => Parsed (JsArray []) r'
      | _ =>
          match parse_elements fuel r with
          | Parsed items r' => Parsed (JsArray items) r'
          | Malformed => Malformed
          | NoFuel => NoFuel
          end
      end
  | "{" :: r =>
      match skip_ws r with
      | "}" :: r' => Parsed (JsObject []) r'
      | _ =>
          match parse_members fuel r with
          | Parsed members r' => Parsed (Object_fromEntries members) r'
          | Malformed => Malformed
          | NoFuel => NoFuel
          end
      end
  | _ => read_number (skip_ws s)
  end.
Proof. reflexivity. Qed.

(** What is left after a value is no longer than what was there. *)
Lemma parse_no_growth fuel :
  (forall s v r, parse_value fuel s = Parsed v r -> length r <= length s) /\
  (forall s vs r, parse_elements fuel s = Parsed vs r -> length r <= length s) /\
  (forall s ms r, parse_members fuel s = Parsed ms r -> length r <= length s).
Proof.
  induction fuel as [|fuel (IHv & IHe & IHm)]; [by split_and!|]. split_and!.
  - intros s v r. rewrite parse_value_S. pose proof (skip_ws_no_growth s) as Hs.
    destruct (skip_ws s) as [|c t] eqn:E.
    { intros H%read_number_no_growth. lia. }
    destruct c as [[] [] [] [] [] [] [] []];
      try (intros H%read_number_no_growth; lia);
      try (intros H%expect_no_growth; lia).
    all: lazymatch goal with
         | |- context [parse_elements] =>
             assert (Hel : match parse_elements fuel t with
                           | Parsed items r' => Parsed (JsArray items) r'
                           | Malformed => Malformed
                           | NoFuel => NoFuel
                           end = Parsed v r -> length r <= length s);
             [ destruct (parse_elements fuel t) as [items r'| |] eqn:Ee; try done;
               apply IHe in Ee; intros [= _ <-]; simpl in Hs; lia | ]
         | |- context [parse_members] =>
             assert (Hel : match parse_members fuel t with
                           | Parsed members r' => Parsed (Object_fromEntries members) r'
                           | Malformed => Malformed
                           | NoFuel => NoFuel
                           end = Parsed v r -> length r <= length s);
             [ destruct (parse_members fuel t) as [members r'| |] eqn:Ee; try done;
               apply IHm in Ee; intros [= _ <-]; simpl in Hs; lia | ]
         | |- _ =>
             destruct (read_string t) as [[cs r']|] eqn:Er; [|done];
             apply read_string_no_growth in Er; intros [= _ <-]; simpl in Hs; lia
         end.
    all: pose proof (skip_ws_no_growth t) as Ht;
      (destruct (skip_ws t) as [|c t'] eqn:E'; [done|]);
      destruct c as [[] [] [] [] [] [] [] []]; try done;
      intros [= _ <-]; simpl in *; lia.
  - intros s vs r. rewrite parse_elements_S.
    destruct (parse_value fuel s) as [v r1| |] eqn:Ev; try done. apply IHv in Ev.
    pose proof (skip_ws_no_growth r1) as Hr1.
    destruct (skip_ws r1) as [|c t] eqn:E; [done|].
    destruct c as [[] [] [] [] [] [] [] []]; try done.
    all: try (destruct (parse_elements fuel t) as [vs' r2| |] eqn:Ee; try done;
              apply IHe in Ee).
    all: intros [= _ <-]; simpl in *; lia.
  - intros s ms r. rewrite parse_members_S.
    pose proof (skip_ws_no_growth s) as Hs.
    destruct (skip_ws s) as [|c t] eqn:E; [done|].
    destruct c as [[] [] [] [] [] [] [] []]; try done.
    destruct (read_string t) as [[k r1]|] eqn:Er; [|done].
    apply read_string_no_growth in Er.
    pose proof (skip_ws_no_growth r1) as Hr1.
    destruct (skip_ws r1) as [|c t2] eqn:E1; [done|].
    destruct c as [[] [] [] [] [] [] [] []]; try done.
    destruct (parse_value fuel t2) as [v r3| |] eqn:Ev; try done. apply IHv in Ev.
    pose proof (skip_ws_no_growth r3) as Hr3.
    destruct (skip_ws r3) as [|c t4] eqn:E3; [done|].
    destruct c as [[] [] [] [] [] [] [] []]; try done.
    all: try (destruct (parse_members fuel t4) as [ms' r5| |] eqn:Em; try done;
              apply IHm in Em).
    all: intros [= _ <-]; simpl in *; lia.
Qed.

Lemma read_unsigned_fuel neg s : read_unsigned neg s <> NoFuel.
Proof.
  unfold read_unsigned.
  destruct (read_int s) as [[int s2]|]; [|done].
  destruct (read_frac s2) as [[frac s3]|]; [|done].
  by destruct (read_exp s3) as [[exp r]|].
Qed.

Lemma read_number_fuel s : read_number s <> NoFuel.
Proof.
  destruct s as [|c s]; [apply read_unsigned_fuel|].
  destruct c as [[] [] [] [] [] [] [] []]; apply read_unsigned_fuel.
Qed.

Lemma expect_fuel word s v : expect word s v <> NoFuel.
Proof. unfold expect. by case_decide. Qed.

(** Two units of budget for each character, and one more, are enough:
    the reading never stops for want of budget. *)
Lemma parse_fuel_enough fuel :
  (forall s, 2 * length s + 1 <= fuel -> parse_value fuel s <> NoFuel) /\
  (forall s, 2 * length s + 2 <= fuel -> parse_elements fuel s <> NoFuel) /\
  (forall s, 2 * length s + 2 <= fuel -> parse_members fuel s <> NoFuel).
Proof.
  induction fuel as [|fuel (IHv & IHe & IHm)]; [split_and!; intros; lia|].
  destruct (parse_no_growth fuel) as (Gv & Ge & Gm). split_and!.
  - intros s Hfuel. rewrite parse_value_S. pose proof (skip_ws_no_growth s) as Hs.
    destruct (skip_ws s) as [|c t] eqn:E; [apply read_number_fuel|].
    destruct c as [[] [] [] [] [] [] [] []];
      try apply read_number_fuel; try apply expect_fuel.
    all: lazymatch goal with
         | |- context [parse_elements] =>
             assert (Hel : match parse_elements fuel t with
                           | Parsed items r' => Parsed (JsArray items) r'
                           | Malformed => Malformed
                           | NoFuel => NoFuel
                           end <> NoFuel);
             [ destruct (parse_elements fuel t) as [items r'| |] eqn:Ee; try done;
               apply IHe in Ee; [done | simpl in Hs; lia] | ]
         | |- context [parse_members] =>
             assert (Hel : match parse_members fuel t with
                           | Parsed members r' => Parsed (Object_fromEntries members) r'
                           | Malformed => Malformed
                           | NoFuel => NoFuel
                           end <> NoFuel);
             [ destruct (parse_members fuel t) as [members r'| |] eqn:Ee; try done;
               apply IHm in Ee; [done | simpl in Hs; lia] | ]
         | |- _ => by destruct (read_string t) as [[cs r']|]
         end.
    all: (destruct (skip_ws t) as [|c t'] eqn:E'; [done|]);
      by destruct c as [[] [] [] [] [] [] [] []].
  - intros s Hfuel. rewrite parse_elements_S.
    destruct (parse_value fuel s) as [v r1| |] eqn:Ev; [|done|].
    2:{ apply IHv in Ev; [done|lia]. }
    apply Gv in Ev. pose proof (skip_ws_no_growth r1) as Hr1.
    destruct (skip_ws r1) as [|c t] eqn:E; [done|].
    destruct c as [[] [] [] [] [] [] [] []]; try done.
    destruct (parse_elements fuel t) as [vs' r2| |] eqn:Ee; try done.
    apply IHe in Ee; [done | simpl in *; lia].
  - intros s Hfuel. rewrite parse_members_S.
    pose proof (skip_ws_no_growth s) as Hs.
    destruct (skip_ws s) as [|c t] eqn:E; [done|].
    destruct c as [[] [] [] [] [] [] [] []]; try done.
    destruct (read_string t) as [[k r1]|] eqn:Er; [|done].
    apply read_string_no_growth in Er.
    pose proof (skip_ws_no_growth r1) as Hr1.
    destruct (skip_ws r1) as [|c t2] eqn:E1; [done|].
    destruct c as [[] [] [] [] [] [] [] []]; try done.
    destruct (parse_value fuel t2) as [v r3| |] eqn:Ev; [|done|].
    2:{ apply IHv in Ev; [done | simpl in *; lia]. }
    apply Gv in Ev. pose proof (skip_ws_no_growth r3) as Hr3.
    destruct (skip_ws r3) as [|c t4] eqn:E3; [done|].
    destruct c as [[] [] [] [] [] [] [] []]; try done.
    destruct (parse_members fuel t4) as [ms' r5| |] eqn:Em; try done.
    apply IHm in Em; [done | simpl in *; lia].
Qed.

(** [JSON_parse] throws on malformed text only. *)
Lemma JSON_parse_throws text e :
  JSON_parse text = Throw e ->
  e = SyntaxError /\
  (parse_value (S (2 * length (list_ascii_of_string text))) (list_ascii_of_string text)
     = Malformed \/
   exists v rest,
     parse_value (S (2 * length (list_ascii_of_string text))) (list_ascii_of_string text)
       = Parsed v rest /\ skip_ws rest <> []).
Proof.
  unfold JSON_parse.
  destruct (parse_value _ _) as [v rest| |] eqn:E.
  - destruct (skip_ws rest) eqn:Er; [done|]. intros [= <-]. split; [done|].
    right. exists v, rest. by rewrite Er.
  - intros [= <-]. by split; [|left].
  - exfalso. revert E. apply (proj1 (parse_fuel_enough _)). lia.
Qed.

(** Every plain value is read back from its text. *)
Lemma print_reads_back v : is_json v = true -> reads_back v.
Proof.
  induction v as [|b|n|k|items IH|props IH|l] using JsValue_nested_ind;
    intros Hjson fuel rest Hfuel Hrest.
  all: destruct fuel as [|fuel];
    [ match goal with
      | H : 2 * length (print ?v ++ _) <= 0 |- _ =>
          destruct (print_head v Hjson) as (c0 & s0 & Hc0 & _); rewrite Hc0 in H;
          simpl in H; lia
      end | ].
  - reflexivity.
  - by destruct b.
  - destruct (print_number_head n Hjson) as (c & s & Hc & Hhead).
    change (print (JsNumber n)) with (print_number n).
    rewrite <- (read_number_print_number n rest Hjson Hrest).
    rewrite Hc. simpl. by apply parse_value_number.
  - change (print (JsString k)) with (quote k).
    destruct (read_string_quote k rest) as (body & -> & Hbody).
    by rewrite parse_value_string, Hbody, string_of_list_ascii_of_string.
  - change (print (JsArray items)) with ("[" :: join (map print items) ++ ["]"]) in *.
    rewrite <- app_comm_cons, <- app_assoc in *. cbn [app] in *.
    destruct items as [|x items]; [reflexivity|].
    change (forallb is_json (x :: items) = true) in Hjson.
    rewrite forallb_forall in Hjson.
    assert (Hall : Forall reads_back (x :: items)).
    { apply Forall_forall. intros y Hy.
      apply (proj1 (Forall_forall _ _) IH y Hy), Hjson. by apply list_elem_of_In. }
    destruct (join_head (map print (x :: items))) as (c & s & Hc & Hstart); [done| |].
    { apply Forall_forall. intros part (y & -> & Hy)%list_elem_of_fmap.
      apply print_head, Hjson. by apply list_elem_of_In. }
    cbn [length] in Hfuel.
    pose proof (parse_elements_join (x :: items) ltac:(done) Hall fuel rest) as Hel.
    rewrite Hc in *. rewrite <- app_comm_cons in *.
    rewrite parse_value_array by done. rewrite Hel; [done|lia].
  - change (print (JsObject props))
      with ("{" :: join (map (fun kv => quote kv.1 ++ ":" :: print kv.2) props) ++ ["}"]) in *.
    rewrite <- app_comm_cons, <- app_assoc in *. cbn [app] in *.
    destruct props as [|kx props]; [reflexivity|].
    change (keys_ordered (kx :: props).*1
            && forallb (fun kv => is_json kv.2) (kx :: props) = true) in Hjson.
    apply andb_prop in Hjson as [Hkeys Hvals].
    rewrite forallb_forall in Hvals.
    assert (Hall : Forall (fun kv => reads_back kv.2) (kx :: props)).
    { apply Forall_forall. intros y Hy.
      apply (proj1 (Forall_forall _ _) IH y Hy), Hvals. by apply list_elem_of_In. }
    destruct (join_head (map (fun kv => quote kv.1 ++ ":" :: print kv.2) (kx :: props)))
      as (c & s & Hc & Hstart); [done| |].
    { apply Forall_forall. intros part ([k y] & -> & _)%list_elem_of_fmap.
      destruct (quote_head k (":" :: print y)) as [body Hb].
      exists "034", body. by split. }
    cbn [length] in Hfuel.
    pose proof (parse_members_join (kx :: props) ltac:(done) Hall fuel rest) as Hel.
    rewrite Hc in *. rewrite <- app_comm_cons in *.
    rewrite parse_value_object by done. rewrite Hel; [|lia].
    by rewrite Object_fromEntries_ordered.
  - done.
Qed.

(** [JSON.parse(JSON.stringify(v))] is [v], for every plain value. *)
Lemma JSON_parse_stringify v : is_json v = true -> JSON_parse (JSON_stringify v) = Ok v.
Proof.
  intros Hjson. unfold JSON_parse, JSON_stringify.
  rewrite list_ascii_of_string_of_list_ascii.
  pose proof (print_reads_back v Hjson (S (2 * length (print v))) []) as H.
  rewrite app_nil_r in H. rewrite H; [done|lia|done].
Qed.

End JsonText.

(** ** The enumeration order of a plain record *)

Section Enumeration.

Import Json.

Implicit Types (k : string) (v : JsValue) (props es : list (string * JsValue)).

Lemma comes_before_asym a b : comes_before a b = true -> comes_before b a = false.
Proof.
  unfold comes_before.
  destruct (array_index a) as [i|], (array_index b) as [j|]; try done.
  intros H%N.ltb_lt. apply N.ltb_ge. lia.
Qed.

Lemma comes_before_trans a b c :
  comes_before a b = true -> comes_before b c = true -> comes_before a c = true.
Proof.
  unfold comes_before.
  destruct (array_index a) as [i|], (array_index b) as [j|], (array_index c) as [n|];
    try done.
  intros H1%N.ltb_lt H2%N.ltb_lt. apply N.ltb_lt. lia.
Qed.

Lemma may_follow_spec a b :
  may_follow a b = true <-> a <> b /\ comes_before b a = false.
Proof.
  unfold may_follow. rewrite andb_true_iff, !negb_true_iff.
  destruct (String.eqb_spec a b); naive_solver.
Qed.

Lemma keys_ordered_cons k ks :
  keys_ordered (k :: ks) = true <->
  Forall (fun k' => may_follow k k' = true) ks /\ keys_ordered ks = true.
Proof.
  simpl. rewrite andb_true_iff, forallb_forall, Forall_forall.
  split; intros [H1 H2]; (split; [|done]); intros x Hx; apply H1; by apply list_elem_of_In.
Qed.

Lemma define_property_keys k v props :
  forall x, x ∈ (define_property k v props).*1 <-> x = k \/ x ∈ props.*1.
Proof.
  induction props as [|[k0 v0] props IH]; intros x; csimpl.
  - rewrite list_elem_of_singleton, elem_of_nil. naive_solver.
  - destruct (String.eqb_spec k0 k) as [->|Hne]; csimpl.
    + rewrite !elem_of_cons. naive_solver.
    + destruct (comes_before k k0); csimpl; rewrite !elem_of_cons, ?IH; naive_solver.
Qed.

(** Defining a property keeps the keys in enumeration order. *)
Lemma define_property_ordered k v props :
  keys_ordered props.*1 = true -> keys_ordered (define_property k v props).*1 = true.
Proof.
  induction props as [|[k0 v0] props IH]; [done|].
  change (((k0, v0) :: props).*1) with (k0 :: props.*1).
  intros Hord. pose proof Hord as [Hk0 Hrest]%keys_ordered_cons.
  cbn [define_property]. destruct (String.eqb_spec k0 k) as [->|Hne]; [done|].
  destruct (comes_before k k0) eqn:Hbefore.
  - change (keys_ordered (k :: k0 :: props.*1) = true).
    apply keys_ordered_cons. split; [|done].
    constructor.
    { apply may_follow_spec. split; [done|by apply comes_before_asym]. }
    apply Forall_forall. intros x Hx. apply may_follow_spec.
    apply (proj1 (Forall_forall _ _) Hk0), may_follow_spec in Hx as [Hx1 Hx2].
    split.
    + intros ->. congruence.
    + destruct (comes_before x k) eqn:Hxk; [|done].
      by rewrite (comes_before_trans _ _ _ Hxk Hbefore) in Hx2.
  - change (keys_ordered (k0 :: (define_property k v props).*1) = true).
    apply keys_ordered_cons. split; [|by apply IH].
    apply Forall_forall. intros x Hx. apply define_property_keys in Hx as [->|Hx].
    + by apply may_follow_spec.
    + by apply (proj1 (Forall_forall _ _) Hk0).
Qed.

Lemma define_property_perm k v props :
  k ∉ props.*1 -> define_property k v props ≡ₚ (k, v) :: props.
Proof.
  induction props as [|[k0 v0] props IH]; csimpl; [done|].
  intros Hk. apply not_elem_of_cons in Hk as [Hne Hk].
  destruct (String.eqb_spec k0 k) as [->|_]; [done|].
  destruct (comes_before k k0); [done|].
  rewrite IH by done. apply Permutation_swap.
Qed.

Lemma define_property_values (P : JsValue -> Prop) k v props :
  P v -> Forall (fun kv => P kv.2) props ->
  Forall (fun kv => P kv.2) (define_property k v props).
Proof.
  intros Hv. induction 1 as [|[k0 v0] props H0 Hprops IH]; simpl.
  - by repeat constructor.
  - destruct (String.eqb k0 k); [by constructor|].
    destruct (comes_before k k0); by repeat constructor.
Qed.

Lemma keys_ordered_NoDup ks : keys_ordered ks = true -> NoDup ks.
Proof.
  induction ks as [|k ks IH]; [constructor|].
  intros [Hk Hks]%keys_ordered_cons. constructor; [|by apply IH].
  intros Hin. apply (proj1 (Forall_forall _ _) Hk), may_follow_spec in Hin. naive_solver.
Qed.

Lemma enumerated_snoc es k v :
  enumerated (es ++ [(k, v)]) = define_property k v (enumerated es).
Proof. unfold enumerated. by rewrite fold_left_app. Qed.

Lemma enumerated_ordered es : keys_ordered (enumerated es).*1 = true.
Proof.
  induction es as [|[k v] es IH] using rev_ind; [done|].
  rewrite enumerated_snoc. by apply define_property_ordered.
Qed.

Lemma enumerated_perm es : NoDup es.*1 -> enumerated es ≡ₚ es.
Proof.
  induction es as [|[k v] es IH] using rev_ind; [done|].
  rewrite fmap_app. intros (Hes & Hk & _)%NoDup_app.
  rewrite enumerated_snoc, define_property_perm.
  - rewrite IH by done. apply Permutation_cons_append.
  - rewrite (IH Hes). intros Hin. apply (Hk k Hin). csimpl. left.
Qed.

Lemma enumerated_values (P : JsValue -> Prop) es :
  Forall (fun kv => P kv.2) es -> Forall (fun kv => P kv.2) (enumerated es).
Proof.
  induction es as [|[k v] es IH] using rev_ind; [done|].
  intros [Hes Hv]%Forall_app. rewrite enumerated_snoc.
  apply define_property_values; [by inversion Hv | by apply IH].
Qed.

(** Entries already in enumeration order come out as they went in. *)
Lemma enumerated_of_ordered es : keys_ordered es.*1 = true -> enumerated es = es.
Proof.
  intros H. pose proof (Object_fromEntries_ordered es H) as Heq.
  unfold Object_fromEntries in Heq. by injection Heq.
Qed.

(** Keys none of which is an array index are in enumeration order as
    soon as they are distinct. *)
Lemma keys_ordered_no_index ks :
  NoDup ks -> Forall (fun k => array_index k = None) ks -> keys_ordered ks = true.
Proof.
  induction 1 as [|k ks Hk Hnd IH]; [done|].
  intros [Hidx Hrest]%Forall_cons. apply keys_ordered_cons. split; [|by apply IH].
  apply Forall_forall. intros x Hx. apply may_follow_spec. split; [by intros ->|].
  unfold comes_before. by rewrite (proj1 (Forall_forall _ _) Hrest x Hx).
Qed.

End Enumeration.

(** ** The storage codec of the favorites store *)

Section EnumerationOrder.

Import Json.

Implicit Types (k : string) (v : JsValue) (props es : list (string * JsValue)).

Lemma read_digits_inv s u rest : read_digits s = (u, rest) -> s = digits u ++ rest.
Proof.
  revert u rest. induction s as [|c s IH]; intros u rest; simpl.
  - by intros [= <- <-].
  - destruct (digit c) as [d|] eqn:Hd; [|by intros [= <- <-]].
    destruct (read_digits s) as [u' r'] eqn:Hs. intros [= <- <-].
    rewrite (IH u' r' eq_refl).
    destruct c as [[] [] [] [] [] [] [] []]; simpl in Hd; try discriminate;
      by injection Hd as <-.
Qed.

Lemma canonical_inj u u' :
  canonical u = true -> canonical u' = true -> N.of_uint u = N.of_uint u' -> u = u'.
Proof.
  unfold canonical. intros H%Decimal.internal_uint_dec_bl H'%Decimal.internal_uint_dec_bl Heq.
  rewrite <- H, <- H', <- !DecimalN.Unsigned.to_of. by rewrite Heq.
Qed.

(** Two keys that are the same array index are the same key. *)
Lemma array_index_inj a b i : array_index a = Some i -> array_index b = Some i -> a = b.
Proof.
  unfold array_index.
  destruct (read_digits (list_ascii_of_string a)) as [u [|]] eqn:Ha; [|done].
  destruct (read_digits (list_ascii_of_string b)) as [u' [|]] eqn:Hb; [|done].
  destruct (canonical u) eqn:Hu; [|done]. destruct (canonical u') eqn:Hu'; [|done].
  simpl. repeat case_match; try done. intros [= <-] [= Heq].
  apply read_digits_inv in Ha, Hb. rewrite app_nil_r in Ha, Hb.
  rewrite <- (string_of_list_ascii_of_string a), <- (string_of_list_ascii_of_string b).
  rewrite Ha, Hb. f_equal. f_equal. by apply canonical_inj.
Qed.

Lemma is_index_false k : is_index k = false <-> array_index k = None.
Proof. unfold is_index. by destruct (array_index k). Qed.

(** Keys in enumeration order: the array indices come first. *)
Lemma keys_ordered_indices_first ks :
  keys_ordered ks = true ->
  ks = List.filter is_index ks ++ List.filter (fun k => negb (is_index k)) ks.
Proof.
  induction ks as [|k ks IH]; [done|].
  intros [Hk Hks]%keys_ordered_cons. simpl. destruct (is_index k) eqn:Hidx; simpl.
  - f_equal. by apply IH.
  - assert (Hnone : Forall (fun x => is_index x = false) ks).
    { apply Forall_forall. intros x Hx.
      apply (proj1 (Forall_forall _ _) Hk), may_follow_spec in Hx as [_ Hx].
      unfold comes_before in Hx. apply is_index_false in Hidx. rewrite Hidx in Hx.
      unfold is_index. by destruct (array_index x). }
    clear IH Hk Hks.
    assert (Hsplit : List.filter is_index ks = []
                     /\ List.filter (fun k => negb (is_index k)) ks = ks).
    { induction Hnone as [|x ks Hx _ [IH1 IH2]]; [done|]. simpl. rewrite Hx. simpl.
      by rewrite IH2. }
    destruct Hsplit as [-> ->]. done.
Qed.

(** Keys in enumeration order: the array indices ascend. *)
Lemma keys_ordered_indices_ascend ks :
  keys_ordered ks = true ->
  StronglySorted (fun a b => (index_of a < index_of b)%N) (List.filter is_index ks).
Proof.
  induction ks as [|k ks IH]; [constructor|].
  intros [Hk Hks]%keys_ordered_cons. simpl. destruct (is_index k) eqn:Hidx; [|by apply IH].
  constructor; [by apply IH|].
  apply List.Forall_forall. intros x [Hx Hxi]%filter_In.
  apply list_elem_of_In, (proj1 (Forall_forall _ _) Hk), may_follow_spec in Hx as [Hne Hx].
  unfold comes_before, is_index, index_of in *.
  destruct (array_index k) as [i|] eqn:Hi; [|done].
  destruct (array_index x) as [j|] eqn:Hj; [|done]. simpl.
  apply N.ltb_ge in Hx. destruct (decide (i = j)) as [->|]; [|lia].
  destruct Hne. by apply (array_index_inj _ _ j).
Qed.

Lemma define_property_other_keys k v props :
  k ∉ props.*1 ->
  List.filter (fun k => negb (is_index k)) (define_property k v props).*1 =
  List.filter (fun k => negb (is_index k)) (props.*1 ++ [k]).
Proof.
  induction props as [|[k0 v0] props IH]; [done|].
  intros [Hne Hk]%not_elem_of_cons. cbn [define_property].
  destruct (String.eqb_spec k0 k) as [->|_]; [done|].
  destruct (comes_before k k0) eqn:Hbefore.
  - assert (Hidx : is_index k = true).
    { unfold comes_before in Hbefore. unfold is_index. by destruct (array_index k). }
    change (((k, v) :: (k0, v0) :: props).*1) with (k :: ((k0, v0) :: props).*1).
    rewrite List.filter_app. cbn [List.filter]. rewrite Hidx. simpl.
    by rewrite app_nil_r.
  - csimpl. destruct (negb (is_index k0)); rewrite (IH Hk); done.
Qed.

(** The keys of the record that are no array index keep the order the
    entries have. *)
Lemma enumerated_other_keys es :
  NoDup es.*1 ->
  List.filter (fun k => negb (is_index k)) (enumerated es).*1 =
  List.filter (fun k => negb (is_index k)) es.*1.
Proof.
  induction es as [|[k v] es IH] using rev_ind; [done|].
  rewrite fmap_app. intros (Hes & Hk & _)%NoDup_app.
  rewrite enumerated_snoc, define_property_other_keys.
  - by rewrite !List.filter_app, IH.
  - rewrite (enumerated_perm es Hes). intros Hin. apply (Hk k Hin). csimpl. left.
Qed.

End EnumerationOrder.

Section IntegerNumbers.

Import Json.
Local Open Scope char_scope.

Lemma digits_all_digit u : forallb is_digit (digits u) = true.
Proof. induction u; simpl; done. Qed.

Lemma nzhead_head u :
  match Decimal.nzhead u with Decimal.D0 _ => False | _ => True end.
Proof. induction u; done. Qed.

Lemma digits_to_uint_head (n : N) :
  n <> 0%N -> exists d r, digits (N.to_uint n) = d :: r /\ d <> "0".
Proof.
  intros Hn. pose proof (canonical_to_uint n) as Hc. unfold canonical in Hc.
  apply Decimal.internal_uint_dec_bl in Hc.
  destruct (N.to_uint n) as [|u|u|u|u|u|u|u|u|u|u] eqn:Hu;
    try (by eexists _, _; split; [reflexivity|]).
  - discriminate.
  - exfalso. unfold Decimal.unorm in Hc. simpl in Hc.
    pose proof (nzhead_head u) as Hh.
    destruct (Decimal.nzhead u) eqn:Hz; try done.
    injection Hc as <-. apply Hn.
    by rewrite <- (DecimalN.Unsigned.of_to n), Hu.
Qed.

(** Digits that start with no zero: a core that ends with no zero, and
    the zeros after it. *)
Lemma digits_core d (r : list ascii) :
  d <> "0" ->
  exists ds m, d :: r = (d :: ds) ++ replicate m "0" /\ List.last ds d <> "0".
Proof.
  intros Hd. induction r as [|c r (ds & m & Heq & Hlast)] using rev_ind.
  - by exists [], 0.
  - destruct (decide (c = "0")) as [->|Hc].
    + exists ds, (S m). split; [|done].
      rewrite app_comm_cons, Heq, <- app_assoc. f_equal.
      change ["0"] with (replicate 1 "0"). rewrite <- replicate_add.
      by replace (m + 1) with (S m) by lia.
    + exists (r ++ [c]), 0. rewrite app_nil_r. split; [done|].
      by rewrite List.last_last.
Qed.

(** The number of an integer is one whose text is read back. *)
Lemma number_of_Z_canonical (z : Z) : canonical_number (number_of_Z z) = true.
Proof.
  destruct (decide (z = 0%Z)) as [->|Hz]; [done|].
  unfold number_of_Z.
  destruct (digits_to_uint_head (Z.abs_N z)) as (d & r & Hdig & Hd); [lia|].
  destruct (digits_core d r Hd) as (ds & m & Hcore & Hlast).
  pose proof (digits_all_digit (N.to_uint (Z.abs_N z))) as Hall.
  rewrite Hdig in *.
  rewrite (number_of_digits_zeros _ (d :: r) [] _ d ds 0 m);
    [|by rewrite app_nil_r, Hcore|done|done].
  unfold canonical_number. cbn [significand point].
  rewrite Hcore, forallb_app in Hall. apply andb_true_iff in Hall as [-> _].
  apply Ascii.eqb_neq in Hd, Hlast. rewrite Hd, Hlast. simpl.
  apply Z.leb_le. lia.
Qed.

End IntegerNumbers.

Section Codec.

Import Json FavoritesStore.

Implicit Types (w : World) (l : loc) (es : Entries) (slots : gmap string string).

Lemma forallb_is_json (props : list (string * JsValue)) :
  Forall (fun kv => is_json kv.2 = true) props ->
  forallb (fun kv => is_json kv.2) props = true.
Proof.
  intros H. apply forallb_forall. intros kv Hin.
  by apply (proj1 (Forall_forall _ _) H), list_elem_of_In.
Qed.

Lemma stored_record_is_json es ver :
  Forall (fun kv => is_json kv.2 = true) es -> is_json (stored_record es ver) = true.
Proof.
  intros Hes.
  assert (Hfav : is_json (JsObject (enumerated es)) = true).
  { change (keys_ordered (enumerated es).*1
            && forallb (fun kv => is_json kv.2) (enumerated es) = true).
    rewrite enumerated_ordered.
    by apply forallb_is_json, (enumerated_values (fun v => is_json v = true)). }
  unfold stored_record.
  destruct ver as [n|]; cbn [optional fmap option_fmap option_map app].
  - change (true && (is_json (JsObject (enumerated es)) && true
                     && (canonical_number (number_of_Z n) && true)) = true).
    by rewrite Hfav, number_of_Z_canonical.
  - change (true && (is_json (JsObject (enumerated es)) && true && true) = true).
    by rewrite Hfav.
Qed.

Lemma stored_text_head es ver : exists t, stored_text es ver = String "{" t.
Proof. unfold stored_text, JSON_stringify, stored_record. simpl. eauto. Qed.

Lemma setItem_run w l es value key :
  favorites (sv_state value) = FavoritesMap l ->
  heap w !! l = Some (HMap es) ->
  setItem key value w =
  (write_outcome w,
   with_localStorage (<[key := stored_text es (sv_version value)]> <$> localStorage w) w).
Proof.
  intros Hf Hl. unfold setItem, favorites_fromEntries, bind.
  rewrite Hf. unfold bind. rewrite (Map_entries_run _ _ _ Hl).
  unfold ret, localStorage_setItem, write_outcome.
  destruct (localStorage w) eqn:Hls; [done|].
  destruct w; simpl in *; by subst.
Qed.

(** [getItem] on a slot [setItem] has written: the parsed record, its
    favorites a new [Map] of the record's properties. *)
Lemma getItem_stored w es ver slots key :
  localStorage w = Some slots ->
  slots !! key = Some (stored_text es ver) ->
  Forall (fun kv => is_json kv.2 = true) es ->
  getItem key w =
  (Ok (JsObject ([("state", JsObject [("favorites", JsMap (fresh (dom (heap w))))])]
                 ++ optional "version" ((fun n : Z => JsNumber n) <$> ver))),
   with_heap (<[fresh (dom (heap w)) := HMap (enumerated es)]> (heap w)) w).
Proof.
  intros Hls Hslot Hes. unfold getItem, bind, localStorage_getItem.
  rewrite Hls, Hslot. destruct (stored_text_head es ver) as [t Ht].
  rewrite Ht. cbv iota beta. rewrite <- Ht. unfold stored_text, lift.
  rewrite JSON_parse_stringify by by apply stored_record_is_json.
  unfold stored_record. simpl.
  unfold new_Map, alloc, bind, ret. simpl.
  rewrite entries_of_iterable_NoDup; [done|].
  apply keys_ordered_NoDup, enumerated_ordered.
Qed.

Lemma hydrate_stored w es slots :
  localStorage w = Some slots ->
  slots !! name = Some (stored_text es (Some version)) ->
  Forall (fun kv => is_json kv.2 = true) es ->
  hydrate w = (Ok tt, replaced w (enumerated es)).
Proof.
  intros Hls Hslot Hes. unfold hydrate, try_catch, bind.
  by rewrite (getItem_stored w es (Some version) slots name Hls Hslot Hes).
Qed.

(** The hydration never throws. *)
Lemma hydrate_never_throws w : eval hydrate w = Ok tt.
Proof.
  unfold eval, hydrate, try_catch.
  match goal with |- context [match ?m with _ => _ end] => destruct m as [[[]|e] w'] end;
    reflexivity.
Qed.

Lemma entries_has_perm key es es' : es ≡ₚ es' -> entries_has key es = entries_has key es'.
Proof.
  intros Hp. destruct (entries_has key es') eqn:H'.
  - apply entries_has_elem_of. apply entries_has_elem_of in H'. by rewrite Hp.
  - apply entries_has_false. apply entries_has_false in H'. by rewrite Hp.
Qed.

(** The round trip of C4 for two products whose ids are array indices:
    added as "2" then "1", saved, and read back on the next load as
    "1" then "2". *)
Lemma reload_reorders_index_ids :
  favorites_keys page_with_indices = Ok ["2"; "1"] /\
  favorites_keys (exec hydrate (reload page_with_indices)) = Ok ["1"; "2"].
Proof. vm_compute. done. Qed.

(** Saving: the slot holds the text of the record, where there is a
    storage to hold it. *)
Lemma save_run w l es :
  favorites_at w l es -> save w = (write_outcome w, written es w).
Proof. intros (Hf & Hl & _). unfold save. by apply (setItem_run w l). Qed.

(** Saving, then loading the page again: the store refers to a new
    [Map] of the record's properties. *)
Lemma save_then_hydrate w l es :
  favorites_at w l es ->
  plain_entries es ->
  eval save w = Ok tt ->
  let saved := exec save w in
  localStorage saved =
    (<[name := stored_text es (Some version)]> <$> localStorage w) /\
  hydrate (reload saved) = (Ok tt, replaced (reload saved) (enumerated es)) /\
  favorites_at (replaced (reload saved) (enumerated es))
    (fresh (dom (heap (reload saved)))) (enumerated es).
Proof.
  intros H Hes Hsave saved. pose proof (save_run w l es H) as Hrun.
  unfold eval in Hsave. rewrite Hrun in Hsave. simpl in Hsave.
  subst saved. unfold exec. rewrite Hrun. cbn [snd].
  unfold write_outcome in Hsave. destruct (localStorage w) as [slots|] eqn:Hls; [|done].
  assert (Hsaved : localStorage (written es w)
                   = Some (<[name := stored_text es (Some version)]> slots)).
  { unfold written. by rewrite Hls. }
  split_and!.
  - by rewrite Hsaved.
  - apply (hydrate_stored _ es (<[name := stored_text es (Some version)]> slots));
      [done | apply lookup_insert_eq | done].
  - apply favorites_at_replaced, keys_ordered_NoDup, enumerated_ordered.
Qed.

(** C4, amended.  Where the save is made, it writes the favorites as a
    plain record under [state.favorites], and the next load reads a
    [Map] with the properties of that record in their order.  The [Map]
    read back has the entries of the one saved: the same ids are
    favorites, [count()] is the same.  Its keys come in the order of
    the record: the ids that are array indices first, in ascending
    numeric order, the other ids after them in the order they had in
    the [Map] saved; so the order of the keys is the same when no id is
    an array index. *)
Theorem favorites_survive_reload w l es :
  favorites_at w l es ->
  plain_entries es ->
  eval save w = Ok tt ->
  let saved := exec save w in
  let w' := exec hydrate (reload saved) in
  localStorage saved = (<[name := stored_text es (Some version)]> <$> localStorage w) /\
  eval hydrate (reload saved) = Ok tt /\
  exists es',
    favorites_entries w' = Ok es' /\
    es' ≡ₚ es /\
    (forall productId,
       eval (isFavorite productId) w' = eval (isFavorite productId) w) /\
    eval getFavoritesCount w' = eval getFavoritesCount w /\
    es'.*1 = List.filter is_index es'.*1
             ++ List.filter (fun k => negb (is_index k)) es'.*1 /\
    StronglySorted (fun a b => (index_of a < index_of b)%N)
      (List.filter is_index es'.*1) /\
    List.filter (fun k => negb (is_index k)) es'.*1
      = List.filter (fun k => negb (is_index k)) es.*1 /\
    (Forall (fun k => is_index k = false) es.*1 -> es' = es).
Proof.
  intros H Hes Hsave saved w'. pose proof H as (Hf & Hl & Hnd).
  destruct (save_then_hydrate w l es H Hes Hsave) as (Hsaved & Hhyd & H').
  fold saved in Hsaved, Hhyd, H'.
  assert (Hw' : w' = replaced (reload saved) (enumerated es)).
  { unfold w', exec. by rewrite Hhyd. }
  rewrite <- Hw' in H'. pose proof (enumerated_perm es Hnd) as Hperm.
  split; [done|].
  split; [unfold eval; by rewrite Hhyd|].
  exists (enumerated es).
  split; [by apply (favorites_entries_at _ _ _ H')|].
  split; [done|]. split_and!.
  - intros productId. unfold eval.
    rewrite (isFavorite_run _ _ _ _ H'), (isFavorite_run _ _ _ _ H). simpl.
    f_equal. by apply entries_has_perm.
  - unfold eval. rewrite (getFavoritesCount_run _ _ _ H'), (getFavoritesCount_run _ _ _ H).
    simpl. do 2 f_equal. by apply Permutation_length.
  - apply keys_ordered_indices_first, enumerated_ordered.
  - apply keys_ordered_indices_ascend, enumerated_ordered.
  - by apply enumerated_other_keys.
  - intros Hidx. apply enumerated_of_ordered, keys_ordered_no_index; [done|].
    eapply Forall_impl; [exact Hidx|]. intros k. apply is_index_false.
Qed.

Lemma page_with_two_favorites : favorites_at page_with_two 3%positive two_entries.
Proof.
  split_and!; [reflexivity | reflexivity |].
  apply (bool_decide_unpack _). vm_compute. reflexivity.
Qed.

Lemma page_with_headphones_favorites :
  favorites_at page_with_headphones 3%positive headphones_entries.
Proof.
  split_and!; [reflexivity | reflexivity |].
  apply (bool_decide_unpack _). vm_compute. reflexivity.
Qed.

Lemma plain_entries_decide es :
  forallb (fun kv => is_json kv.2) es = true -> plain_entries es.
Proof.
  intros H. apply Forall_forall. intros kv Hin.
  by apply (proj1 (forallb_forall _ _) H), list_elem_of_In.
Qed.

Lemma two_entries_plain : plain_entries two_entries.
Proof. apply plain_entries_decide. vm_compute. reflexivity. Qed.

Lemma headphones_entries_plain : plain_entries headphones_entries.
Proof. apply plain_entries_decide. vm_compute. reflexivity. Qed.

Lemma favorites_survive_reload_witness :
  favorites_at page_with_two 3%positive two_entries /\
  plain_entries two_entries /\
  eval save page_with_two = Ok tt /\
  let w' := exec hydrate (reload (exec save page_with_two)) in
  eval (isFavorite "p1") w' = Ok true /\
  eval (isFavorite "p2") w' = Ok true /\
  eval getFavoritesCount w' = Ok (Some 2).
Proof.
  split; [exact page_with_two_favorites|]. split; [exact two_entries_plain|].
  split; [reflexivity|].
  destruct (favorites_survive_reload page_with_two 3%positive two_entries
    page_with_two_favorites two_entries_plain eq_refl)
    as (_ & _ & es' & _ & _ & Hfav & Hcount & _).
  split; [exact (Hfav "p1")|]. split; [exact (Hfav "p2")|]. exact Hcount.
Defined.

(** The round trip for a product whose price and rating have a
    fraction and a product filed under an array index: the second comes
    first on the next load. *)
Lemma headphones_survive_reload :
  let w' := exec hydrate (reload (exec save page_with_headphones)) in
  favorites_keys page_with_headphones = Ok ["p7"; "10"] /\
  favorites_keys w' = Ok ["10"; "p7"] /\
  favorites_entries w' = Ok (enumerated headphones_entries) /\
  eval (isFavorite "p7") w' = Ok true /\
  eval getFavoritesCount w' = Ok (Some 2).
Proof. vm_compute. done. Qed.

(** *** Loading a slot that cannot be read *)

(** C1 at its failing inputs.  [getItem] returns [null] for a slot that
    is absent; for a slot whose text is not JSON it throws the
    [SyntaxError] of [JSON.parse], and where the storage is unavailable
    it throws as well. *)
Theorem getItem_throws_on_unreadable_slot :
  localStorage corrupt_page = Some {[ name := truncated_text ]} /\
  String.length truncated_text = 40 /\
  parse_value (S (2 * 40)) (list_ascii_of_string truncated_text) = Malformed /\
  eval (getItem name) corrupt_page = Throw SyntaxError /\
  localStorage blocked_page = None /\
  eval (getItem name) blocked_page = Throw SecurityError /\
  eval (getItem name) empty_page = Ok JsNull.
Proof. vm_compute. done. Qed.

(** A slot that is absent or empty gives [null]. *)
Lemma getItem_absent w slots key :
  localStorage w = Some slots ->
  slots !! key = None \/ slots !! key = Some "" ->
  getItem key w = (Ok JsNull, w).
Proof.
  intros Hls Hslot. unfold getItem, bind, localStorage_getItem. rewrite Hls.
  by destruct Hslot as [-> | ->].
Qed.

(** Text [JSON.parse] rejects makes [getItem] throw. *)
Lemma getItem_not_json w slots key text :
  localStorage w = Some slots ->
  slots !! key = Some text -> text <> "" ->
  JSON_parse text = Throw SyntaxError ->
  getItem key w = (Throw SyntaxError, w).
Proof.
  intros Hls Hslot Hne Hparse. unfold getItem, bind, localStorage_getItem, lift.
  rewrite Hls, Hslot. destruct text as [|c t]; [done|]. by rewrite Hparse.
Qed.

(** The hydration catches what [getItem] throws: the store stays as it
    was. *)
Lemma hydrate_keeps_store_on_throw w e :
  eval (getItem name) w = Throw e ->
  eval hydrate w = Ok tt /\ favoritesStore (exec hydrate w) = favoritesStore w.
Proof.
  unfold eval, exec, hydrate, try_catch, bind.
  destruct (getItem name w) as [[v|e'] w'] eqn:Hget; [done|]. intros _. simpl.
  split; [done|].
  unfold getItem, bind, localStorage_getItem, lift in Hget.
  destruct (localStorage w) as [slots|]; [|by injection Hget as _ <-].
  destruct (slots !! name) as [[|c t]|]; try done.
  destruct (JSON_parse (String c t)) as [parsed|e1]; [|by injection Hget as _ <-].
  unfold member in Hget.
  destruct parsed as [|b|n|k|items|props|l0]; simpl in Hget;
    try (by injection Hget as _ <-).
  unfold ret, property in Hget.
  destruct (entries_get "state" props) as [[|b|n|k|items|sprops|l0]|];
    simpl in Hget; try done.
  destruct (entries_get "favorites" sprops) as [fav|]; [|done].
  destruct (truthy fav); done.
Qed.

End Codec.

(** ** The storage service *)

Section StorageService.

Import LocalStorageService.

(** [getJson] never throws: it gives [null] where there is no storage
    to read, where the slot is absent, and where the text of the slot
    is not JSON. *)
Lemma getJson_never_throws key options w :
  exists r, getJson key options w = (Ok r, w) /\
    (window w = None \/ localStorage w = None -> r = None) /\
    (forall slots, localStorage w = Some slots ->
       slots !! buildKey key options = None -> r = None) /\
    (forall slots text e, localStorage w = Some slots ->
       slots !! buildKey key options = Some text ->
       Json.JSON_parse text = Throw e -> r = None).
Proof.
  unfold getJson, get, getLocalStorage, isBrowser, safeJsonParse, try_catch, bind, ret,
    localStorage_getItem, lift.
  destruct (window w) as [win|] eqn:Hwin; simpl.
  - destruct (localStorage w) as [slots|] eqn:Hls; simpl.
    + rewrite Hls. destruct (slots !! buildKey key options) as [text|] eqn:Hslot.
      * destruct (Json.JSON_parse text) as [v|e] eqn:Hparse; eexists; (split; [done|]);
          split_and!; intros; destruct_or?; simplify_eq; congruence.
      * eexists; split; [done|]. by split_and!.
    + eexists; split; [done|]. by split_and!.
  - eexists; split; [done|]. by split_and!.
Qed.

End StorageService.

(** * Further properties of the stores and of the storage service *)

(** ** The favorites store: clearing, locality, order *)

Section FavoritesMore.

Import FavoritesStore.

Implicit Types (w : World) (l : loc) (es : Entries) (p : Product).

Lemma entries_has_set_ne key k v es :
  k <> key -> entries_has k (entries_set key v es) = entries_has k es.
Proof.
  intros Hne. induction es as [|[k0 v0] es IH]; simpl.
  - destruct (String.eqb_spec key k); [congruence|done].
  - destruct (String.eqb_spec k0 key) as [->|Hk0]; simpl.
    + destruct (String.eqb_spec key k); [congruence|done].
    + by rewrite IH.
Qed.

Lemma entries_get_set_ne key k v es :
  k <> key -> entries_get k (entries_set key v es) = entries_get k es.
Proof.
  intros Hne. induction es as [|[k0 v0] es IH]; simpl.
  - destruct (String.eqb_spec key k); [congruence|done].
  - destruct (String.eqb_spec k0 key) as [->|Hk0]; simpl.
    + destruct (String.eqb_spec key k); [congruence|done].
    + by rewrite IH.
Qed.

Lemma entries_has_delete_ne key k es :
  k <> key -> entries_has k (entries_delete key es) = entries_has k es.
Proof.
  intros Hne. induction es as [|[k0 v0] es IH]; simpl; [done|].
  destruct (String.eqb_spec k0 key) as [->|Hk0]; simpl.
  - destruct (String.eqb_spec key k); [congruence|done].
  - by rewrite IH.
Qed.

Lemma entries_get_delete_ne key k es :
  k <> key -> entries_get k (entries_delete key es) = entries_get k es.
Proof.
  intros Hne. induction es as [|[k0 v0] es IH]; simpl; [done|].
  destruct (String.eqb_spec k0 key) as [->|Hk0]; simpl.
  - destruct (String.eqb_spec key k); [congruence|done].
  - by rewrite IH.
Qed.

Lemma favorite_snapshot_at w l es productId :
  favorites_at w l es -> favorite_snapshot productId w = Ok (entries_get productId es).
Proof. intros H. unfold favorite_snapshot. by rewrite (favorites_entries_at _ _ _ H). Qed.

(** X1. After [clearFavorites()], whatever the favorites field held,
    [count()] is 0, no id is a favorite and [toArray()] is empty.
    [persist] then writes the state: where the call returns, the slot
    holds the text of the empty record; where [localStorage] is
    unavailable the write throws, and [clearFavorites()] with it, the
    store emptied. *)
Theorem clearFavorites_empties w :
  let w' := exec clearFavorites w in
  eval getFavoritesCount w' = Ok (Some 0) /\
  (forall productId, eval (isFavorite productId) w' = Ok false) /\
  eval toArray w' = Ok [] /\
  (eval clearFavorites w = Ok tt ->
     localStorage w' = (<[name := stored_text [] (Some version)]> <$> localStorage w)) /\
  (localStorage w = None -> eval clearFavorites w = Throw SecurityError).
Proof.
  intros w'. assert (Hw' : w' = written [] (replaced w [])).
  { unfold w', exec. by rewrite clearFavorites_run. }
  pose proof (favorites_at_changed w [] (NoDup_nil_2)) as H'. rewrite <- Hw' in H'.
  split_and!.
  - unfold eval. by rewrite (getFavoritesCount_run _ _ _ H').
  - intros productId. unfold eval. by rewrite (isFavorite_run _ _ _ _ H').
  - by rewrite (toArray_run _ _ _ H').
  - intros _. by rewrite Hw'.
  - intros Hls. unfold eval. rewrite clearFavorites_run. by apply write_outcome_blocked.
Qed.

(** X2. [add(P)] and [remove(id)] are local to their id: for every
    other id, whether it is a favorite and the snapshot held for it
    are what they were. *)
Theorem mutation_is_local w m key other :
  store_ok w ->
  mutation_key m = Some key ->
  other <> key ->
  let w' := exec (mutate m) w in
  eval (isFavorite other) w' = eval (isFavorite other) w /\
  favorite_snapshot other w' = favorite_snapshot other w.
Proof.
  intros (l & es & H) Hkey Hne w'.
  pose proof (mutate_run w l es m H) as Hrun.
  set (es1 := after m es) in Hrun.
  assert (Hnd : NoDup es1.*1) by apply after_NoDup, H.
  assert (Hw' : w' = written es1 (replaced w es1)) by (unfold w', exec; by rewrite Hrun).
  pose proof (favorites_at_changed w es1 Hnd) as H'. rewrite <- Hw' in H'.
  unfold eval. rewrite (isFavorite_run _ _ _ _ H'), (isFavorite_run _ _ _ _ H).
  rewrite (favorite_snapshot_at _ _ _ _ H'), (favorite_snapshot_at _ _ _ _ H). simpl.
  destruct m as [p|productId|]; simpl in Hkey; [| |done]; injection Hkey as <-; subst es1;
    cbn [after].
  - by rewrite entries_has_set_ne, entries_get_set_ne.
  - by rewrite entries_has_delete_ne, entries_get_delete_ne.
Qed.

Lemma mutation_is_local_witness :
  store_ok page_with_two /\
  mutation_key (Remove "p1") = Some "p1" /\
  "p2" <> "p1" /\
  eval (isFavorite "p2") (exec (mutate (Remove "p1")) page_with_two) = Ok true.
Proof.
  assert (Hok : store_ok page_with_two).
  { exists 3%positive, two_entries. apply page_with_two_favorites. }
  split; [exact Hok|]. split; [reflexivity|]. split; [discriminate|].
  exact (proj1 (mutation_is_local page_with_two (Remove "p1") "p1" "p2" Hok eq_refl
    ltac:(discriminate))).
Defined.

Lemma entries_set_present_keys key v es :
  entries_has key es = true -> (entries_set key v es).*1 = es.*1.
Proof. intros H. by rewrite entries_set_keys, H. Qed.

Lemma entries_delete_set_present key v es :
  NoDup es.*1 ->
  entries_delete key (entries_set key v es) = entries_delete key es.
Proof.
  induction es as [|[k0 v0] es IH]; simpl; intros Hnd.
  - by rewrite String.eqb_refl.
  - destruct (String.eqb_spec k0 key) as [->|Hne]; simpl.
    + by rewrite String.eqb_refl.
    + destruct (String.eqb_spec k0 key); [done|].
      rewrite IH; [done|]. csimpl in Hnd. by apply NoDup_cons in Hnd as [_ ?].
Qed.

(** X3. The favorites keep the order of insertion: [add(P)] of an id
    that is not a favorite puts [P] last; [add(P)] of an id that is one
    keeps every id in its place and replaces the snapshot; [remove(id)]
    followed by [add(P)] of the same id moves it to the end. *)
Theorem favorites_keep_insertion_order w p es :
  store_ok w ->
  favorites_entries w = Ok es ->
  (eval (isFavorite (id p)) w = Ok false ->
     favorites_entries (exec (addFavorite p) w) = Ok (es ++ [(id p, Product_value p)])) /\
  (eval (isFavorite (id p)) w = Ok true ->
     favorites_keys (exec (addFavorite p) w) = Ok es.*1 /\
     favorite_snapshot (id p) (exec (addFavorite p) w) = Ok (Some (Product_value p))) /\
  favorites_entries (exec (addFavorite p) (exec (removeFavorite (id p)) w))
  = Ok (entries_delete (id p) es ++ [(id p, Product_value p)]).
Proof.
  intros (l & es0 & H) Hes. rewrite (favorites_entries_at _ _ _ H) in Hes.
  injection Hes as <-. pose proof H as (_ & _ & Hnd).
  pose proof (favorites_at_changed w _ (entries_set_NoDup (id p) (Product_value p) es0 Hnd))
    as Hadd.
  pose proof (favorites_at_changed w _ (entries_delete_NoDup (id p) es0 Hnd)) as Hdel.
  unfold eval, exec. rewrite (isFavorite_run _ _ _ _ H).
  rewrite (addFavorite_run _ _ _ _ H), (removeFavorite_run _ _ _ _ H). simpl.
  split_and!.
  - intros [= Habs]. rewrite (favorites_entries_at _ _ _ Hadd).
    by rewrite entries_set_absent.
  - intros [= Hpres]. unfold favorites_keys.
    rewrite (favorite_snapshot_at _ _ _ _ Hadd), (favorites_entries_at _ _ _ Hadd).
    by rewrite entries_set_present_keys, entries_get_set.
  - rewrite (addFavorite_run _ _ _ _ Hdel). simpl.
    pose proof (favorites_at_changed
      (written (entries_delete (id p) es0) (replaced w (entries_delete (id p) es0))) _
      (entries_set_NoDup (id p) (Product_value p) _ (entries_delete_NoDup (id p) es0 Hnd)))
      as H2.
    rewrite (favorites_entries_at _ _ _ H2).
    by rewrite entries_set_absent by by apply entries_has_delete.
Qed.

Lemma favorites_keep_insertion_order_witness :
  store_ok page_with_two /\
  favorites_entries page_with_two = Ok two_entries /\
  favorites_keys
    (exec (addFavorite (sample_product "p1" 100))
       (exec (removeFavorite "p1") page_with_two)) = Ok ["p2"; "p1"].
Proof.
  assert (Hok : store_ok page_with_two).
  { exists 3%positive, two_entries. apply page_with_two_favorites. }
  split; [exact Hok|]. split; [reflexivity|].
  pose proof (proj2 (proj2 (favorites_keep_insertion_order page_with_two
    (sample_product "p1" 100) two_entries Hok eq_refl))) as H.
  unfold favorites_keys. simpl id in H. rewrite H. reflexivity.
Defined.

Lemma call_all_invariant ms w l es :
  favorites_at w l es -> keyed_by_id es ->
  exists l' es', favorites_at (call_all ms w) l' es' /\ keyed_by_id es'.
Proof.
  revert w l es. induction ms as [|m ms IH]; intros w l es H Hk; [by exists l, es|].
  unfold call_all. cbn [foldl]. unfold exec at 2. rewrite (mutate_run w l es m H). cbn [snd].
  apply (IH _ (fresh (dom (heap w))) (after m es)).
  - apply favorites_at_changed, after_NoDup, H.
  - by apply keyed_by_id_after.
Qed.

(** X28. The calls of add, remove and clear made one after another,
    each keeping its change whether or not the write after it threw,
    as where [localStorage] is unavailable: in the state they reach
    from the initial one, [toArray()] yields a sequence whose length is
    [count()], and the id of every product in it satisfies
    [isFavorite]. *)
Theorem count_is_toArray_length_after_calls ms ls win doc :
  let w := call_all ms (initial_world ls win doc) in
  exists items,
    eval toArray w = Ok items /\
    eval getFavoritesCount w = Ok (Some (length items)) /\
    Forall (fun product =>
              exists productId,
                property "id" product = Some (JsString productId) /\
                eval (isFavorite productId) w = Ok true) items.
Proof.
  intros w.
  destruct (call_all_invariant ms _ _ _ (initial_world_favorites ls win doc))
    as (l & es & H & Hk); [constructor|].
  fold w in H. exists es.*2. split_and!.
  - by apply (toArray_run w l).
  - unfold eval. rewrite (getFavoritesCount_run _ _ _ H). simpl.
    by rewrite length_fmap.
  - apply Forall_fmap. unfold keyed_by_id in Hk.
    apply Forall_forall. intros [k v] Hin. simpl.
    exists k. split; [by apply (proj1 (Forall_forall _ _) Hk (k, v))|].
    unfold eval. rewrite (isFavorite_run _ _ _ _ H). simpl. f_equal.
    apply entries_has_elem_of, list_elem_of_fmap. by exists (k, v).
Qed.

(** Two calls where [localStorage] is unavailable: each throws, and
    the store holds both products. *)
Lemma calls_on_blocked_page :
  eval (addFavorite (sample_product "p1" 100)) blocked_page = Throw SecurityError /\
  favorites_keys
    (call_all [Add (sample_product "p1" 100); Add (sample_product "p2" 200)] blocked_page)
  = Ok ["p1"; "p2"] /\
  favorites_keys
    (exec (mutate_all [Add (sample_product "p1" 100); Add (sample_product "p2" 200)])
       blocked_page)
  = Ok ["p1"].
Proof. vm_compute. done. Qed.

End FavoritesMore.

(** ** The favorite button *)

Section FavoriteButton.

Import FavoritesStore ProductCard.

Implicit Types (w : World) (l : loc) (es : Entries) (p : Product).

Lemma handleFavoriteClick_run w l es p :
  favorites_at w l es ->
  handleFavoriteClick p w =
  (write_outcome w,
   let es' := if entries_has (id p) es then entries_delete (id p) es
              else entries_set (id p) (Product_value p) es in
   written es' (replaced w es')).
Proof.
  intros H. unfold handleFavoriteClick, bind.
  change (useIsFavorite (id p)) with (isFavorite (id p)).
  rewrite (isFavorite_run _ _ _ _ H).
  destruct (entries_has (id p) es).
  - by apply (removeFavorite_run w l).
  - by apply (addFavorite_run w l).
Qed.

Lemma handleFavoriteClick_at w l es p :
  favorites_at w l es ->
  exists l', favorites_at (exec (handleFavoriteClick p) w) l'
    (if entries_has (id p) es then entries_delete (id p) es
     else entries_set (id p) (Product_value p) es).
Proof.
  intros H. unfold exec. rewrite (handleFavoriteClick_run _ _ _ _ H). cbn [snd].
  eexists. apply favorites_at_changed.
  destruct (entries_has (id p) es);
    [by apply entries_delete_NoDup, H | by apply entries_set_NoDup, H].
Qed.

(** X4. A click on the favorite button flips the product: a favorite
    stops being one and [count()] goes down by one, any other product
    becomes one and [count()] goes up by one; no other id changes.
    The handler does not guard the store's action: where
    [localStorage] is unavailable the write [persist] makes after the
    change throws, and the click with it, the product flipped. *)
Theorem handleFavoriteClick_flips w p present n :
  store_ok w ->
  eval (isFavorite (id p)) w = Ok present ->
  eval getFavoritesCount w = Ok (Some n) ->
  let w' := exec (handleFavoriteClick p) w in
  eval (isFavorite (id p)) w' = Ok (negb present) /\
  (exists n', eval getFavoritesCount w' = Ok (Some n') /\
              if present then n = S n' else n' = S n) /\
  (forall other, other <> id p ->
     eval (isFavorite other) w' = eval (isFavorite other) w) /\
  (localStorage w = None -> eval (handleFavoriteClick p) w = Throw SecurityError).
Proof.
  intros (l & es & H) Hp Hn w'. pose proof H as (_ & _ & Hnd).
  unfold eval in Hp, Hn. rewrite (isFavorite_run _ _ _ _ H) in Hp.
  rewrite (getFavoritesCount_run _ _ _ H) in Hn. simpl in Hp, Hn.
  injection Hp as Hp. injection Hn as <-.
  destruct (handleFavoriteClick_at w l es p H) as [l' H']. fold w' in H'.
  unfold eval. rewrite (handleFavoriteClick_run _ _ _ _ H).
  rewrite (isFavorite_run _ _ _ _ H'), (getFavoritesCount_run _ _ _ H'). cbn [fst].
  rewrite Hp. destruct present; split_and!.
  - by rewrite entries_has_delete.
  - eexists. split; [done|]. by rewrite <- (entries_delete_length (id p) es).
  - intros other Hne. rewrite (isFavorite_run _ _ _ _ H'), (isFavorite_run _ _ _ _ H).
    simpl. by rewrite Hp, entries_has_delete_ne.
  - apply write_outcome_blocked.
  - by rewrite entries_has_set.
  - eexists. split; [done|]. by rewrite entries_set_length, Hp.
  - intros other Hne. rewrite (isFavorite_run _ _ _ _ H'), (isFavorite_run _ _ _ _ H).
    simpl. by rewrite Hp, entries_has_set_ne.
  - apply write_outcome_blocked.
Qed.

Lemma handleFavoriteClick_flips_witness :
  store_ok page_with_phone /\
  eval (isFavorite "p1") page_with_phone = Ok true /\
  eval getFavoritesCount page_with_phone = Ok (Some 1) /\
  eval (isFavorite "p1") (exec (handleFavoriteClick phone) page_with_phone) = Ok false.
Proof.
  assert (Hok : store_ok page_with_phone).
  { exists 2%positive, [("p1", Product_value phone)].
    split_and!; [reflexivity | reflexivity |].
    apply (bool_decide_unpack _). vm_compute. reflexivity. }
  split; [exact Hok|]. split; [reflexivity|]. split; [reflexivity|].
  exact (proj1 (handleFavoriteClick_flips page_with_phone phone true 1
    Hok eq_refl eq_refl)).
Defined.

(** X5. Two clicks on the favorite button give back what was there:
    every id is a favorite or not as before and [count()] is the same.
    The entries are the same for a product that was not a favorite; a
    product that was one comes back last, with the snapshot the button
    holds. *)
Theorem handleFavoriteClick_twice w p es :
  store_ok w ->
  favorites_entries w = Ok es ->
  let w'' := exec (handleFavoriteClick p) (exec (handleFavoriteClick p) w) in
  (forall productId,
     eval (isFavorite productId) w'' = eval (isFavorite productId) w) /\
  eval getFavoritesCount w'' = eval getFavoritesCount w /\
  favorites_entries w'' =
  Ok (if entries_has (id p) es
      then entries_delete (id p) es ++ [(id p, Product_value p)]
      else es).
Proof.
  intros (l & es0 & H) Hes w''. rewrite (favorites_entries_at _ _ _ H) in Hes.
  injection Hes as <-. pose proof H as (_ & _ & Hnd).
  destruct (handleFavoriteClick_at w l es0 p H) as [l1 H1].
  destruct (handleFavoriteClick_at _ l1 _ p H1) as [l2 H2]. fold w'' in H2.
  assert (Hfinal :
    (if entries_has (id p)
          (if entries_has (id p) es0 then entries_delete (id p) es0
           else entries_set (id p) (Product_value p) es0)
     then entries_delete (id p)
            (if entries_has (id p) es0 then entries_delete (id p) es0
             else entries_set (id p) (Product_value p) es0)
     else entries_set (id p) (Product_value p)
            (if entries_has (id p) es0 then entries_delete (id p) es0
             else entries_set (id p) (Product_value p) es0))
    = if entries_has (id p) es0
      then entries_delete (id p) es0 ++ [(id p, Product_value p)]
      else es0).
  { destruct (entries_has (id p) es0) eqn:Hhas.
    - rewrite entries_has_delete by done. apply entries_set_absent.
      by apply entries_has_delete.
    - rewrite entries_has_set. by apply entries_delete_set. }
  rewrite Hfinal in H2. unfold eval.
  rewrite (getFavoritesCount_run _ _ _ H2), (getFavoritesCount_run _ _ _ H).
  rewrite (favorites_entries_at _ _ _ H2). simpl. split_and!; [|do 2 f_equal|done].
  - intros productId.
    rewrite (isFavorite_run _ _ _ _ H2), (isFavorite_run _ _ _ _ H). simpl. f_equal.
    destruct (entries_has (id p) es0) eqn:Hhas; [|done].
    destruct (String.eqb_spec productId (id p)) as [->|Hne].
    + rewrite Hhas. apply entries_has_elem_of. rewrite fmap_app.
      apply elem_of_app. right. csimpl. left.
    + rewrite <- (entries_set_absent (id p) (Product_value p)
                    (entries_delete (id p) es0)) by by apply entries_has_delete.
      by rewrite entries_has_set_ne, entries_has_delete_ne.
  - destruct (entries_has (id p) es0) eqn:Hhas; [|done].
    rewrite length_app. simpl. pose proof (entries_delete_length _ _ Hhas). lia.
Qed.

Lemma handleFavoriteClick_twice_witness :
  store_ok page_with_two /\
  favorites_entries page_with_two = Ok two_entries /\
  favorites_keys
    (exec (handleFavoriteClick (sample_product "p1" 100))
       (exec (handleFavoriteClick (sample_product "p1" 100)) page_with_two))
  = Ok ["p2"; "p1"].
Proof.
  assert (Hok : store_ok page_with_two).
  { exists 3%positive, two_entries. apply page_with_two_favorites. }
  split; [exact Hok|]. split; [reflexivity|].
  pose proof (proj2 (proj2 (handleFavoriteClick_twice page_with_two
    (sample_product "p1" 100) two_entries Hok eq_refl))) as H.
  unfold favorites_keys. rewrite H. reflexivity.
Defined.

End FavoriteButton.

(** ** The storage codec: shapes, removal, failures *)

Section CodecMore.

Import Json FavoritesStore.

Implicit Types (w : World) (l : loc) (es : Entries) (slots : gmap string string).

Lemma envelope_is_json fav ver : is_json fav = true -> is_json (envelope fav ver) = true.
Proof.
  intros Hfav. unfold envelope.
  destruct ver as [n|]; cbn [optional fmap option_fmap option_map app].
  - change (true && (is_json fav && true && (canonical_number (number_of_Z n) && true))
            = true).
    by rewrite Hfav, number_of_Z_canonical.
  - change (true && (is_json fav && true && true) = true). by rewrite Hfav.
Qed.

Lemma JSON_stringify_object_head props :
  exists t, JSON_stringify (JsObject props) = String "{" t.
Proof. unfold JSON_stringify. simpl. eauto. Qed.

(** X6. [getItem] takes whatever it finds under [state.favorites]: a
    value that is truthy, record or not, becomes a new [Map] of its
    [Object.entries], and a falsy one ([null], [false], [0], the empty
    string) is handed back as it was parsed, no [Map] made. *)
Theorem getItem_takes_any_favorites w slots key fav ver :
  localStorage w = Some slots ->
  is_json fav = true ->
  slots !! key = Some (JSON_stringify (envelope fav ver)) ->
  getItem key w =
  if truthy fav
  then (Ok (envelope (JsMap (fresh (dom (heap w)))) ver),
        with_heap (<[fresh (dom (heap w)) :=
                       HMap (entries_of_iterable (Object_entries fav))]> (heap w)) w)
  else (Ok (envelope fav ver), w).
Proof.
  intros Hls Hfav Hslot. unfold getItem, bind, localStorage_getItem.
  rewrite Hls, Hslot.
  destruct (JSON_stringify_object_head
              ([("state", JsObject [("favorites", fav)])]
               ++ optional "version" ((fun n : Z => JsNumber n) <$> ver))) as [t Ht].
  unfold envelope at 1 2. rewrite Ht. cbv iota beta. rewrite <- Ht.
  fold (envelope fav ver). unfold lift.
  rewrite JSON_parse_stringify by by apply envelope_is_json.
  unfold envelope. simpl. destruct (truthy fav) eqn:Htruthy.
  - assert (Hnn : fav <> JsNull) by (by intros ->).
    destruct fav; try done; by destruct ver.
  - destruct fav; try done; by destruct ver.
Qed.

Lemma getItem_takes_any_favorites_witness :
  localStorage page_with_array_slot = Some array_slot /\
  is_json (JsArray [JsNumber 7; JsNumber 8]) = true /\
  array_slot !! name
  = Some (JSON_stringify (envelope (JsArray [JsNumber 7; JsNumber 8]) None)) /\
  eval (getItem name) page_with_array_slot = Ok (envelope (JsMap 2%positive) None) /\
  heap (exec (getItem name) page_with_array_slot) !! 2%positive
  = Some (HMap [("0", JsNumber 7); ("1", JsNumber 8)]).
Proof.
  split; [reflexivity|]. split; [reflexivity|]. split; [reflexivity|].
  unfold eval, exec.
  rewrite (getItem_takes_any_favorites page_with_array_slot array_slot
    name (JsArray [JsNumber 7; JsNumber 8]) None eq_refl eq_refl eq_refl).
  split; reflexivity.
Defined.

(** X7. On a slot whose text is JSON, [getItem] throws for one value
    only: the text [null], which parses to [null] and has no [state] to
    read, gives a [TypeError]; every other value is handed back or
    converted without a throw. *)
Theorem getItem_throws_only_on_null w slots key text parsed :
  localStorage w = Some slots ->
  slots !! key = Some text ->
  JSON_parse text = Ok parsed ->
  (parsed = JsNull -> getItem key w = (Throw TypeError, w)) /\
  (parsed <> JsNull -> exists v, eval (getItem key) w = Ok v).
Proof.
  intros Hls Hslot Hparse.
  assert (Hne : text <> "") by (intros ->; discriminate).
  unfold eval, getItem, bind, localStorage_getItem, lift. rewrite Hls, Hslot.
  destruct text as [|c t]; [done|]. rewrite Hparse. split.
  - by intros ->.
  - intros Hnn. unfold member.
    destruct parsed as [|b|n|k|items|props|l0]; simpl; eauto; [done|].
    unfold ret, property.
    destruct (entries_get "state" props) as [[|b|n|k|items|sprops|l0]|]; simpl; eauto.
    destruct (entries_get "favorites" sprops) as [fav|]; eauto.
    destruct (truthy fav); simpl; eauto.
Qed.

Lemma getItem_throws_only_on_null_witness :
  localStorage page_with_null_slot = Some {[ name := "null" ]} /\
  ({[ name := "null" ]} : gmap string string) !! name = Some "null" /\
  JSON_parse "null" = Ok JsNull /\
  getItem name page_with_null_slot = (Throw TypeError, page_with_null_slot).
Proof.
  split; [reflexivity|]. split; [reflexivity|]. split; [reflexivity|].
  exact (proj1 (getItem_throws_only_on_null page_with_null_slot {[ name := "null" ]}
    name "null" JsNull eq_refl eq_refl eq_refl) eq_refl).
Defined.

(** X8. [removeItem] empties the slot and nothing else: [getItem] gives
    [null] for it afterwards, every other slot keeps its text, and the
    heap and the store are untouched.  Where the storage is unavailable
    it throws. *)
Theorem removeItem_then_getItem w key :
  match localStorage w with
  | Some slots =>
      removeItem key w = (Ok tt, with_localStorage (Some (delete key slots)) w) /\
      getItem key (exec (removeItem key) w) = (Ok JsNull, exec (removeItem key) w) /\
      (forall other, other <> key ->
         eval (localStorage_getItem other) (exec (removeItem key) w) = Ok (slots !! other))
  | None => removeItem key w = (Throw SecurityError, w)
  end.
Proof.
  unfold removeItem, localStorage_removeItem, exec.
  destruct (localStorage w) as [slots|] eqn:Hls; [|done]. simpl. split_and!.
  - done.
  - apply (getItem_absent _ (delete key slots)); [done|]. left. apply lookup_delete_eq.
  - intros other Hne. unfold eval, localStorage_getItem. simpl.
    by rewrite lookup_delete_ne.
Qed.

(** X9. [setItem] writes one slot and touches nothing else: the heap
    and both stores stay as they are and every other slot keeps its
    text.  It does not guard its calls.  Where the storage is
    unavailable it throws and leaves the world as it was.  Handed a
    state whose favorites are [null], [false] or [0], which are not
    iterable, it throws the [TypeError] of [Object.fromEntries] and
    writes nothing; handed the empty string, which is iterable and
    yields nothing, it writes the empty record. *)
Theorem setItem_writes_one_slot w key value :
  let w' := exec (setItem key value) w in
  heap w' = heap w /\ favoritesStore w' = favoritesStore w /\
  themeStore w' = themeStore w /\
  (forall other, other <> key ->
     eval (localStorage_getItem other) w' = eval (localStorage_getItem other) w) /\
  (localStorage w = None -> exists e, setItem key value w = (Throw e, w)) /\
  (forall v, favorites (sv_state value) = FavoritesLeft v -> v <> FalsyEmpty ->
     setItem key value w = (Throw TypeError, w)) /\
  (favorites (sv_state value) = FavoritesLeft FalsyEmpty ->
     setItem key value w =
     localStorage_setItem key
       (JSON_stringify
          (JsObject ([("state", JsObject [("favorites", JsObject [])])]
                     ++ optional "version"
                          ((fun n : Z => JsNumber n) <$> sv_version value)))) w).
Proof.
  intros w'. unfold w', exec, eval, setItem, favorites_fromEntries, bind, Map_entries, bind,
    localStorage_setItem, localStorage_getItem.
  destruct (favorites (sv_state value)) as [l|[]]; simpl;
    try (split_and!; [done|done|done|done| |by intros ? [= <-]|done];
         intros _; by exists TypeError).
  - destruct (heap w !! l) as [[es|items]|] eqn:Hl; simpl; rewrite ?Hl; simpl;
      try destruct (localStorage w) as [slots|] eqn:Hls; simpl; split_and!; try done;
      try (intros other Hne; rewrite ?Hls; simpl; by rewrite ?lookup_insert_ne by done);
      try (intros _; by eexists).
  - destruct (localStorage w) as [slots|] eqn:Hls; simpl; split_and!; try done;
      try (intros other Hne; rewrite ?Hls; simpl; by rewrite ?lookup_insert_ne by done);
      try (intros _; by eexists); by intros ? [= <-].
Qed.

End CodecMore.

(** ** Products as plain data *)

Section PlainProducts.

Import Json FavoritesStore.

Implicit Types (w : World) (l : loc) (es : Entries) (p : Product).

Lemma images_plain (imgs : list ProductImage) :
  forallb canonical_number (flat_map (fun i => [width i; height i]) imgs) = true ->
  forallb is_json (ProductImage_value <$> imgs) = true.
Proof.
  induction imgs as [|i imgs IH]; [done|]. csimpl.
  intros [Hw [Hh Hrest]%andb_true_iff]%andb_true_iff. rewrite IH by done.
  change (is_json (ProductImage_value i))
    with (true && (true && (true && (true && (canonical_number (width i)
           && (canonical_number (height i) && true)))))).
  by rewrite Hw, Hh.
Qed.

Lemma attributes_plain (attrs : list ProductAttribute) :
  forallb is_json (ProductAttribute_value <$> attrs) = true.
Proof. induction attrs as [|a attrs IH]; [done|]. csimpl. by rewrite IH. Qed.

(** An object of properties listed in full is plain when its keys are
    in order and its values are plain. *)
Ltac plain_object :=
  lazymatch goal with
  | |- is_json (JsObject ?props) = true =>
      change (keys_ordered props.*1 && forallb (fun kv => is_json kv.2) props = true);
      apply andb_true_intro; split;
      [ vm_compute; reflexivity
      | cbn [forallb snd];
        repeat match goal with
               | |- _ && _ = true => apply andb_true_intro; split
               end;
        try reflexivity ]
  end.

Lemma Category_value_plain c :
  canonical_number (productCount c) = true -> is_json (Category_value c) = true.
Proof.
  destruct c as [cid csl cnm cde cpa cim cpc]. unfold Category_value.
  cbn [category_id category_slug category_name category_description parentId
       category_image productCount]. intros Hpc.
  destruct cde, cpa, cim; cbn [optional fmap option_fmap option_map app]; plain_object;
    exact Hpc.
Qed.

(** The object of a product is plain data, where its numbers are. *)
Lemma Product_value_plain p : plain_product p = true -> is_json (Product_value p) = true.
Proof.
  destruct p as [pid sl nm de pr op cu imgs cat br ra rc st attrs ca ua].
  unfold plain_product, product_numbers, Product_value.
  cbn [id slug name description price originalPrice currency images category brand
       rating reviewCount inStock attributes createdAt updatedAt].
  cbn [forallb]. rewrite !forallb_app. cbn [forallb]. rewrite !andb_true_iff.
  intros (Hpr & Hop & (Hra & Hrc & Hpc & _) & Himgs).
  destruct op as [op|]; cbn [optional fmap option_fmap option_map app option_list forallb] in *;
    plain_object;
    first [ exact Hpr | exact Hra | exact Hrc | exact (images_plain _ Himgs)
          | exact (attributes_plain _) | exact (Category_value_plain _ Hpc)
          | by apply andb_true_iff in Hop as [? _] ].
Qed.

Lemma plain_entries_after m es :
  plain_mutation m = true -> plain_entries es -> plain_entries (after m es).
Proof.
  unfold plain_entries. destruct m as [p|productId|]; simpl; intros Hm Hes.
  - induction Hes as [|[k v] es Hk Hes IH]; simpl.
    + constructor; [by apply Product_value_plain | constructor].
    + destruct (String.eqb k (id p)); constructor; try done.
      by apply Product_value_plain.
  - induction Hes as [|[k v] es Hk Hes IH]; simpl; [constructor|].
    destruct (String.eqb k productId); [done | by constructor].
  - constructor.
Qed.

Lemma call_all_plain ms w l es :
  forallb plain_mutation ms = true ->
  favorites_at w l es -> plain_entries es ->
  exists l' es', favorites_at (call_all ms w) l' es' /\ plain_entries es'.
Proof.
  revert w l es. induction ms as [|m ms IH]; intros w l es Hms H Hp; [by exists l, es|].
  cbn [forallb] in Hms. apply andb_true_iff in Hms as [Hm Hms].
  unfold call_all. cbn [foldl]. unfold exec at 2. rewrite (mutate_run w l es m H). cbn [snd].
  apply (IH _ (fresh (dom (heap w))) (after m es)); [done| |].
  - apply favorites_at_changed, after_NoDup, H.
  - by apply plain_entries_after.
Qed.

(** X29. Whatever the store holds after calls of add, remove and
    clear, the products added ones whose numbers are written in full:
    where the save is made, the next load reads it back, the same ids
    favorites and [count()] the same. *)
Theorem reachable_favorites_survive_reload ms ls win doc :
  forallb plain_mutation ms = true ->
  let w := call_all ms (initial_world ls win doc) in
  eval save w = Ok tt ->
  let w' := exec hydrate (reload (exec save w)) in
  (forall productId,
     eval (isFavorite productId) w' = eval (isFavorite productId) w) /\
  eval getFavoritesCount w' = eval getFavoritesCount w.
Proof.
  intros Hms w Hsave w'.
  destruct (call_all_plain ms _ _ _ Hms (initial_world_favorites ls win doc))
    as (l & es & H & Hp); [constructor|].
  fold w in H.
  destruct (save_then_hydrate w l es H Hp Hsave) as (_ & Hhyd & H').
  assert (Hw' : w' = replaced (reload (exec save w)) (enumerated es)).
  { unfold w', exec at 1. by rewrite Hhyd. }
  rewrite <- Hw' in H'.
  pose proof (enumerated_perm es (proj2 (proj2 H))) as Hperm.
  unfold eval. split.
  - intros productId.
    rewrite (isFavorite_run _ _ _ _ H'), (isFavorite_run _ _ _ _ H). simpl.
    f_equal. by apply entries_has_perm.
  - rewrite (getFavoritesCount_run _ _ _ H'), (getFavoritesCount_run _ _ _ H).
    simpl. do 2 f_equal. by apply Permutation_length.
Qed.

Lemma reachable_favorites_survive_reload_witness :
  let ms := [Add headphones; Add (sample_product "10" 25); Remove "p7"] in
  let w := call_all ms empty_page in
  forallb plain_mutation ms = true /\
  eval save w = Ok tt /\
  eval (isFavorite "10") w = Ok true /\
  eval (isFavorite "10") (exec hydrate (reload (exec save w))) = Ok true.
Proof.
  split; [reflexivity|]. split; [reflexivity|]. split; [reflexivity|].
  pose proof (proj1 (reachable_favorites_survive_reload
    [Add headphones; Add (sample_product "10" 25); Remove "p7"] (Some ∅) None None
    eq_refl eq_refl) "10") as H.
  exact (eq_trans H eq_refl).
Defined.

End PlainProducts.

(** ** A slot with no favorites to read *)

Section FalsyFavorites.

Import FavoritesStore.

(** X30. A favorites slot that is JSON of the shape [persist] writes,
    with [null], [false], [0] or the empty string under
    [state.favorites], is not taken for an absent one: the hydration
    lays the value over the favorites field.  From then on
    [isFavorite] and [toArray()] throw a [TypeError], and [count()]
    throws one for [null] and gives [undefined] for the others.
    [add(P)] makes a new [Map] of [null] and of the empty string, and
    the store holds [P] alone; of [false] and of [0] it cannot, and
    throws a [TypeError] with the field as it was. *)
Theorem hydrate_takes_falsy_favorites v p productId :
  let w := exec hydrate (page_with_falsy_slot v) in
  eval hydrate (page_with_falsy_slot v) = Ok tt /\
  favorites (favoritesStore w) = FavoritesLeft v /\
  eval (isFavorite productId) w = Throw TypeError /\
  eval toArray w = Throw TypeError /\
  eval getFavoritesCount w
    = match v with FalsyNull => Throw TypeError | _ => Ok None end /\
  match v with
  | FalsyNull | FalsyEmpty =>
      favorites_entries (exec (addFavorite p) w) = Ok [(id p, Product_value p)]
  | _ => addFavorite p w = (Throw TypeError, w)
  end.
Proof. destruct v; repeat split; reflexivity. Qed.

End FalsyFavorites.

(** ** The theme store and the document *)

Section ThemeMore.

Import ThemeStore.

Implicit Types (w : World) (t : Theme).

Lemma with_document_same w : with_document (document w) w = w.
Proof. by destruct w. Qed.

(** What [applyThemeToDocument] does, in one equation. *)
Lemma applyThemeToDocument_exact w t :
  applyThemeToDocument t w =
  (Ok tt,
   match document w with
   | Some doc =>
       with_document
         (Some (mkDocument (if Theme_eqb (resolved w t) dark
                            then {["dark"]} ∪ classList doc
                            else classList doc ∖ {["dark"]}))) w
   | None => w
   end).
Proof.
  unfold applyThemeToDocument, typeof_document_undefined, bind, ret.
  destruct (document w) as [doc|] eqn:Hdoc; [|done]. simpl.
  destruct t; simpl; rewrite ?getSystemTheme_run; simpl.
  - unfold classList_remove. by rewrite Hdoc.
  - unfold classList_add. by rewrite Hdoc.
  - destruct (match window w with Some win => prefers win | None => light end);
      simpl; unfold classList_remove, classList_add; by rewrite Hdoc.
Qed.

Lemma resolved_with_document w d t : resolved (with_document d w) t = resolved w t.
Proof. done. Qed.

Lemma resolved_concrete w t : resolved w t = light \/ resolved w t = dark.
Proof.
  destruct t; simpl; auto. destruct (window w); auto using prefers_concrete.
Qed.

Lemma resolved_resolved w t : resolved w (resolved w t) = resolved w t.
Proof. by destruct (resolved_concrete w t) as [-> | ->]. Qed.

Lemma getEffectiveTheme_resolved w :
  getEffectiveTheme w = (Ok (resolved w (theme (themeStore w))), w).
Proof. rewrite getEffectiveTheme_run. unfold resolved. by destruct (theme (themeStore w)). Qed.

Lemma follows_after w d :
  document_follows_theme (with_document (Some d) w) <->
  ("dark" ∈ classList d <-> resolved w (theme (themeStore w)) = dark).
Proof.
  unfold document_follows_theme. split.
  - intros H. exact (H d eq_refl).
  - intros H doc' [= <-]. exact H.
Qed.


(** X10. In a page with a document, [applyThemeToDocument(theme)]
    never throws and changes the document only: afterwards the class
    [dark] is there exactly when the theme resolves to [dark] ([system]
    by the platform's color scheme), and every other class is as it
    was. *)
Theorem applyThemeToDocument_sets_dark_class w t doc :
  document w = Some doc ->
  exists doc',
    applyThemeToDocument t w = (Ok tt, with_document (Some doc') w) /\
    ("dark" ∈ classList doc' <-> resolved w t = dark) /\
    (forall token, token <> "dark" ->
       token ∈ classList doc' <-> token ∈ classList doc).
Proof.
  intros Hdoc. rewrite applyThemeToDocument_exact, Hdoc.
  eexists. split; [reflexivity|]. simpl.
  destruct (resolved_concrete w t) as [-> | ->]; simpl; set_solver.
Qed.

Lemma applyThemeToDocument_sets_dark_class_witness :
  exists doc',
    exec (applyThemeToDocument system) (browser_page true {["wide"]}) =
      with_document (Some doc') (browser_page true {["wide"]}) /\
    "dark" ∈ classList doc' /\ "wide" ∈ classList doc'.
Proof.
  destruct (applyThemeToDocument_sets_dark_class
              (browser_page true {["wide"]}) system (mkDocument {["wide"]}) eq_refl)
    as (doc' & Hrun & Hdark & Hrest).
  exists doc'. split; [unfold exec; by rewrite Hrun|]. split.
  - by apply Hdark.
  - apply Hrest; [done|]. simpl. set_solver.
Defined.

(** X11. Where there is no document (a render on the server), the
    theme actions never reach for one: [applyThemeToDocument],
    [initializeTheme] and the rehydration callback leave the world as
    it is and do not throw; [setTheme] and [toggleTheme] leave the
    preference set, and where they return the world differs from the
    one before in the preference and in the theme slot [persist] has
    written, and in nothing else.  Where there is no [localStorage]
    either, they return and change the preference only. *)
Theorem theme_actions_without_document w t :
  document w = None ->
  let t' := opposite (resolved w (theme (themeStore w))) in
  applyThemeToDocument t w = (Ok tt, w) /\
  initializeTheme w = (Ok tt, w) /\
  onRehydrateStorage (Some (mkThemeState t)) w = (Ok tt, w) /\
  themeStore (exec (setTheme t) w) = mkThemeState t /\
  themeStore (exec toggleTheme w) = mkThemeState t' /\
  (eval (setTheme t) w = Ok tt ->
     exec (setTheme t) w = theme_written t (with_themeStore (mkThemeState t) w)) /\
  (eval toggleTheme w = Ok tt ->
     exec toggleTheme w = theme_written t' (with_themeStore (mkThemeState t') w)) /\
  (localStorage w = None ->
     setTheme t w = (Ok tt, with_themeStore (mkThemeState t) w) /\
     toggleTheme w = (Ok tt, with_themeStore (mkThemeState t') w)).
Proof.
  intros Hdoc t'.
  assert (Happly : forall t0 w0, document w0 = None ->
            applyThemeToDocument t0 w0 = (Ok tt, w0)).
  { intros t0 w0 H. by rewrite applyThemeToDocument_exact, H. }
  assert (Hset : forall t0,
            setTheme t0 w = (Ok tt, theme_written t0 (with_themeStore (mkThemeState t0) w))).
  { intros t0. unfold setTheme, bind. rewrite theme_set_run. by apply Happly. }
  assert (Htoggle :
            toggleTheme w = (Ok tt, theme_written t' (with_themeStore (mkThemeState t') w))).
  { unfold toggleTheme, bind. rewrite getEffectiveTheme_resolved.
    replace (if Theme_eqb (resolved w (theme (themeStore w))) dark then light else dark)
      with t' by (by subst t'; destruct (resolved w (theme (themeStore w)))).
    rewrite theme_set_run. by apply Happly. }
  assert (Hplain : forall t0, localStorage w = None ->
            theme_written t0 (with_themeStore (mkThemeState t0) w)
            = with_themeStore (mkThemeState t0) w).
  { intros t0 Hls. unfold theme_written, with_localStorage, with_themeStore. simpl.
    by rewrite Hls. }
  unfold eval, exec. rewrite Hset, Htoggle. split_and!; try done.
  - by apply Happly.
  - unfold initializeTheme, get, bind. by apply Happly.
  - simpl. by apply Happly.
  - intros Hls. by rewrite !Hplain.
Qed.

Lemma theme_actions_without_document_witness :
  document blocked_page = None /\
  toggleTheme blocked_page = (Ok tt, with_themeStore (mkThemeState dark) blocked_page).
Proof.
  split; [reflexivity|].
  destruct (theme_actions_without_document blocked_page light eq_refl)
    as (_ & _ & _ & _ & _ & _ & _ & H).
  exact (proj2 (H eq_refl)).
Defined.


(** X13. [applyThemeToDocument] is idempotent: applying the same theme
    once more changes nothing. *)
Theorem applyThemeToDocument_idempotent w t :
  applyThemeToDocument t (exec (applyThemeToDocument t) w) =
  (Ok tt, exec (applyThemeToDocument t) w).
Proof.
  unfold exec. rewrite !applyThemeToDocument_exact. simpl.
  destruct (document w) as [doc|] eqn:Hdoc; simpl; [|by rewrite Hdoc].
  f_equal. unfold with_document. simpl. f_equal. f_equal. f_equal.
  change (resolved (mkWorld _ _ (window w) _ _ _) t) with (resolved w t).
  destruct (resolved_concrete w t) as [-> | ->]; simpl; set_solver.
Qed.

(** X14. The effects of the theme provider that apply the theme.
    The one that asks whether the component is mounted does nothing
    before it is; mounted, in a page with a document, it does what
    [initializeTheme] does, and so does the effect of the first
    application: they do not throw and leave the document in step with
    the stored preference.  Where no document is declared the two
    effects throw a [ReferenceError], where [initializeTheme] does
    nothing. *)
Theorem applyEffect_is_initializeTheme w :
  ThemeProvider.applyEffect false w = (Ok tt, w) /\
  match document w with
  | Some _ =>
      ThemeProvider.applyEffect true w = initializeTheme w /\
      ThemeProvider.initialEffect w = initializeTheme w /\
      eval (ThemeProvider.applyEffect true) w = Ok tt /\
      document_follows_theme (exec (ThemeProvider.applyEffect true) w)
  | None =>
      ThemeProvider.applyEffect true w = (Throw ReferenceError, w) /\
      ThemeProvider.initialEffect w = (Throw ReferenceError, w) /\
      initializeTheme w = (Ok tt, w)
  end.
Proof.
  split; [done|].
  unfold eval, exec, ThemeProvider.applyEffect, ThemeProvider.initialEffect,
    initializeTheme, bind, get. cbv beta. cbn [negb].
  rewrite !getEffectiveTheme_resolved, applyThemeToDocument_exact. cbv beta iota.
  destruct (document w) as [doc|] eqn:Hdoc.
  - destruct (resolved_concrete w (theme (themeStore w))) as [Hr | Hr]; rewrite Hr;
      cbn [Theme_eqb]; unfold classList_add, classList_remove; rewrite Hdoc;
      cbn [fst snd]; (split_and!; [done|done|done|]); apply follows_after;
      cbn [classList]; rewrite Hr; set_solver.
  - destruct (Theme_eqb (resolved w (theme (themeStore w))) dark);
      unfold classList_add, classList_remove; by rewrite Hdoc.
Qed.

(** X15. The listener of the theme provider, registered while the
    preference is [system]: called with the new answer of the color
    scheme query, it leaves the document in step with the preference as
    the platform now resolves it. *)
Theorem handleChange_follows_scheme w doc win' e_matches :
  document w = Some doc ->
  theme (themeStore w) = system ->
  matches (matchMedia win' "(prefers-color-scheme: dark)") = e_matches ->
  eval (ThemeProvider.handleChange e_matches) w = Ok tt /\
  document_follows_theme
    (with_window (Some win') (exec (ThemeProvider.handleChange e_matches) w)).
Proof.
  intros Hdoc Ht Hm. unfold eval, exec, ThemeProvider.handleChange.
  destruct e_matches; unfold classList_add, classList_remove; rewrite Hdoc; simpl;
    (split; [done|]); intros doc' [= <-]; simpl; rewrite Ht; simpl;
    unfold prefers; rewrite Hm; set_solver.
Qed.

Lemma handleChange_follows_scheme_witness :
  document_follows_theme
    (with_window (Some (scheme true))
       (exec (ThemeProvider.handleChange true) (browser_page false ∅))).
Proof.
  exact (proj2 (handleChange_follows_scheme (browser_page false ∅) (mkDocument ∅)
                  (scheme true) true eq_refl eq_refl eq_refl)).
Defined.

End ThemeMore.

(** ** The script of the root layout *)

Section LayoutScript.

Import ThemeStore.

Implicit Types (w : World) (t : Theme).

(** The script either leaves the world as it is or adds the class
    [dark] to the document. *)
Lemma themeScript_run w :
  Layout.themeScript w = (Ok tt, w) \/
  exists doc, document w = Some doc /\
    Layout.themeScript w =
      (Ok tt, with_document (Some (mkDocument ({["dark"]} ∪ classList doc))) w).
Proof.
  unfold Layout.themeScript, try_catch, bind, ret, throw, lift, localStorage_getItem,
    member, window_matchMedia_matches, classList_add.
  repeat (case_match; simpl in *; unfold ret, throw in *; simplify_eq); eauto.
Qed.

(** The text of the theme slot is read back as the record it was made
    of. *)
Lemma theme_record_text t :
  exists c text,
    Json.JSON_stringify (theme_record t) = String c text /\
    Json.JSON_parse (String c text) = Ok (theme_record t).
Proof.
  destruct t; (eexists _, _; split; [reflexivity | vm_compute; reflexivity]).
Qed.

(** X16. The script of the root layout never throws and changes the
    document only, whatever the storage holds and whether or not there
    is a storage, a window or a document: it leaves every class of the
    document in place and adds at most the class [dark]; it never
    removes [dark]. *)
Theorem themeScript_only_adds_dark w :
  exists d,
    Layout.themeScript w = (Ok tt, with_document d w) /\
    forall doc, document w = Some doc ->
      exists doc', d = Some doc' /\
        classList doc ⊆ classList doc' /\
        classList doc' ⊆ {["dark"]} ∪ classList doc.
Proof.
  destruct (themeScript_run w) as [Hrun | (doc & Hdoc & Hrun)]; rewrite Hrun.
  - exists (document w). split; [by rewrite with_document_same|].
    intros doc Hdoc. exists doc. split; [done|]. set_solver.
  - eexists. split; [reflexivity|].
    intros doc0 Hdoc0. eexists. split; [reflexivity|]. simplify_eq. simpl. set_solver.
Qed.

(** X17. With a storage, a window and a document, and the theme slot
    as [persist] writes it for a preference (or no slot, which counts
    as [system]), the script adds [dark] exactly when the preference
    resolves to [dark]: afterwards the document carries [dark] when it
    did before or when the preference resolves to [dark]. *)
Theorem themeScript_applies_saved_theme w slots win doc t :
  localStorage w = Some slots ->
  window w = Some win ->
  document w = Some doc ->
  slots !! "pazaryeri-theme" = Some (Json.JSON_stringify (theme_record t)) \/
    (slots !! "pazaryeri-theme" = None /\ t = system) ->
  exists doc',
    Layout.themeScript w = (Ok tt, with_document (Some doc') w) /\
    ("dark" ∈ classList doc' <-> "dark" ∈ classList doc \/ resolved w t = dark) /\
    (forall token, token <> "dark" ->
       token ∈ classList doc' <-> token ∈ classList doc).
Proof.
  intros Hls Hwin Hdoc Hslot.
  assert (Hstep : forall theme,
            (theme = Some (JsString (Theme_name t))) ->
            (isDark <-
               (if Layout.is_string "dark" theme then ret true
                else if Layout.is_string "system" theme
                     then window_matchMedia_matches "(prefers-color-scheme: dark)"
                     else ret false) ;;
             if isDark then classList_add "dark" else ret tt) w =
            (Ok tt, with_document
                      (Some (mkDocument (if Theme_eqb (resolved w t) dark
                                         then {["dark"]} ∪ classList doc
                                         else classList doc))) w)).
  { intros theme ->. unfold bind, ret, window_matchMedia_matches, classList_add, prefers.
    destruct t; simpl; rewrite ?Hwin; simpl; unfold prefers;
      try destruct (matches _); simpl; rewrite ?Hdoc; try done;
      destruct doc as [classes]; simpl; by rewrite <- Hdoc, with_document_same. }
  exists (mkDocument (if Theme_eqb (resolved w t) dark
                      then {["dark"]} ∪ classList doc else classList doc)).
  split.
  - pose proof (Hstep _ eq_refl) as Hs. simpl in Hs.
    unfold Layout.themeScript, try_catch.
    unfold bind at 1 2. unfold localStorage_getItem. rewrite Hls.
    destruct Hslot as [Hslot | [Hslot ->]]; rewrite Hslot.
    + destruct (theme_record_text t) as (c & text & -> & Hparse).
      unfold bind at 1, lift. rewrite Hparse. simpl. by rewrite Hs.
    + simpl. simpl in Hs. by rewrite Hs.
  - destruct (resolved_concrete w t) as [-> | ->]; simpl; set_solver.
Qed.

Lemma themeScript_applies_saved_theme_witness :
  exists doc',
    exec Layout.themeScript
      (page_with_theme_slot (Json.JSON_stringify (theme_record dark)) false {["wide"]}) =
    with_document (Some doc')
      (page_with_theme_slot (Json.JSON_stringify (theme_record dark)) false {["wide"]}) /\
    "dark" ∈ classList doc'.
Proof.
  destruct (themeScript_applies_saved_theme
              (page_with_theme_slot (Json.JSON_stringify (theme_record dark)) false {["wide"]})
              {[ "pazaryeri-theme" := Json.JSON_stringify (theme_record dark) ]}
              (scheme false) (mkDocument {["wide"]}) dark
              eq_refl eq_refl eq_refl (or_introl eq_refl))
    as (doc' & Hrun & Hdark & _).
  exists doc'. split; [unfold exec; by rewrite Hrun|]. apply Hdark. by right.
Defined.

(** X18. Where the storage is blocked, or the theme slot holds text
    that is not JSON, the script gives up in silence: it does not throw
    and leaves the document as it was. *)
Theorem themeScript_ignores_unreadable_slot w :
  (localStorage w = None \/
   exists slots c text e,
     localStorage w = Some slots /\
     slots !! "pazaryeri-theme" = Some (String c text) /\
     Json.JSON_parse (String c text) = Throw e) ->
  Layout.themeScript w = (Ok tt, w).
Proof.
  unfold Layout.themeScript, try_catch, bind, localStorage_getItem, lift.
  intros [Hls | (slots & c & text & e & Hls & Hslot & Hparse)]; rewrite Hls.
  - done.
  - by rewrite Hslot, Hparse.
Qed.

Lemma themeScript_ignores_unreadable_slot_witness :
  Layout.themeScript (page_with_theme_slot "{dark" true ∅) =
  (Ok tt, page_with_theme_slot "{dark" true ∅).
Proof.
  apply themeScript_ignores_unreadable_slot. right.
  exists {[ "pazaryeri-theme" := "{dark" ]}, "{"%char, "dark", SyntaxError.
  split; [reflexivity|]. split; [reflexivity|]. vm_compute. reflexivity.
Defined.

(** A theme slot whose record carries a version with a fraction is
    JSON as any other: the script reads the theme out of it. *)
Lemma themeScript_reads_fraction_version :
  let text :=
    Json.JSON_stringify
      (JsObject [("state", JsObject [("theme", JsString "dark")]);
                 ("version", JsNumber (number "0.5"))]) in
  Json.JSON_parse text
  = Ok (JsObject [("state", JsObject [("theme", JsString "dark")]);
                  ("version", JsNumber (number "0.5"))]) /\
  exec Layout.themeScript (page_with_theme_slot text false ∅)
  = with_document (Some (mkDocument ({["dark"]} ∪ ∅))) (page_with_theme_slot text false ∅).
Proof. split; reflexivity. Qed.

End LayoutScript.

(** ** The storage service *)

Section StorageServiceMore.

Import LocalStorageService.

Implicit Types (w : World) (slots : gmap string string) (key value : string)
  (options : option StorageNamespaceOptions).

Lemma with_localStorage_same w slots :
  localStorage w = Some slots -> with_localStorage (Some slots) w = w.
Proof. destruct w; simpl. by intros ->. Qed.

Lemma getLocalStorage_run w :
  getLocalStorage w =
  (Ok match window w, localStorage w with
      | Some _, Some _ => true
      | _, _ => false
      end, w).
Proof.
  unfold getLocalStorage, isBrowser, try_catch, bind, ret.
  destruct (window w); simpl; [|done]. by destruct (localStorage w).
Qed.

Lemma get_run w win slots key options :
  window w = Some win -> localStorage w = Some slots ->
  get key options w = (Ok (slots !! buildKey key options), w).
Proof.
  intros Hwin Hls. unfold get, bind. rewrite getLocalStorage_run, Hwin, Hls. simpl.
  unfold try_catch, localStorage_getItem. by rewrite Hls.
Qed.

Lemma set_run w win slots key value options :
  window w = Some win -> localStorage w = Some slots ->
  set key value options w =
  (Ok true, with_localStorage (Some (<[buildKey key options := value]> slots)) w).
Proof.
  intros Hwin Hls. unfold set, bind. rewrite getLocalStorage_run, Hwin, Hls. simpl.
  unfold try_catch, localStorage_setItem. by rewrite Hls.
Qed.

Lemma remove_run w win slots key options :
  window w = Some win -> localStorage w = Some slots ->
  remove key options w =
  (Ok true, with_localStorage (Some (delete (buildKey key options) slots)) w).
Proof.
  intros Hwin Hls. unfold remove, bind. rewrite getLocalStorage_run, Hwin, Hls. simpl.
  unfold try_catch, localStorage_removeItem. by rewrite Hls.
Qed.

(** The first loop of [clear]: the names of the slots in the namespace,
    in the order of [localStorage.key]. *)
Lemma collect_run w slots p from count acc :
  localStorage w = Some slots ->
  for_range from count
    (fun i acc =>
       k <- localStorage_key i ;;
       ret (if in_namespace p k then acc ++ option_list k else acc)) acc w =
  (Ok (acc ++ List.filter (fun k => in_namespace p (Some k))
                 (take count (drop from (slot_names slots)))), w).
Proof.
  intros Hls. revert from acc. induction count as [|count IH]; intros from acc.
  - simpl. unfold ret. by rewrite ?take_0, app_nil_r.
  - cbn [for_range]. unfold bind at 1. unfold bind at 1. unfold localStorage_key at 1.
    rewrite Hls. unfold ret at 1. rewrite IH.
    destruct (slot_names slots !! from) as [k|] eqn:Hk.
    + rewrite (drop_S _ _ _ Hk). cbn [take List.filter option_list].
      destruct (in_namespace p (Some k)); [by rewrite <- app_assoc | done].
    + rewrite (drop_ge _ from) by by apply lookup_ge_None.
      rewrite (drop_ge _ (S from)) by (apply lookup_ge_None in Hk; lia).
      by rewrite !take_nil.
Qed.

(** The second loop of [clear]. *)
Lemma remove_all_run w slots keys :
  localStorage w = Some slots ->
  for_of keys localStorage_removeItem w =
  (Ok tt, with_localStorage (Some (foldl (fun m k => delete k m) slots keys)) w).
Proof.
  revert w slots. induction keys as [|k keys IH]; intros w slots Hls.
  - simpl. unfold ret. by rewrite with_localStorage_same.
  - cbn [for_of foldl]. unfold bind, localStorage_removeItem at 1. rewrite Hls.
    by rewrite (IH _ (delete k slots)).
Qed.

Lemma lookup_remove_all slots keys k :
  foldl (fun m k => delete k m) slots keys !! k =
  if decide (k ∈ keys) then None else slots !! k.
Proof.
  revert slots. induction keys as [|k' keys IH]; intros slots.
  - cbn [foldl]. case_decide; [set_solver|done].
  - cbn [foldl]. rewrite IH. repeat case_decide; try done.
    + set_solver.
    + assert (k = k') as -> by set_solver. by rewrite lookup_delete_eq.
    + rewrite lookup_delete_ne; [done|set_solver].
Qed.

Lemma prefix_of_empty s : String.prefix (s +:+ ":") "" = false.
Proof. by destruct s. Qed.

Lemma in_namespace_prefix p k :
  in_namespace p (Some k) = String.prefix (p +:+ ":") k.
Proof.
  unfold in_namespace. destruct k as [|c k]; [|done].
  symmetry. apply prefix_of_empty.
Qed.

Lemma clear_namespace_run w win slots p :
  window w = Some win -> localStorage w = Some slots -> trim p <> "" ->
  clear (Some (mkOptions (Some p))) w =
  (Ok true,
   with_localStorage
     (Some (foldl (fun m k => delete k m) slots
              (List.filter (fun k => in_namespace (trim p) (Some k)) (slot_names slots)))) w).
Proof.
  intros Hwin Hls Hp. unfold clear, bind at 1. rewrite getLocalStorage_run, Hwin, Hls.
  cbn [negb fmap option_fmap option_map mbind option_bind prefix].
  destruct (trim p) as [|c q] eqn:Htrim; [done|].
  unfold try_catch, bind at 1. unfold localStorage_length. rewrite Hls.
  unfold bind at 1. rewrite (collect_run w slots (String c q) 0 _ [] Hls).
  rewrite drop_0, firstn_all, app_nil_l.
  unfold bind. by rewrite (remove_all_run w slots _ Hls).
Qed.

Lemma clear_all_run w win slots options :
  window w = Some win -> localStorage w = Some slots ->
  trim <$> (options ≫= prefix) = None \/ trim <$> (options ≫= prefix) = Some "" ->
  clear options w = (Ok true, with_localStorage (Some ∅) w).
Proof.
  intros Hwin Hls Hp. unfold clear, bind at 1. rewrite getLocalStorage_run, Hwin, Hls.
  cbn [negb]. unfold try_catch, bind, localStorage_clear.
  destruct Hp as [-> | ->]; by rewrite Hls.
Qed.

Lemma buildKey_in_namespace key p :
  trim p <> "" ->
  String.prefix (trim p +:+ ":") (buildKey key (Some (mkOptions (Some p)))) = true.
Proof.
  intros Hp. unfold buildKey. simpl.
  destruct (String.eqb_spec (trim p) "") as [|_]; [done|].
  generalize (trim p). intros s. induction s as [|c s IH]; simpl.
  - by destruct key.
  - destruct (ascii_dec c c); [exact IH|done].
Qed.

(** X19. Where there is no [window] (a render on the server) or the
    storage is blocked, every operation of the storage service answers
    without throwing and without touching anything: the reads give
    [null] or [false], the writes report [false]. *)
Theorem service_without_storage w key value v options :
  window w = None \/ localStorage w = None ->
  isAvailable w = (Ok false, w) /\
  get key options w = (Ok None, w) /\
  getJson key options w = (Ok None, w) /\
  has key options w = (Ok false, w) /\
  set key value options w = (Ok false, w) /\
  setJson key v options w = (Ok false, w) /\
  remove key options w = (Ok false, w) /\
  clear options w = (Ok false, w).
Proof.
  intros Hno.
  assert (Hst : getLocalStorage w = (Ok false, w)).
  { rewrite getLocalStorage_run. destruct Hno as [-> | ->]; [done|]. by destruct (window w). }
  unfold isAvailable, getJson, has, setJson, get, set, remove, clear, bind.
  by rewrite Hst.
Qed.

Lemma service_without_storage_witness :
  set "token" "abc" None blocked_page = (Ok false, blocked_page) /\
  get "token" None blocked_page = (Ok None, blocked_page).
Proof.
  pose proof (service_without_storage blocked_page "token" "abc" JsNull None
                (or_introl eq_refl)) as H.
  split; [exact (proj1 (proj2 (proj2 (proj2 (proj2 H))))) | exact (proj1 (proj2 H))].
Defined.

(** X20. With a window and a storage, [set(key, value, options)]
    never throws and reports whether the write was made.  Where it
    reports [true], one slot is written: [get] under the same key and
    options gives the value back, [has] says [true], and a read under
    any other slot name gives what it gave before.  Where it reports
    [false], nothing has changed.  Either way the heap, the stores and
    the document are as they were. *)
Theorem set_then_get w win slots key value options :
  window w = Some win ->
  localStorage w = Some slots ->
  let w' := exec (set key value options) w in
  exists written,
    set key value options w = (Ok written, w') /\
    (written = true ->
       get key options w' = (Ok (Some value), w') /\
       has key options w' = (Ok true, w') /\
       (forall key' options',
          buildKey key' options' <> buildKey key options ->
          eval (get key' options') w' = eval (get key' options') w)) /\
    (written = false -> w' = w) /\
    heap w' = heap w /\ favoritesStore w' = favoritesStore w /\
    themeStore w' = themeStore w /\ document w' = document w.
Proof.
  intros Hwin Hls w'. exists true. unfold w', eval, exec, has, bind.
  rewrite (set_run _ _ _ _ _ _ Hwin Hls). cbn [fst snd].
  set (w1 := with_localStorage _ w).
  assert (Hget : forall key' options',
            get key' options' w1 =
            (Ok (<[buildKey key options := value]> slots !! buildKey key' options'), w1)).
  { intros. by apply (get_run w1 win). }
  rewrite !Hget, lookup_insert_eq. split_and!; try done.
  intros _. split_and!; try done.
  intros key' options' Hne. rewrite Hget, (get_run w win slots) by done.
  cbn [fst]. by rewrite lookup_insert_ne.
Qed.

Lemma set_then_get_witness :
  window (browser_page false ∅) = Some (scheme false) /\
  localStorage (browser_page false ∅) = Some ∅ /\
  get "token" (Some (mkOptions (Some "auth")))
    (exec (set "token" "abc" (Some (mkOptions (Some "auth")))) (browser_page false ∅)) =
  (Ok (Some "abc"),
   exec (set "token" "abc" (Some (mkOptions (Some "auth")))) (browser_page false ∅)).
Proof.
  split; [reflexivity|]. split; [reflexivity|].
  destruct (set_then_get (browser_page false ∅) (scheme false) ∅
              "token" "abc" (Some (mkOptions (Some "auth"))) eq_refl eq_refl)
    as (written & Hrun & Hwritten & _).
  apply Hwritten. by injection Hrun as <-.
Defined.

(** X21. With a window and a storage, [remove(key, options)] reports
    [true] whether or not the slot was there; after it [get] under the
    same key and options gives [null], [has] says [false], and a read
    under any other slot name gives what it gave before. *)
Theorem remove_then_get w win slots key options :
  window w = Some win ->
  localStorage w = Some slots ->
  let w' := exec (remove key options) w in
  eval (remove key options) w = Ok true /\
  get key options w' = (Ok None, w') /\
  has key options w' = (Ok false, w') /\
  (forall key' options',
     buildKey key' options' <> buildKey key options ->
     eval (get key' options') w' = eval (get key' options') w).
Proof.
  intros Hwin Hls w'. unfold w', eval, exec, has, bind.
  rewrite (remove_run _ _ _ _ _ Hwin Hls). cbn [fst snd].
  set (w1 := with_localStorage _ w).
  assert (Hget : forall key' options',
            get key' options' w1 =
            (Ok (delete (buildKey key options) slots !! buildKey key' options'), w1)).
  { intros. by apply (get_run w1 win). }
  rewrite !Hget, lookup_delete_eq. split_and!; try done.
  intros key' options' Hne. rewrite Hget, (get_run w win slots) by done.
  cbn [fst]. by rewrite lookup_delete_ne.
Qed.

Lemma remove_then_get_witness :
  has "token" None
    (exec (remove "token" None)
       (exec (set "token" "abc" None) (browser_page false ∅))) =
  (Ok false,
   exec (remove "token" None) (exec (set "token" "abc" None) (browser_page false ∅))).
Proof.
  exact (proj1 (proj2 (proj2
    (remove_then_get (exec (set "token" "abc" None) (browser_page false ∅))
       (scheme false) {[ "token" := "abc" ]} "token" None eq_refl eq_refl)))).
Defined.

(** X22. With a window and a storage, [setJson] never throws and
    reports whether the write was made; where it reports [true],
    [getJson] after it gives the value back, for every value
    [JSON.stringify] writes in full: [null], booleans, numbers,
    strings, lists and records of such. *)
Theorem setJson_then_getJson w win slots key v options :
  window w = Some win ->
  localStorage w = Some slots ->
  is_json v = true ->
  exists written,
    eval (setJson key v options) w = Ok written /\
    (written = true ->
       eval (getJson key options) (exec (setJson key v options) w) = Ok (Some v)).
Proof.
  intros Hwin Hls Hjson. exists true. unfold eval, exec, setJson, getJson, bind.
  rewrite (set_run _ _ _ _ _ _ Hwin Hls). cbn [fst snd]. split; [done|]. intros _.
  rewrite (get_run _ win (<[buildKey key options := Json.JSON_stringify v]> slots))
    by done.
  rewrite lookup_insert_eq. unfold safeJsonParse, try_catch, bind, lift.
  by rewrite JSON_parse_stringify.
Qed.

Lemma setJson_then_getJson_witness :
  window (browser_page false ∅) = Some (scheme false) /\
  localStorage (browser_page false ∅) = Some ∅ /\
  is_json (JsArray [JsNumber (number "299.99"); JsString "a"]) = true /\
  eval (getJson "cart" None)
    (exec (setJson "cart" (JsArray [JsNumber (number "299.99"); JsString "a"]) None)
       (browser_page false ∅)) =
  Ok (Some (JsArray [JsNumber (number "299.99"); JsString "a"])).
Proof.
  split; [reflexivity|]. split; [reflexivity|]. split; [reflexivity|].
  destruct (setJson_then_getJson (browser_page false ∅) (scheme false) ∅ "cart"
              (JsArray [JsNumber (number "299.99"); JsString "a"]) None
              eq_refl eq_refl eq_refl) as (written & Hrun & Hwritten).
  apply Hwritten. by injection Hrun as <-.
Defined.

(** X23. With a window and a storage, [clear] with a prefix that is
    not blank reports [true] and removes exactly the slots whose name
    starts with the trimmed prefix and a colon; every other slot keeps
    its text. *)
Theorem clear_removes_namespace w win slots p :
  window w = Some win ->
  localStorage w = Some slots ->
  trim p <> "" ->
  exists slots',
    clear (Some (mkOptions (Some p))) w = (Ok true, with_localStorage (Some slots') w) /\
    forall k,
      slots' !! k = if String.prefix (trim p +:+ ":") k then None else slots !! k.
Proof.
  intros Hwin Hls Hp. eexists. split; [by apply (clear_namespace_run w win)|].
  intros k. rewrite lookup_remove_all.
  destruct (decide (k ∈ _)) as [Hin|Hnin].
  - apply list_elem_of_In, filter_In in Hin as [_ Hin].
    rewrite in_namespace_prefix in Hin. by rewrite Hin.
  - destruct (String.prefix (trim p +:+ ":") k) eqn:Hpre; [|done].
    destruct (slots !! k) as [text|] eqn:Hk; [|done].
    exfalso. apply Hnin, list_elem_of_In, filter_In. split.
    + apply list_elem_of_In. unfold slot_names.
      apply (list_elem_of_fmap_2 fst _ (k, text)). by apply elem_of_map_to_list.
    + by rewrite in_namespace_prefix.
Qed.

Lemma clear_removes_namespace_witness :
  exists slots',
    exec (clear (Some (mkOptions (Some " auth "))))
      (with_localStorage (Some {[ "auth:token" := "abc"; "lang" := "tr" ]})
         (browser_page false ∅)) =
    with_localStorage (Some slots') (browser_page false ∅) /\
    slots' !! "auth:token" = None /\ slots' !! "lang" = Some "tr".
Proof.
  destruct (clear_removes_namespace
              (with_localStorage (Some {[ "auth:token" := "abc"; "lang" := "tr" ]})
                 (browser_page false ∅))
              (scheme false) {[ "auth:token" := "abc"; "lang" := "tr" ]} " auth "
              eq_refl eq_refl ltac:(discriminate)) as (slots' & Hrun & Hslots).
  exists slots'. split; [unfold exec; by rewrite Hrun|]. split.
  - exact (Hslots "auth:token").
  - exact (Hslots "lang").
Defined.

(** X24. With a window and a storage, [clear] with no options, no
    prefix or a blank prefix reports [true] and empties the whole
    storage, the slots of the two stores with it. *)
Theorem clear_without_prefix_empties w win slots options :
  window w = Some win ->
  localStorage w = Some slots ->
  match options ≫= prefix with
  | Some p => trim p = ""
  | None => True
  end ->
  clear options w = (Ok true, with_localStorage (Some ∅) w) /\
  forall key options',
    eval (get key options') (exec (clear options) w) = Ok None.
Proof.
  intros Hwin Hls Hp.
  assert (Hrun : clear options w = (Ok true, with_localStorage (Some ∅) w)).
  { apply (clear_all_run w win slots); [done|done|].
    destruct (options ≫= prefix) as [p|]; simpl; [right; by rewrite Hp | by left]. }
  split; [done|]. intros key options'. unfold eval, exec. rewrite Hrun. cbn [snd].
  by rewrite (get_run _ win ∅).
Qed.

Lemma clear_without_prefix_empties_witness :
  eval (get FavoritesStore.name None)
    (exec (clear (Some (mkOptions (Some "  "))))
       (with_localStorage (Some {[ FavoritesStore.name := "{}" ]}) (browser_page false ∅))) =
  Ok None.
Proof.
  exact (proj2 (clear_without_prefix_empties
                  (with_localStorage (Some {[ FavoritesStore.name := "{}" ]})
                     (browser_page false ∅))
                  (scheme false) {[ FavoritesStore.name := "{}" ]}
                  (Some (mkOptions (Some "  "))) eq_refl eq_refl eq_refl)
               FavoritesStore.name None).
Defined.

(** X25. What [set] writes under options, [clear] under the same
    options removes: after the two, [has] under the key and the options
    says [false]. *)
Theorem set_then_clear w win slots key value options :
  window w = Some win ->
  localStorage w = Some slots ->
  eval (has key options) (exec (clear options) (exec (set key value options) w)) = Ok false.
Proof.
  intros Hwin Hls. unfold exec at 2. rewrite (set_run _ _ _ _ _ _ Hwin Hls). cbn [snd].
  set (slots1 := <[buildKey key options := value]> slots).
  set (w1 := with_localStorage (Some slots1) w).
  assert (Hwin1 : window w1 = Some win) by done.
  assert (Hls1 : localStorage w1 = Some slots1) by done.
  assert (Hhas : forall slots2,
            eval (has key options) (with_localStorage (Some slots2) w1) =
            Ok match slots2 !! buildKey key options with Some _ => true | None => false end).
  { intros slots2. unfold eval, has, bind. by rewrite (get_run _ win slots2). }
  destruct options as [[[p|]]|].
  - destruct (decide (trim p = "")) as [Hblank|Hp].
    + unfold exec. rewrite (clear_all_run w1 win slots1) by (simpl; auto using f_equal).
      cbn [snd]. by rewrite Hhas.
    + unfold exec. rewrite (clear_namespace_run w1 win slots1) by done.
      cbn [snd]. rewrite Hhas, lookup_remove_all, decide_True; [done|].
      apply list_elem_of_In, filter_In. split.
      * apply list_elem_of_In. unfold slot_names.
        apply (list_elem_of_fmap_2 fst _ (buildKey key (Some (mkOptions (Some p))), value)).
        apply elem_of_map_to_list. unfold slots1. by rewrite lookup_insert_eq.
      * rewrite in_namespace_prefix. by apply buildKey_in_namespace.
  - unfold exec. rewrite (clear_all_run w1 win slots1) by (simpl; auto).
    cbn [snd]. by rewrite Hhas.
  - unfold exec. rewrite (clear_all_run w1 win slots1) by (simpl; auto).
    cbn [snd]. by rewrite Hhas.
Qed.

Lemma set_then_clear_witness :
  eval (has "token" (Some (mkOptions (Some "auth"))))
    (exec (clear (Some (mkOptions (Some "auth"))))
       (exec (set "token" "abc" (Some (mkOptions (Some "auth")))) (browser_page false ∅))) =
  Ok false.
Proof.
  exact (set_then_clear (browser_page false ∅) (scheme false) ∅ "token" "abc"
           (Some (mkOptions (Some "auth"))) eq_refl eq_refl).
Defined.

End StorageServiceMore.

(** ** The names of the slots *)

Section SlotNames.

Import LocalStorageService.

Implicit Types (l : list ascii) (key p : string)
  (options : option StorageNamespaceOptions).

(** One step of [strip]: the text is left as it is, or white space at
    its head goes, whatever comes after the text. *)
Lemma strip_cases back l :
  strip back l = l \/
  exists pre r, l = pre ++ r /\ pre <> [] /\
    forall u, strip back (l ++ u) = strip back (r ++ u).
Proof.
  destruct l as [|c1 r1]; [by left|].
  destruct (is_space c1) eqn:H1.
  { right. exists [c1], r1. split_and!; [done|done|]. intros u. simpl. by rewrite H1. }
  destruct r1 as [|c2 r2]; [left; simpl; by rewrite H1|].
  destruct (if back then is_space2 c2 c1 else is_space2 c1 c2) eqn:H2.
  { right. exists [c1; c2], r2. split_and!; [done|done|]. intros u. simpl.
    by rewrite H1, H2. }
  destruct r2 as [|c3 r3]; [left; simpl; by rewrite H1, H2|].
  destruct (if back then is_space3 c3 c2 c1 else is_space3 c1 c2 c3) eqn:H3.
  { right. exists [c1; c2; c3], r3. split_and!; [done|done|]. intros u. simpl.
    by rewrite H1, H2, H3. }
  left. simpl. by rewrite H1, H2, H3.
Qed.

Lemma strip_suffix back l : exists pre, l = pre ++ strip back l.
Proof.
  remember (length l) as n eqn:Hn. revert l Hn.
  induction (lt_wf n) as [n _ IH]. intros l ->.
  destruct (strip_cases back l) as [-> | (pre & r & -> & Hpre & Hstep)]; [by exists []|].
  specialize (Hstep []). rewrite !app_nil_r in Hstep. rewrite Hstep.
  destruct (IH (length r)) with (l := r) as [pre' Hr]; [|done|].
  { rewrite length_app. destruct pre; [done|]. simpl. lia. }
  exists (pre ++ pre'). by rewrite <- app_assoc, <- Hr.
Qed.

Lemma strip_strip back l : strip back (strip back l) = strip back l.
Proof.
  remember (length l) as n eqn:Hn. revert l Hn.
  induction (lt_wf n) as [n _ IH]. intros l ->.
  destruct (strip_cases back l) as [Hl | (pre & r & -> & Hpre & Hstep)];
    [by rewrite !Hl|].
  specialize (Hstep []). rewrite !app_nil_r in Hstep. rewrite Hstep.
  apply (IH (length r)); [|done].
  rewrite length_app. destruct pre; [done|]. simpl. lia.
Qed.

(** Text with no white space at its head: none at the head of what it
    starts with. *)
Lemma strip_prefix_fixed back l u : strip back (l ++ u) = l ++ u -> strip back l = l.
Proof.
  intros H. destruct (strip_cases back l) as [Hl | (pre & r & -> & Hpre & Hstep)]; [done|].
  exfalso. rewrite Hstep in H.
  destruct (strip_suffix back (r ++ u)) as [pre' Hpre']. rewrite H in Hpre'.
  apply (f_equal length) in Hpre'. rewrite !length_app in Hpre'.
  destruct pre; [done|]. simpl in Hpre'. lia.
Qed.

Lemma trim_list_idempotent l :
  rev (strip true (rev (strip false
    (rev (strip true (rev (strip false l))))))) =
  rev (strip true (rev (strip false l))).
Proof.
  pose proof (strip_strip false l) as Ha. set (a := strip false l) in *. clearbody a.
  pose proof (strip_strip true (rev a)) as Hb.
  destruct (strip_suffix true (rev a)) as [pre Hpre].
  set (b := strip true (rev a)) in *. clearbody b.
  assert (Hrev : a = rev b ++ rev pre).
  { by rewrite <- rev_app_distr, <- Hpre, rev_involutive. }
  rewrite Hrev in Ha. apply strip_prefix_fixed in Ha.
  by rewrite Ha, rev_involutive, Hb.
Qed.

Lemma trim_idempotent p : trim (trim p) = trim p.
Proof.
  unfold trim. rewrite list_ascii_of_string_of_list_ascii.
  by rewrite trim_list_idempotent.
Qed.

Lemma append_cancel s a b : s +:+ a = s +:+ b -> a = b.
Proof. induction s as [|c s IH]; simpl; [done|]. intros [= H]. by apply IH. Qed.

(** X26. The slot name of a key depends on the prefix only through
    the trimmed prefix: white space around the prefix makes no
    difference, and a prefix of white space only is no prefix. *)
Theorem buildKey_ignores_padding key p :
  buildKey key (Some (mkOptions (Some (trim p)))) =
    buildKey key (Some (mkOptions (Some p))) /\
  (trim p = "" -> buildKey key (Some (mkOptions (Some p))) = key).
Proof.
  unfold buildKey. simpl. rewrite trim_idempotent. split; [done|]. by intros ->.
Qed.

(** X27. Under the same options, two keys share a slot name only when
    they are the same key. *)
Theorem buildKey_keeps_keys_apart key key' options :
  key <> key' -> buildKey key options <> buildKey key' options.
Proof.
  intros Hne Heq. apply Hne. unfold buildKey in Heq.
  destruct (options ≫= prefix) as [p|]; [|done].
  simpl in Heq. destruct (String.eqb (trim p) ""); [done|].
  by apply append_cancel, append_cancel in Heq.
Qed.

Lemma buildKey_keeps_keys_apart_witness :
  buildKey "token" (Some (mkOptions (Some "auth"))) <>
  buildKey "user" (Some (mkOptions (Some "auth"))).
Proof.
  apply buildKey_keeps_keys_apart. discriminate.
Defined.

End SlotNames.
